(** * md_api_server: a shallow embedding of the request pipeline

    The development follows the JavaScript sources of the repository:

    - [APIUtils.js]    parameter validation, permission resolution, session
                       lookup, [tryExecuteMethod], response wrappers;
    - [APIMethod.js]   [canBeExecuted] and the transactional [execute];
    - [APIDatabase.js] the promisified storage connection;
    - [APIServer.js]   the registry of methods and modules, and the end
                       of [methodHandlerWrapper];
    - [APIModule.js]   a module's list of methods;
    - [default_api_modules/session.js] and [multicall.js], the built-in
      methods, and [unnamed/part_000], the session module in the version
      that matches [APIUtils.js].

    Modelling decisions.

    - JavaScript values are an inductive type [jsval].  Numbers are the
      doubles: a finite one is held as the rational it is, and [parseInt]
      and [Number] round to the nearest double or to an infinity.  Strings
      are byte strings: the model covers ASCII text.  Objects are their
      own properties: a key that an object only inherits from
      [Object.prototype] is outside the model.
    - Asynchronous functions are state-passing functions over the storage
      connection.  They return an [outcome]: a value, a thrown exception
      (a rejected promise), or a promise that is never settled.
    - The storage is a single connection with in-memory tables.  A
      transaction keeps the tables as they were when it started; the
      connection may be down, in which case every primitive rejects.
    - An identifier is looked up in the bindings of the enclosing function
      and of the source file; one that nothing binds raises a
      ReferenceError, as in JavaScript.
    - Recursion that the source does not bound (the permission traversal,
      a multicall that names [/multicall]) takes a [fuel] argument.
    - Built-ins of the runtime that are not code of the repository and are
      too large to transcribe ([JSON.parse], number to string, string to
      number, SHA-256, the uuid generator) are the fields of a [Runtime]
      record over which everything is parametrised. *)

From Stdlib Require Import String Ascii List ZArith QArith Bool Lia Arith PeanoNat.
From Stdlib Require Import DecimalString.
Import ListNotations.
Local Close Scope Q_scope.
Local Open Scope list_scope.
Local Open Scope string_scope.

Set Implicit Arguments.
Set Warnings "-register-all".

(* ------------------------------------------------------------------ *)
(** * JavaScript values *)
(* ------------------------------------------------------------------ *)

Module JS.

(** A JavaScript number: a finite double (held as the rational it is; the
    two zeros are not told apart, which none of the operations below can
    do either), an infinity, or NaN. *)
Inductive number : Type :=
| Finite (q : Q)
| Infinite (negative : bool)
| NaN.

(** A JavaScript value as it travels through the pipeline: request
    parameters (query string or JSON body), parameter-spec literals and
    response payloads. *)
Inductive jsval : Type :=
| JUndefined
| JNull
| JBool (b : bool)
| JNumber (n : number)
| JStr (s : string)
| JArr (xs : list jsval)
| JObj (props : list (string * jsval)).

(** A finite number. *)
Abbreviation JNum q := (JNumber (Finite q)).

(** The built-ins of the runtime that the model takes as given. *)
Record Runtime : Type := {
  JSON_parse : string -> option jsval;   (* [None]: SyntaxError *)
  Number_toString : Q -> string;         (* Number.prototype.toString *)
  StringToNumber : string -> number;     (* ToNumber on a string *)
  sha256_hex : string -> string;         (* crypto sha256, hex digest *)
  uuid_v4 : nat -> string                (* the n-th draw of the uuid generator *)
}.

(** Own-property lookup of [obj[k]]; a missing property reads [undefined]. *)
Fixpoint lookup (k : string) (props : list (string * jsval)) : jsval :=
  match props with
  | [] => JUndefined
  | (k', v) :: rest => if String.eqb k k' then v else lookup k rest
  end.

(** [k in obj], restricted to own properties. *)
Fixpoint has_key (k : string) (props : list (string * jsval)) : bool :=
  match props with
  | [] => false
  | (k', _) :: rest => String.eqb k k' || has_key k rest
  end.

(** [obj[k] = v]: overwrite in place, or append a new property. *)
Fixpoint assign (k : string) (v : jsval) (props : list (string * jsval))
  : list (string * jsval) :=
  match props with
  | [] => [(k, v)]
  | (k', v') :: rest =>
      if String.eqb k k' then (k', v) :: rest else (k', v') :: assign k v rest
  end.

Section WithRuntime.
Variable rt : Runtime.

(** [String(v)]. *)
Fixpoint ToString (v : jsval) : string :=
  match v with
  | JUndefined => "undefined"
  | JNull => "null"
  | JBool true => "true"
  | JBool false => "false"
  | JNum q => Number_toString rt q
  | JNumber (Infinite false) => "Infinity"
  | JNumber (Infinite true) => "-Infinity"
  | JNumber NaN => "NaN"
  | JStr s => s
  | JArr xs =>
      (fix join (l : list jsval) : string :=
         match l with
         | [] => ""
         | x :: rest =>
             let sx := match x with
                       | JUndefined | JNull => ""
                       | _ => ToString x
                       end in
             match rest with
             | [] => sx
             | _ :: _ => sx ++ "," ++ join rest
             end
         end) xs
  | JObj _ => "[object Object]"
  end.

(** [ToNumber(v)]. *)
Definition ToNumber (v : jsval) : number :=
  match v with
  | JUndefined => NaN
  | JNull => Finite 0%Q
  | JBool b => Finite (if b then 1%Q else 0%Q)
  | JNumber n => n
  | JStr s => StringToNumber rt s
  | JArr _ | JObj _ => StringToNumber rt (ToString v)
  end.

(** [a < b] and [a > b] where the right operand is a finite number; a
    comparison with NaN is false. *)
Definition lt_num (a : jsval) (b : Q) : bool :=
  match ToNumber a with
  | Finite x => negb (Qle_bool b x)
  | Infinite negative => negative
  | NaN => false
  end.

Definition gt_num (a : jsval) (b : Q) : bool :=
  match ToNumber a with
  | Finite x => negb (Qle_bool x b)
  | Infinite negative => negb negative
  | NaN => false
  end.

End WithRuntime.

(** SameValueZero, the comparison of [Array.prototype.includes].  Objects
    and arrays compare by reference: a value built from a request is never
    identical to a literal of a parameter spec. *)
Definition same_value_zero (a b : jsval) : bool :=
  match a, b with
  | JUndefined, JUndefined => true
  | JNull, JNull => true
  | JBool x, JBool y => Bool.eqb x y
  | JNum x, JNum y => Qeq_bool x y
  | JNumber (Infinite x), JNumber (Infinite y) => Bool.eqb x y
  | JNumber NaN, JNumber NaN => true
  | JStr x, JStr y => String.eqb x y
  | _, _ => false
  end.

Definition includes (l : list jsval) (v : jsval) : bool :=
  existsb (fun x => same_value_zero x v) l.

(** [v.length] for a value that is neither [null] nor [undefined]. *)
Definition length_of (v : jsval) : jsval :=
  match v with
  | JStr s => JNum (inject_Z (Z.of_nat (String.length s)))
  | JArr xs => JNum (inject_Z (Z.of_nat (List.length xs)))
  | JObj props => lookup "length" props
  | _ => JUndefined
  end.

(** ** [String.prototype.trim] on ASCII white space *)

Definition is_ws (c : ascii) : bool :=
  let n := nat_of_ascii c in
  ((n =? 32) || ((9 <=? n) && (n <=? 13)))%nat.

Fixpoint trim_left (s : string) : string :=
  match s with
  | EmptyString => EmptyString
  | String c r => if is_ws c then trim_left r else s
  end.

Fixpoint trim_right (s : string) : string :=
  match s with
  | EmptyString => EmptyString
  | String c r =>
      match trim_right r with
      | EmptyString => if is_ws c then EmptyString else String c EmptyString
      | r' => String c r'
      end
  end.

Definition trim (s : string) : string := trim_right (trim_left s).

(** ** Regular expressions

    The patterns of the validator are anchored ([^...$], no [m] flag), so
    [s.match(re) !== null] is a whole-string match, decided here with
    Brzozowski derivatives. *)

Inductive regex : Type :=
| Fail
| Eps
| Cls (p : ascii -> bool)
| Cat (r1 r2 : regex)
| Alt (r1 r2 : regex)
| Star (r : regex).

Fixpoint nullable (r : regex) : bool :=
  match r with
  | Fail => false
  | Eps => true
  | Cls _ => false
  | Cat r1 r2 => nullable r1 && nullable r2
  | Alt r1 r2 => nullable r1 || nullable r2
  | Star _ => true
  end.

Definition cat (r1 r2 : regex) : regex :=
  match r1, r2 with
  | Fail, _ => Fail
  | _, Fail => Fail
  | Eps, _ => r2
  | _, _ => Cat r1 r2
  end.

Definition alt (r1 r2 : regex) : regex :=
  match r1, r2 with
  | Fail, _ => r2
  | _, Fail => r1
  | _, _ => Alt r1 r2
  end.

Fixpoint deriv (c : ascii) (r : regex) : regex :=
  match r with
  | Fail => Fail
  | Eps => Fail
  | Cls p => if p c then Eps else Fail
  | Cat r1 r2 =>
      alt (cat (deriv c r1) r2) (if nullable r1 then deriv c r2 else Fail)
  | Alt r1 r2 => alt (deriv c r1) (deriv c r2)
  | Star r1 => cat (deriv c r1) (Star r1)
  end.

Fixpoint matches (r : regex) (s : string) : bool :=
  match s with
  | EmptyString => nullable r
  | String c s' => matches (deriv c r) s'
  end.

Definition between (lo hi : string) (c : ascii) : bool :=
  match lo, hi with
  | String l _, String h _ =>
      ((nat_of_ascii l <=? nat_of_ascii c) && (nat_of_ascii c <=? nat_of_ascii h))%nat
  | _, _ => false
  end.

Definition chr (x : string) : regex := Cls (between x x).
Definition rng (lo hi : string) : regex := Cls (between lo hi).
Definition digit : regex := rng "0" "9".
Definition plus (r : regex) : regex := Cat r (Star r).
Definition opt (r : regex) : regex := Alt r Eps.

Fixpoint rep (n : nat) (r : regex) : regex :=
  match n with
  | O => Eps
  | S O => r
  | S n' => Cat r (rep n' r)
  end.

Fixpoint seq (rs : list regex) : regex :=
  match rs with
  | [] => Eps
  | [r] => r
  | r :: rest => Cat r (seq rest)
  end.

(** ** Rounding to a double

    [parseInt] and [Number] return the double nearest to the number that
    the text denotes (IEEE 754 binary64, ties to the even significand),
    and an infinity beyond the largest double; V8 rounds correctly texts
    of any length. *)

(** The integer nearest to [a / b] for [0 <= a] and [0 < b], ties to the
    even one. *)
Definition div_nearest_even (a b : Z) : Z :=
  let q := (a / b)%Z in
  match (2 * (a mod b) ?= b)%Z with
  | Lt => q
  | Gt => (q + 1)%Z
  | Eq => if Z.even q then q else (q + 1)%Z
  end.

(** [floor (log2 (p / q))] for [0 < p] and [0 < q]. *)
Definition floor_log2 (p q : Z) : Z :=
  let e := (Z.log2 p - Z.log2 q)%Z in
  if (if (0 <=? e)%Z then (q * 2 ^ e <=? p)%Z else (q <=? p * 2 ^ (- e))%Z)
  then e else (e - 1)%Z.

(** The double nearest to [p / q] for [0 < p] and [0 < q]: 53 significant
    bits, no bit below [2 ^ -1074]. *)
Definition round_positive (p q : Z) : number :=
  let u := Z.max (floor_log2 p q - 52) (-1074) in
  if (0 <=? u)%Z then
    let v := (div_nearest_even p (q * 2 ^ u) * 2 ^ u)%Z in
    if (2 ^ 1024 <=? v)%Z then Infinite false else Finite (inject_Z v)
  else
    Finite (Qred (div_nearest_even (p * 2 ^ (- u)) q # Z.to_pos (2 ^ (- u)))).

Definition round_double (x : Q) : number :=
  match Qnum x with
  | Z0 => Finite 0%Q
  | Zpos p => round_positive (Zpos p) (Zpos (Qden x))
  | Zneg p =>
      match round_positive (Zpos p) (Zpos (Qden x)) with
      | Finite q => Finite (Qopp q)
      | Infinite _ => Infinite true
      | NaN => NaN
      end
  end.

(** ** [parseInt] and [Number] on text the validator has already matched *)

Definition digit_val (c : ascii) : Z := Z.of_nat (nat_of_ascii c) - 48.

Fixpoint digits_val (acc : Z) (s : string) : Z :=
  match s with
  | EmptyString => acc
  | String c r => digits_val (10 * acc + digit_val c) r
  end.

(** [parseInt(s)] for [s] matching [^[0-9]+$]. *)
Definition parseInt (s : string) : number :=
  round_double (inject_Z (digits_val 0 s)).

Fixpoint split_at_dot (s : string) : string * option string :=
  match s with
  | EmptyString => (EmptyString, None)
  | String c r =>
      if Ascii.eqb c "."%char then (EmptyString, Some r)
      else let '(a, b) := split_at_dot r in (String c a, b)
  end.

(** [Number(s)] for [s] matching [^[-]?[0-9]+(\.[0-9]+)?$]. *)
Definition Number_of (s : string) : number :=
  let '(neg, body) :=
    match s with
    | String c r => if Ascii.eqb c "-"%char then (true, r) else (false, s)
    | EmptyString => (false, s)
    end in
  let '(ip, fp) := split_at_dot body in
  let mag :=
    match fp with
    | None => inject_Z (digits_val 0 ip)
    | Some f =>
        Qmake (digits_val 0 (ip ++ f)) (Pos.pow 10 (Pos.of_nat (String.length f)))
    end in
  round_double (if neg then Qopp mag else mag).

End JS.

Import JS.

(* ------------------------------------------------------------------ *)
(** * Constants, outcomes, responses *)
(* ------------------------------------------------------------------ *)

(** [APIConstants.js]. *)
Module ERROR_CODES.
Definition PERMISSION_MISSING : string := "PERMISSION_MISSING".
Definition PERMISSION_SESSION : string := "PERMISSION_SESSION".
Definition PERMISSION_NO_SESSION : string := "PERMISSION_NO_SESSION".
Definition PARAM_MISSING : string := "PARAM_MISSING".
Definition PARAM_TYPE : string := "PARAM_TYPE".
Definition PARAM_RANGE : string := "PARAM_RANGE".
Definition HANDLER_ERROR : string := "HANDLER_ERROR".
Definition METHOD_ERROR : string := "METHOD_ERROR".
Definition METHOD_UNKNOWN : string := "METHOD_UNKNOWN".
Definition MULTICALL_ERROR : string := "MULTICALL_ERROR".
End ERROR_CODES.

(** What can be thrown (or be the reason of a rejected promise). *)
Inductive exn : Type :=
| ReferenceError (ident : string)   (* an identifier that no scope binds *)
| TypeError (what : string)         (* a property read on null or undefined *)
| Thrown (v : jsval).               (* any other value *)

(** The result of running a piece of (possibly asynchronous) code. *)
Inductive outcome (A : Type) : Type :=
| Ret (a : A)        (* returns / the promise fulfils *)
| Exn (e : exn)      (* throws / the promise rejects *)
| Unsettled          (* awaits a promise that is never settled *)
| OutOfFuel.         (* the model's recursion budget is exhausted *)

Arguments Ret {A} a.
Arguments Exn {A} e.
Arguments Unsettled {A}.
Arguments OutOfFuel {A}.

(** An object property that may be missing, [null], or hold a value. *)
Inductive field (A : Type) : Type :=
| Absent
| Null
| Val (a : A).

Arguments Absent {A}.
Arguments Null {A}.
Arguments Val {A} a.

(** The session object built by [getSession]. *)
Record Session : Type := {
  session_id : Z;
  user_id : Z;
  token : option string;
  start_date : Z;
  expiration_date : Z;
  admin : bool
}.

(** [APIResponse] (typedef in [APIUtils.js]).  For [data], [JUndefined]
    stands for a missing property; for [msg], [code] and [token], [None]
    stands for a property that is missing, [null] or [undefined]. *)
Record APIResponse : Type := {
  success : bool;
  data : jsval;
  msg : option string;
  code : option string;
  r_session : field Session;
  r_token : option string
}.

(** [VerificationResult] (typedef in [APIUtils.js]); [newValue = None] is a
    missing property. *)
Record VerificationResult : Type := {
  passed : bool;
  newValue : option jsval;
  reason : option string;
  errorCode : option string
}.

Definition verdict_ok : VerificationResult :=
  {| passed := true; newValue := None; reason := None; errorCode := None |}.

Definition verdict_value (v : jsval) : VerificationResult :=
  {| passed := true; newValue := Some v; reason := None; errorCode := None |}.

Definition verdict_fail (why code : string) : VerificationResult :=
  {| passed := false; newValue := None; reason := Some why; errorCode := Some code |}.

(** ** Result wrappers of [APIUtils] *)

(** [success(data = null)]. *)
Definition success_ (d : jsval) : APIResponse :=
  {| success := true; data := d; msg := None; code := None;
     r_session := Absent; r_token := None |}.

(** [successSession(data = null, session = null)]. *)
Definition successSession (d : jsval) (s : option Session) : APIResponse :=
  {| success := true; data := d; msg := None; code := None;
     r_session := match s with Some x => Val x | None => Null end;
     r_token := None |}.

(** [error(msg, code = null, token = null)]. *)
Definition error (m : option string) (c : option string) (t : option string)
  : APIResponse :=
  {| success := false; data := JUndefined; msg := m; code := c;
     r_session := Absent; r_token := t |}.

(** [makeClientResponse]: drops [data], [msg], [code], [token] when they
    are [null] or [undefined]; the [session] property is left alone. *)
Definition makeClientResponse (r : APIResponse) : APIResponse :=
  {| success := success r;
     data := match data r with JNull => JUndefined | d => d end;
     msg := msg r; code := code r; r_session := r_session r;
     r_token := r_token r |}.

(* ------------------------------------------------------------------ *)
(** * The parameter validator ([APIUtils.checkParameter]) *)
(* ------------------------------------------------------------------ *)

(** [APIParameter] (typedef in [APIUtils.js]).  An [option] field is a
    property that may be missing (the code tests it with [in]);
    [p_default = JUndefined] is a missing default. *)
Record APIParameter : Type := {
  p_key : string;
  p_type : option string;
  p_optional : bool;
  p_default : jsval;
  p_interpretAsNull : option (list jsval);
  p_min : option Q;
  p_max : option Q;
  p_minLength : option Q;
  p_maxLength : option Q;
  p_allowedValues : option (list jsval)
}.

Module Patterns.
Definition hex_ci (c : ascii) : bool :=
  between "0" "9" c || between "a" "f" c || between "A" "F" c.

(** [/^([0-9]+)$/] *)
Definition int_re : regex := plus digit.

(** [/^[-]?[0-9]+(\.[0-9]+)?$/] *)
Definition float_re : regex :=
  seq [opt (chr "-"); plus digit; opt (Cat (chr ".") (plus digit))].

(** [(\d{4})-(0\d|1[1-2])-([0-2][1-9]|10|20|3[0-1])] *)
Definition ymd : regex :=
  seq [rep 4 digit; chr "-";
       Alt (Cat (chr "0") digit) (Cat (chr "1") (rng "1" "2"));
       chr "-";
       Alt (Cat (rng "0" "2") (rng "1" "9"))
           (Alt (Cat (chr "1") (chr "0"))
                (Alt (Cat (chr "2") (chr "0"))
                     (Cat (chr "3") (rng "0" "1"))))].

(** [([0-1][0-9]|2[0-3]):([0-5][0-9]):([0-5][0-9])] *)
Definition hms : regex :=
  seq [Alt (Cat (rng "0" "1") digit) (Cat (chr "2") (rng "0" "3"));
       chr ":"; Cat (rng "0" "5") digit;
       chr ":"; Cat (rng "0" "5") digit].

Definition datetime_re : regex := seq [ymd; chr " "; hms].
Definition date_re : regex := ymd.

(** [/^[A-Fa-f0-9]{64}$/] *)
Definition sha256_re : regex := rep 64 (Cls hex_ci).

(** [/^[0-9a-f]{8}-[0-9a-f]{4}-[1-5][0-9a-f]{3}-[89ab][0-9a-f]{3}-[0-9a-f]{12}$/i] *)
Definition uuid_re : regex :=
  seq [rep 8 (Cls hex_ci); chr "-";
       rep 4 (Cls hex_ci); chr "-";
       rng "1" "5"; rep 3 (Cls hex_ci); chr "-";
       Cls (fun c => between "8" "9" c || between "a" "b" c || between "A" "B" c);
       rep 3 (Cls hex_ci); chr "-";
       rep 12 (Cls hex_ci)].
End Patterns.

Definition is_nullish (v : jsval) : bool :=
  match v with
  | JUndefined | JNull => true
  | _ => false
  end.

Definition one_of (names : list string) (s : string) : bool :=
  existsb (String.eqb s) names.

Section Validator.
Variable rt : Runtime.

Definition num_text (q : Q) : string := Number_toString rt q.

(** The [switch(parm.type)] of [checkParameter] on the trimmed text:
    the value of [typeCheckPassed] and of [newValue] after the switch. *)
Definition typeCheck (ty : string) (text : string) : bool * jsval :=
  if one_of ["int"; "integer"] ty then
    if matches Patterns.int_re text then (true, JNumber (parseInt text))
    else (false, JStr text)
  else if one_of ["float"; "double"] ty then
    if matches Patterns.float_re text then (true, JNumber (Number_of text))
    else (false, JStr text)
  else if String.eqb ty "datetime" then
    (matches Patterns.datetime_re text, JStr text)
  else if String.eqb ty "date" then
    (matches Patterns.date_re text, JStr text)
  else if one_of ["boolean"; "bool"] ty then
    if includes [JNum 1%Q; JBool true; JStr "true"; JStr "1"] (JStr text)
    then (true, JBool true)
    else if includes [JNum 0%Q; JBool false; JStr "false"; JStr "0"] (JStr text)
    then (true, JBool false)
    else (false, JStr text)
  else if String.eqb ty "char" then
    ((String.length text =? 1)%nat, JStr text)
  else if String.eqb ty "string" then
    ((0 <? String.length text)%nat, JStr text)
  else if String.eqb ty "sha256" then
    (matches Patterns.sha256_re text, JStr text)
  else if String.eqb ty "uuid" then
    (matches Patterns.uuid_re text, JStr text)
  else if String.eqb ty "json" then
    match JSON_parse rt text with
    | Some obj => (true, obj)
    | None => (false, JStr text)
    end
  else (false, JStr text).

(** ['b' in parm && test(parm.b)] for an optional bound [b]. *)
Definition bound_violated (b : option Q) (test : Q -> bool) : bool :=
  match b with
  | Some q => test q
  | None => false
  end.

Definition bound_text (b : option Q) : string :=
  match b with
  | Some q => num_text q
  | None => "undefined"
  end.

Definition allowed (parm : APIParameter) (v : jsval) : bool :=
  match p_allowedValues parm with
  | Some vs => includes vs v
  | None => true
  end.

(** The range rules that follow a passed type check, in source order. *)
Definition rangeCheck (parm : APIParameter) (v : jsval) : VerificationResult :=
  let k := p_key parm in
  if bound_violated (p_min parm) (lt_num rt v) then
    verdict_fail ("Parameter " ++ k ++ " is too small, the minimum value is "
                  ++ bound_text (p_min parm) ++ ".") ERROR_CODES.PARAM_RANGE
  else if bound_violated (p_max parm) (gt_num rt v) then
    verdict_fail ("Parameter " ++ k ++ " is too big, the maximum value is "
                  ++ bound_text (p_max parm) ++ ".") ERROR_CODES.PARAM_RANGE
  else if bound_violated (p_maxLength parm) (gt_num rt (length_of v)) then
    verdict_fail ("Parameter " ++ k ++ " is too long, the maximum length is "
                  ++ bound_text (p_maxLength parm) ++ ".") ERROR_CODES.PARAM_RANGE
  else if bound_violated (p_minLength parm) (lt_num rt (length_of v)) then
    verdict_fail ("Parameter " ++ k ++ " is too short, the minimum length is "
                  ++ bound_text (p_minLength parm) ++ ".") ERROR_CODES.PARAM_RANGE
  else if negb (allowed parm v) then
    verdict_fail ("Parameter " ++ k ++ " has an invalid value.")
                 ERROR_CODES.PARAM_RANGE
  else verdict_value v.

(** The value that [checkParameter] holds in [newValue] when it looks it
    up in [interpretAsNull]: the result of the type switch on the trimmed
    text, or the raw value when that result is [null]. *)
Definition coerced (ty : string) (raw : jsval) : jsval :=
  let converted := snd (typeCheck ty (trim (ToString rt raw))) in
  match converted with
  | JNull => raw
  | _ => converted
  end.

(** [checkParameter(parm, parms)].  [None] is the JavaScript [undefined]
    that a function returns when control falls off its end. *)
Definition checkParameter (parm : APIParameter) (parms : list (string * jsval))
  : option VerificationResult :=
  let raw := lookup (p_key parm) parms in
  if negb (has_key (p_key parm) parms) || is_nullish raw then
    if p_optional parm then
      Some (verdict_value
              (match p_default parm with
               | JUndefined => JNull
               | d => d
               end))
    else
      Some (verdict_fail ("Required parameter " ++ p_key parm ++ " is missing.")
                         ERROR_CODES.PARAM_MISSING)
  else
    match p_type parm with
    | None => None
    | Some ty =>
        let text := trim (ToString rt raw) in
        let typeCheckPassed := fst (typeCheck ty text) in
        let newValue := coerced ty raw in
        if match p_interpretAsNull parm with
           | Some vs => includes vs newValue
           | None => false
           end
        then Some (verdict_value JNull)
        else if negb typeCheckPassed then
          Some (verdict_fail ("Parameter " ++ p_key parm
                              ++ " has the wrong type, expected " ++ ty ++ ".")
                             ERROR_CODES.PARAM_TYPE)
        else Some (rangeCheck parm newValue)
    end.

End Validator.

(* ------------------------------------------------------------------ *)
(** * The storage connection ([APIDatabase.js]) *)
(* ------------------------------------------------------------------ *)

(** Rows of the relations the code queries.  Dates are seconds. *)
Record SessionRow : Type := {
  ses_id : Z;
  ses_user_id : Z;
  ses_token : option string;       (* NULL until the login stores it *)
  ses_start : Z;
  ses_expiration : Z;
  ses_last_action : option Z;
  ses_ip : string;
  ses_user_agent : string
}.

Record UserRow : Type := {
  usr_id : Z;
  usr_login_name : string;
  usr_password_hash : string;
  usr_active : bool;
  usr_admin : jsval;               (* the column as the driver delivers it *)
  usr_last_login : option Z
}.

Record LoginTokenRow : Type := {
  tok_ip : string;
  tok_user_agent : string;
  tok_value : string;
  tok_expiration : Z
}.

Record GrantRow : Type := {
  grant_user_id : Z;
  grant_key : string
}.

Record PermissionRow : Type := {
  perm_key : string;
  perm_parent : option string
}.

Record Tables : Type := {
  api_sessions : list SessionRow;
  next_session_id : Z;             (* AUTO_INCREMENT of api_sessions *)
  api_users : list UserRow;
  api_login_tokens : list LoginTokenRow;
  api_user_permissions : list GrantRow;
  api_permissions : list PermissionRow
}.

(** The state a request runs against: the single storage connection with
    its open transaction (the tables as they were at [START TRANSACTION]),
    the clock read by [NOW()], the number of uuids drawn so far, and the
    number of statements that were sent with [db.query] without anything
    waiting for their promise (a failure of such a statement is a
    rejection that no handler receives). *)
Record State : Type := {
  connected : bool;
  tables : Tables;
  snapshot : option Tables;
  now : Z;
  draws : nat;
  abandoned : nat
}.

Definition with_tables (st : State) (t : Tables) : State :=
  {| connected := connected st; tables := t; snapshot := snapshot st;
     now := now st; draws := draws st; abandoned := abandoned st |}.

Definition with_snapshot (st : State) (s : option Tables) : State :=
  {| connected := connected st; tables := tables st; snapshot := s;
     now := now st; draws := draws st; abandoned := abandoned st |}.

Definition with_abandoned (st : State) (n : nat) : State :=
  {| connected := connected st; tables := tables st; snapshot := snapshot st;
     now := now st; draws := draws st; abandoned := n |}.

(** Asynchronous code that may write: a state transformer with an outcome. *)
Definition M (A : Type) : Type := State -> outcome A * State.

Definition ret {A : Type} (a : A) : M A := fun st => (Ret a, st).

Definition throw {A : Type} (e : exn) : M A := fun st => (Exn e, st).

Definition bind {A B : Type} (m : M A) (k : A -> M B) : M B :=
  fun st =>
    match m st with
    | (Ret a, st') => k a st'
    | (Exn e, st') => (Exn e, st')
    | (Unsettled, st') => (Unsettled, st')
    | (OutOfFuel, st') => (OutOfFuel, st')
    end.

Notation "x <- m ;; k" := (bind m (fun x => k))
  (at level 61, m at next level, right associativity).

(** [try { body } catch(e) { handler }]. *)
Definition try_catch {A : Type} (body : M A) (handler : exn -> M A) : M A :=
  fun st =>
    match body st with
    | (Exn e, st') => handler e st'
    | other => other
    end.

(** [NOW()] as the connection sees it. *)
Definition clock : M Z := fun st => (Ret (now st), st).

(** Code that only reads the state. *)
Definition obind {A B : Type} (o : outcome A) (k : A -> outcome B) : outcome B :=
  match o with
  | Ret a => k a
  | Exn e => Exn e
  | Unsettled => Unsettled
  | OutOfFuel => OutOfFuel
  end.

Definition reading {A : Type} (f : State -> outcome A) : M A :=
  fun st => (f st, st).

(** What the driver reports when the connection is down. *)
Definition connection_error : jsval :=
  JObj [("code", JStr "PROTOCOL_CONNECTION_LOST")].

(** [db.query] for a statement that writes: it rejects (with no reason)
    when the driver reports an error. *)
Definition query {A : Type} (run : Tables -> A * Tables) : M A :=
  fun st =>
    if connected st then
      let '(a, t) := run (tables st) in (Ret a, with_tables st t)
    else (Exn (Thrown JUndefined), st).

(** [db.query] for a SELECT. *)
Definition select {A : Type} (read : Tables -> A) (st : State) : outcome A :=
  if connected st then Ret (read (tables st)) else Exn (Thrown JUndefined).

(** [db.startTransaction]: START TRANSACTION (which commits a transaction
    that is still open). *)
Definition startTransaction : M unit :=
  fun st =>
    if connected st then (Ret tt, with_snapshot st (Some (tables st)))
    else (Exn (Thrown connection_error), st).

(** [db.commit]. *)
Definition commit : M unit :=
  fun st =>
    if connected st then (Ret tt, with_snapshot st None)
    else (Exn (Thrown connection_error), st).

(** [db.rollback]: the tables return to what they were when the open
    transaction started. *)
Definition rollback : M unit :=
  fun st =>
    if connected st then
      (Ret tt,
       with_snapshot
         (with_tables st (match snapshot st with
                          | Some t => t
                          | None => tables st
                          end))
         None)
    else (Exn (Thrown connection_error), st).

(** What a later request finds in the store: the tables, unless a
    transaction is still open, whose writes are then not yet durable. *)
Definition persisted (st : State) : Tables :=
  match snapshot st with
  | Some t => t
  | None => tables st
  end.

(** The state in which a method's handler starts. *)
Definition begun (transactional : bool) (st : State) : State :=
  if transactional then with_snapshot st (Some (tables st)) else st.

(** The state after a successful ROLLBACK. *)
Definition rolled_back (st : State) : State :=
  with_snapshot (with_tables st (persisted st)) None.

(* ------------------------------------------------------------------ *)
(** * Sessions ([APIUtils.getSession], [APIUtils.establishSession]) *)
(* ------------------------------------------------------------------ *)

Definition renewal_window : Z := 3600.

Definition set_sessions (t : Tables) (l : list SessionRow) : Tables :=
  {| api_sessions := l; next_session_id := next_session_id t;
     api_users := api_users t; api_login_tokens := api_login_tokens t;
     api_user_permissions := api_user_permissions t;
     api_permissions := api_permissions t |}.

Definition token_is (tok : string) (r : SessionRow) : bool :=
  match ses_token r with
  | Some t => String.eqb t tok
  | None => false
  end.

(** [session.admin === 1]. *)
Definition admin_is_one (v : jsval) : bool :=
  match v with
  | JNum q => Qeq_bool q 1%Q
  | _ => false
  end.

(** The projection that [getSession] selects: the session row LEFT JOINed
    with the user's [admin] column, first row only. *)
Definition session_projection (t : Tables) (sessionID : Z) : option Session :=
  match filter (fun r => Z.eqb (ses_id r) sessionID) (api_sessions t) with
  | [] => None
  | r :: _ =>
      let adm := match filter (fun u => Z.eqb (usr_id u) (ses_user_id r))
                              (api_users t) with
                 | u :: _ => usr_admin u
                 | [] => JNull
                 end in
      Some {| session_id := ses_id r; user_id := ses_user_id r;
              token := ses_token r; start_date := ses_start r;
              expiration_date := ses_expiration r;
              admin := admin_is_one adm |}
  end.

Definition getSession (sessionID : Z) : M (option Session) :=
  reading (select (fun t => session_projection t sessionID)).

Definition touch (nw : Z) (sid : Z) (r : SessionRow) : SessionRow :=
  if Z.eqb (ses_id r) sid then
    {| ses_id := ses_id r; ses_user_id := ses_user_id r;
       ses_token := ses_token r; ses_start := ses_start r;
       ses_expiration := nw + renewal_window;
       ses_last_action := Some nw;
       ses_ip := ses_ip r; ses_user_agent := ses_user_agent r |}
  else r.

Definition establishSession (sessionToken : string) : M (option Session) :=
  sesResult <- reading (select (fun t => filter (token_is sessionToken) (api_sessions t))) ;;
  match sesResult with
  | [] => ret None
  | first :: _ =>
      loaded <- getSession (ses_id first) ;;
      match loaded with
      | None => ret None
      | Some s =>
          nw <- clock ;;
          _ <- query (fun t =>
                 (tt, set_sessions t (map (touch nw (session_id s)) (api_sessions t)))) ;;
          ret (Some s)
      end
  end.

(** The AUTO_INCREMENT value is not the id of a stored session. *)
Definition next_id_unused (t : Tables) : Prop :=
  forall row, In row (api_sessions t) -> ses_id row <> next_session_id t.

(** No stored session carries the token [tok]. *)
Definition token_unused (tok : string) (t : Tables) : Prop :=
  forall row, In row (api_sessions t) -> ses_token row <> Some tok.

(* ------------------------------------------------------------------ *)
(** * Permissions ([APIUtils.js]) *)
(* ------------------------------------------------------------------ *)

Definition str_includes (l : list string) (x : string) : bool :=
  existsb (String.eqb x) l.

(** [for (d of ds) if (!acc.includes(d)) acc.push(d)]. *)
Definition push_new (acc : list string) (ds : list string) : list string :=
  fold_left (fun a d => if str_includes a d then a else (a ++ [d])%list) ds acc.

Definition children_of (permission : string) (t : Tables) : list string :=
  map perm_key
      (filter (fun r => match perm_parent r with
                        | Some p => String.eqb p permission
                        | None => false
                        end)
              (api_permissions t)).

Definition grants_of (userID : Z) (t : Tables) : list string :=
  map grant_key
      (filter (fun g => Z.eqb (grant_user_id g) userID) (api_user_permissions t)).

(** The loop that both [getPermissionDecendants] and [getUserPermissions]
    run over the keys a query returned: a key not yet in the accumulator is
    pushed, then expanded with [expand], and every key of the expansion
    that is not yet in the accumulator is pushed. *)
Fixpoint gather (expand : string -> outcome (list string))
         (keys : list string) (acc : list string) : outcome (list string) :=
  match keys with
  | [] => Ret acc
  | k :: rest =>
      if str_includes acc k then gather expand rest acc
      else
        obind (expand k) (fun decendants =>
          gather expand rest (push_new (acc ++ [k])%list decendants))
  end.

(** [getPermissionDecendants(permission)].  The source recurses with no
    bound; [fuel] bounds the depth of the recursion in the model. *)
Fixpoint getPermissionDecendants (fuel : nat) (st : State) (permission : string)
  : outcome (list string) :=
  match fuel with
  | O => OutOfFuel
  | S fuel' =>
      obind (select (children_of permission) st) (fun children =>
        gather (getPermissionDecendants fuel' st) children [])
  end.

(** [getUserPermissions(userID)]; the result [None] is JavaScript's [null]. *)
Definition getUserPermissions (fuel : nat) (st : State) (userID : option Z)
  : outcome (option (list string)) :=
  match userID with
  | None => Ret None
  | Some uid =>
      obind (select (grants_of uid) st) (fun permissions =>
        obind (gather (getPermissionDecendants fuel st) permissions [])
              (fun userPermissions =>
          Ret (Some userPermissions)))
  end.

(** [userHasPermissions(userID, permissions)]. *)
Definition userHasPermissions (fuel : nat) (st : State) (userID : option Z)
           (permissions : list string) : outcome bool :=
  match permissions with
  | [] => Ret true
  | _ :: _ =>
      match userID with
      | None => Ret false
      | Some _ =>
          obind (getUserPermissions fuel st userID) (fun userPermissions =>
            match userPermissions with
            | Some ups => Ret (forallb (str_includes ups) permissions)
            | None => Exn (TypeError "userPermissions.includes")
            end)
      end
  end.

(** ** The hierarchy as a relation *)

(** [c] names [p] as its parent. *)
Definition child (t : Tables) (p c : string) : Prop :=
  In c (children_of p t).

(** [d] is reachable from [p] by one or more child edges. *)
Inductive descendant (t : Tables) : string -> string -> Prop :=
| descendant_child : forall p c, child t p c -> descendant t p c
| descendant_step : forall p c d,
    child t p c -> descendant t c d -> descendant t p d.

(** No key is its own ancestor. *)
Definition acyclic (t : Tables) : Prop :=
  forall k, ~ descendant t k k.

(** Every child ranks strictly below its parent. *)
Definition ranked (rank : string -> nat) (t : Tables) : Prop :=
  forall p c, child t p c -> rank c < rank p.

(** [k] is granted to the user directly, or descends from a granted key. *)
Definition effective (t : Tables) (userID : Z) (k : string) : Prop :=
  exists g, In g (grants_of userID t) /\ (k = g \/ descendant t g k).

(** A cycle of the hierarchy is reachable from [p]: [p] or one of its
    descendants is its own ancestor. *)
Definition cycle_reachable (t : Tables) (p : string) : Prop :=
  exists k, (k = p \/ descendant t p k) /\ descendant t k k.

(* ------------------------------------------------------------------ *)
(** * Methods and the execution pipeline ([APIMethod.js], [APIUtils.js]) *)
(* ------------------------------------------------------------------ *)

(** What a handler reads of the transport's request object. *)
Record Request : Type := {
  req_ip : string;
  req_user_agent : option string     (* request.headers['user-agent'] *)
}.

(** [MethodHandlerParms] without [response] (no handler touches it) and
    without [methods], which only the multicall handler uses. *)
Record HandlerArgs : Type := {
  h_parms : list (string * jsval);
  h_session : option Session;
  h_request : Request
}.

(** A handler either is ordinary code, which returns an API response or
    some value that is not one ([None]), or is the multicall handler, the
    one handler that re-enters the pipeline with the method registry. *)
Inductive handler_impl : Type :=
| Native (f : HandlerArgs -> M (option APIResponse))
| Multicall.

Record APIMethod : Type := {
  path : string;
  handler : handler_impl;
  parameters : list APIParameter;
  requireSession : bool;
  requireNoSession : bool;
  requiredPermissions : list string;
  transaction : bool
}.

(** ** Identifier resolution

    A JavaScript identifier that no enclosing scope binds raises a
    ReferenceError when it is evaluated.  Each list gives what the named
    source file binds at its top level. *)

Definition node_scope : list string :=
  ["require"; "module"; "exports"; "__filename"; "__dirname";
   "console"; "process"; "global"; "globalThis"; "Buffer";
   "undefined"; "Object"; "Array"; "String"; "Number"; "Boolean"; "JSON";
   "Promise"; "Date"; "Math"; "Error"; "parseInt"].

(** [APIUtils.js], top level. *)
Definition APIUtils_scope : list string :=
  ["crypto"; "fs"; "https"; "qs"; "config"; "db"; "ERROR_CODES"; "APIUtils"].

(** [default_api_modules/multicall.js], top level. *)
Definition multicall_scope : list string :=
  ["APIModule"; "APIMethod"; "apiUtils"; "db"; "config"; "apiModule"].

(** Evaluating the identifier [x] where [locals] are the enclosing
    function's bindings and [file] the file's top level. *)
Definition resolve (locals file : list string) (x : string) : M unit :=
  if str_includes (locals ++ file ++ node_scope)%list x then ret tt
  else throw (ReferenceError x).

(** ** [APIUtils.allowedToExecuteMethod] *)
Definition allowedToExecuteMethod (fuel : nat) (st : State)
           (session : option Session) (method : APIMethod)
  : outcome VerificationResult :=
  match session with
  | Some s =>
      if requireNoSession method then
        Ret (verdict_fail
               "This method is only available to clients that are not logged in"
               ERROR_CODES.PERMISSION_SESSION)
      else
        obind (userHasPermissions fuel st (Some (user_id s))
                                  (requiredPermissions method))
              (fun has =>
                 if negb has then
                   Ret (verdict_fail
                          "You do not have the necessary permissions to call this method"
                          ERROR_CODES.PERMISSION_MISSING)
                 else Ret verdict_ok)
  | None =>
      if requireSession method then
        Ret (verdict_fail "This method is only available to authenticated users"
                          ERROR_CODES.PERMISSION_NO_SESSION)
      else Ret verdict_ok
  end.

Section Pipeline.
Variable rt : Runtime.

(** The parameter loop of [canBeExecuted]: the first failed verdict, or the
    parameter object with every parsed value written back. *)
Fixpoint checkParameters (specs : list APIParameter) (parms : list (string * jsval))
  : outcome (VerificationResult * list (string * jsval)) :=
  match specs with
  | [] => Ret (verdict_ok, parms)
  | parm :: rest =>
      match checkParameter rt parm parms with
      | None => Exn (TypeError "parmCheck.passed")
      | Some parmCheck =>
          if negb (passed parmCheck) then Ret (parmCheck, parms)
          else match newValue parmCheck with
               | Some v => checkParameters rest (assign (p_key parm) v parms)
               | None => checkParameters rest parms
               end
      end
  end.

(** [APIMethod.canBeExecuted(parms, session)]; the second component is the
    caller's parameter object after the call, which the method mutates. *)
Definition canBeExecuted (fuel : nat) (method : APIMethod)
           (parms : list (string * jsval)) (session : option Session)
           (st : State)
  : outcome (VerificationResult * list (string * jsval)) :=
  obind (checkParameters (parameters method) parms) (fun '(parmCheck, parms') =>
    if negb (passed parmCheck) then Ret (parmCheck, parms')
    else
      obind (allowedToExecuteMethod fuel st session method) (fun permissionCheck =>
        if negb (passed permissionCheck) then Ret (permissionCheck, parms')
        else Ret (verdict_ok, parms'))).

(** How the promise returned by [execute] settles. *)
Inductive settled : Type :=
| Resolved (r : APIResponse)
| Rejected (errorCode : string).

(** [delete methodResult.data] when it is [undefined] or [null]. *)
Definition drop_empty_data (r : APIResponse) : APIResponse :=
  {| success := success r;
     data := if is_nullish (data r) then JUndefined else data r;
     msg := msg r; code := code r; r_session := r_session r;
     r_token := r_token r |}.

(** [APIMethod.execute].  [run] invokes a handler.  The body is the
    executor of [new Promise(async (resolve, reject) => ...)]: when the
    executor itself throws (the rollback inside [catch] fails), the promise
    is never settled. *)
Definition execute (run : handler_impl -> HandlerArgs -> M (option APIResponse))
           (method : APIMethod) (args : HandlerArgs) : M settled :=
  fun st0 =>
    (* catch(e): roll back if a transaction was started, then reject *)
    let on_error (transactionStarted : bool) (st : State) : outcome settled * State :=
      if transaction method && transactionStarted then
        match rollback st with
        | (Ret _, st') => (Ret (Rejected ERROR_CODES.METHOD_ERROR), st')
        | (Exn _, st') => (Unsettled, st')
        | (Unsettled, st') => (Unsettled, st')
        | (OutOfFuel, st') => (OutOfFuel, st')
        end
      else (Ret (Rejected ERROR_CODES.METHOD_ERROR), st) in
    match (if transaction method then startTransaction st0 else (Ret tt, st0)) with
    | (Ret _, st1) =>
        let transactionStarted := transaction method in
        match run (handler method) args st1 with
        | (Ret (Some methodResult), st2) =>
            match (if transaction method && transactionStarted then
                     if success methodResult then commit st2 else rollback st2
                   else (Ret tt, st2)) with
            | (Ret _, st3) => (Ret (Resolved (drop_empty_data methodResult)), st3)
            | (Exn _, st3) => on_error transactionStarted st3
            | (Unsettled, st3) => (Unsettled, st3)
            | (OutOfFuel, st3) => (OutOfFuel, st3)
            end
        | (Ret None, st2) => on_error transactionStarted st2
        | (Exn _, st2) => on_error transactionStarted st2
        | (Unsettled, st2) => (Unsettled, st2)
        | (OutOfFuel, st2) => (OutOfFuel, st2)
        end
    | (Exn _, st1) => on_error false st1
    | (Unsettled, st1) => (Unsettled, st1)
    | (OutOfFuel, st1) => (OutOfFuel, st1)
    end.

(** The bindings in scope inside the [.catch((errorCode) => ...)] callback
    of [tryExecuteMethod]. *)
Definition tryExecuteMethod_catch_locals : list string :=
  ["errorCode"; "executionVerification"; "methodResponse";
   "method"; "parms"; "session"; "request"; "response"; "methods"].

(** The callback of [.catch((errorCode) => { ... })] in
    [tryExecuteMethod]: it logs, then builds the error response. *)
Definition on_rejected (errorCode : string) : M APIResponse :=
  (* console.log('Error executing a method', err); *)
  _ <- resolve tryExecuteMethod_catch_locals APIUtils_scope "console" ;;
  _ <- resolve tryExecuteMethod_catch_locals APIUtils_scope "err" ;;
  ret (error (Some "An Error occured while executing the requested method.")
             (Some errorCode) None).

(** The body of [APIUtils.tryExecuteMethod], given how handlers run.  The
    result carries the caller's parameter object as the call leaves it. *)
Definition tryExecuteMethod_body
           (run : handler_impl -> HandlerArgs -> M (option APIResponse))
           (fuel : nat) (method : APIMethod) (parms : list (string * jsval))
           (session : option Session) (request : Request)
  : M (APIResponse * list (string * jsval)) :=
  v <- reading (canBeExecuted fuel method parms session) ;;
  let '(executionVerification, parms') := v in
  if negb (passed executionVerification) then
    ret (error (reason executionVerification) (errorCode executionVerification) None,
         parms')
  else
    s <- execute run method
           {| h_parms := parms'; h_session := session; h_request := request |} ;;
    match s with
    | Resolved methodResult => ret (methodResult, parms')
    | Rejected errorCode =>
        methodResponse <- on_rejected errorCode ;;
        ret (methodResponse, parms')
    end.

End Pipeline.

(* ------------------------------------------------------------------ *)
(** * The multicall handler ([default_api_modules/multicall.js]) *)
(* ------------------------------------------------------------------ *)

(** JavaScript truthiness. *)
Definition truthy (v : jsval) : bool :=
  match v with
  | JUndefined | JNull => false
  | JBool b => b
  | JNum q => negb (Qeq_bool q 0%Q)
  | JNumber (Infinite _) => true
  | JNumber NaN => false
  | JStr s => negb (String.eqb s "")
  | JArr _ | JObj _ => true
  end.

(** The property read [v.k]. *)
Definition get_prop (v : jsval) (k : string) : outcome jsval :=
  match v with
  | JUndefined | JNull => Exn (TypeError k)
  | JObj props => Ret (lookup k props)
  | _ => Ret (if String.eqb k "length" then length_of v else JUndefined)
  end.

Definition props_of (v : jsval) : list (string * jsval) :=
  match v with
  | JObj props => props
  | _ => []
  end.

Definition num (z : Z) : jsval := JNum (inject_Z z).

Definition opt_str (o : option string) : jsval :=
  match o with
  | Some s => JStr s
  | None => JNull
  end.

(** A session object as a JavaScript value. *)
Definition session_to_js (s : Session) : jsval :=
  JObj [("session_id", num (session_id s)); ("user_id", num (user_id s));
        ("token", opt_str (token s)); ("start_date", num (start_date s));
        ("expiration_date", num (expiration_date s));
        ("admin", JBool (admin s))].

Definition present (k : string) (o : option string) : list (string * jsval) :=
  match o with
  | Some s => [(k, JStr s)]
  | None => []
  end.

(** An API response as the JavaScript object it is. *)
Definition response_to_js (r : APIResponse) : jsval :=
  JObj ([("success", JBool (success r))]
        ++ match data r with JUndefined => [] | d => [("data", d)] end
        ++ present "msg" (msg r)
        ++ present "code" (code r)
        ++ match r_session r with
           | Absent => []
           | Null => [("session", JNull)]
           | Val s => [("session", session_to_js s)]
           end
        ++ present "token" (r_token r))%list.

(** What one turn of the loop decides. *)
Inductive turn : Type :=
| Continue (responses : list APIResponse) (session : option Session)
| Break (responses : list APIResponse).

Section Multicall.
Variable dispatch :
  APIMethod -> list (string * jsval) -> option Session -> Request ->
  M (APIResponse * list (string * jsval)).
Variable methods : list APIMethod.
Variable request : Request.

(** [methods.find((method) => method.path === call.method)]. *)
Definition find_method (name : jsval) : option APIMethod :=
  find (fun m => match name with
                 | JStr s => String.eqb (path m) s
                 | _ => false
                 end) methods.

Definition multicall_catch_locals : list string :=
  ["e"; "method"; "call"; "responses";
   "parms"; "session"; "request"; "response"; "methods"].

(** The [catch(e)] block around one dispatched entry. *)
Definition multicall_on_error (call : jsval) (session : option Session)
           (responses : list APIResponse) : M turn :=
  (* responses.push(apiUtils.error('...', ERROR_CODES.MULTICALL_ERROR)); *)
  _ <- resolve multicall_catch_locals multicall_scope "responses" ;;
  _ <- resolve multicall_catch_locals multicall_scope "apiUtils" ;;
  _ <- resolve multicall_catch_locals multicall_scope "ERROR_CODES" ;;
  let responses' :=
    (responses ++
     [error (Some "An Error occured while executing a requested multicall-method")
            (Some ERROR_CODES.MULTICALL_ERROR) None])%list in
  if truthy (lookup "breaking" (props_of call)) then ret (Break responses')
  else ret (Continue responses' session).

(** The [try { ... } catch(e) { ... }] around one dispatched entry. *)
Definition multicall_entry (method : APIMethod) (call : jsval)
           (session : option Session) (responses : list APIResponse) : M turn :=
  try_catch
    (r <- dispatch method (props_of call) session request ;;
     let '(callResponse, call') := r in
     let responses' := (responses ++ [makeClientResponse callResponse])%list in
     let session' := match r_session callResponse with
                     | Val s => Some s
                     | Absent | Null => session
                     end in
     match lookup "breaking" call' with
     | JBool true =>
         if negb (success callResponse) then ret (Break responses')
         else ret (Continue responses' session')
     | _ => ret (Continue responses' session')
     end)
    (fun e => multicall_on_error call session responses).

(** [for (let call of parms.content.calls) { ... }]. *)
Fixpoint multicall_loop (calls : list jsval) (session : option Session)
         (responses : list APIResponse) : M (list APIResponse) :=
  match calls with
  | [] => ret responses
  | call :: rest =>
      name <- reading (fun _ => get_prop call "method") ;;
      match find_method name with
      | None => multicall_loop rest session responses
      | Some method =>
          t <- multicall_entry method call session responses ;;
          match t with
          | Continue responses' session' => multicall_loop rest session' responses'
          | Break responses' => ret responses'
          end
      end
  end.

(** The handler of [/multicall]. *)
Definition multicall_handler (args : HandlerArgs) : M (option APIResponse) :=
  calls <- reading (fun _ => get_prop (lookup "content" (h_parms args)) "calls") ;;
  match calls with
  | JArr cs =>
      responses <- multicall_loop cs (h_session args) [] ;;
      ret (Some (success_ (JObj [("responses", JArr (map response_to_js responses))])))
  | _ => ret (Some (error (Some "No calls transmitted for the multicall.") None None))
  end.

End Multicall.

(** [/multicall] as registered. *)
Definition multicall_method : APIMethod :=
  {| path := "/multicall";
     handler := Multicall;
     parameters :=
       [{| p_key := "content"; p_type := Some "json"; p_optional := false;
           p_default := JUndefined; p_interpretAsNull := None;
           p_min := None; p_max := None; p_minLength := None;
           p_maxLength := None; p_allowedValues := None |}];
     requireSession := false;
     requireNoSession := false;
     requiredPermissions := [];
     transaction := false |}.

Section Server.
Variable rt : Runtime.

(** [APIUtils.tryExecuteMethod(method, parms, session, request, response,
    methods)].  A multicall entry may itself name [/multicall]; [fuel]
    bounds that nesting (and the permission traversal). *)
Fixpoint tryExecuteMethod (fuel : nat) (methods : list APIMethod)
         (method : APIMethod) (parms : list (string * jsval))
         (session : option Session) (request : Request) {struct fuel}
  : M (APIResponse * list (string * jsval)) :=
  match fuel with
  | O => fun st => (OutOfFuel, st)
  | S fuel' =>
      tryExecuteMethod_body rt
        (fun impl args =>
           match impl with
           | Native f => f args
           | Multicall =>
               multicall_handler (tryExecuteMethod fuel' methods) methods
                                 (h_request args) args
           end)
        fuel method parms session request
  end.

(** How the pipeline invokes a handler at pipeline depth [fuel]. *)
Definition run_handler (fuel : nat) (methods : list APIMethod)
           (impl : handler_impl) (args : HandlerArgs) : M (option APIResponse) :=
  match impl with
  | Native f => f args
  | Multicall =>
      multicall_handler (tryExecuteMethod fuel methods) methods (h_request args) args
  end.

(** The end of [APIServer.methodHandlerWrapper], once the parameters are
    merged and the session is established: what is sent to the client. *)
Definition respond (fuel : nat) (methods : list APIMethod) (method : APIMethod)
           (parms : list (string * jsval)) (session : option Session)
           (request : Request) : M APIResponse :=
  try_catch
    (r <- tryExecuteMethod fuel methods method parms session request ;;
     ret (makeClientResponse (fst r)))
    (fun err =>
       ret (makeClientResponse
              (error (Some "An Error occured while handling your request.")
                     (Some ERROR_CODES.HANDLER_ERROR) None))).

End Server.

(* ------------------------------------------------------------------ *)
(** * The session methods ([default_api_modules/session.js]) *)
(* ------------------------------------------------------------------ *)

Definition set_login_tokens (t : Tables) (l : list LoginTokenRow) : Tables :=
  {| api_sessions := api_sessions t; next_session_id := next_session_id t;
     api_users := api_users t; api_login_tokens := l;
     api_user_permissions := api_user_permissions t;
     api_permissions := api_permissions t |}.

Definition set_users (t : Tables) (l : list UserRow) : Tables :=
  {| api_sessions := api_sessions t; next_session_id := next_session_id t;
     api_users := l; api_login_tokens := api_login_tokens t;
     api_user_permissions := api_user_permissions t;
     api_permissions := api_permissions t |}.

(** The client binding: [request.ip] and the user agent, cut at 200. *)
Definition client_user_agent (request : Request) : string :=
  let userAgent := match req_user_agent request with
                   | Some ua => ua
                   | None => "NO USER AGENT"
                   end in
  if (200 <? String.length userAgent)%nat then substring 0 200 userAgent
  else userAgent.

Definition same_client (ip userAgent : string) (r : LoginTokenRow) : bool :=
  String.eqb (tok_ip r) ip && String.eqb (tok_user_agent r) userAgent.

(** A text column compared with a query parameter; the pipeline hands the
    handlers below validated strings. *)
Definition column_is (col : string) (v : jsval) : bool :=
  match v with
  | JStr s => String.eqb col s
  | _ => false
  end.

Definition lower_char (c : ascii) : ascii :=
  let n := nat_of_ascii c in
  if ((65 <=? n) && (n <=? 90))%nat then ascii_of_nat (n + 32) else c.

Fixpoint toLowerCase (s : string) : string :=
  match s with
  | EmptyString => EmptyString
  | String c r => String (lower_char c) (toLowerCase r)
  end.

(** [DELETE FROM api_sessions WHERE session_id=?]; the driver's result
    packet is truthy, a failure is a rejection. *)
Definition deleteSession (sessionID : Z) : M bool :=
  _ <- query (fun t =>
         (tt, set_sessions t
                (filter (fun r => negb (Z.eqb (ses_id r) sessionID))
                        (api_sessions t)))) ;;
  ret true.

Definition plain_parm (k ty : string) : APIParameter :=
  {| p_key := k; p_type := Some ty; p_optional := false;
     p_default := JUndefined; p_interpretAsNull := None;
     p_min := None; p_max := None; p_minLength := None;
     p_maxLength := None; p_allowedValues := None |}.

(** The row that the login inserts. *)
Definition new_session (sid uid nw : Z) (ip userAgent : string) : SessionRow :=
  {| ses_id := sid; ses_user_id := uid; ses_token := None;
     ses_start := nw; ses_expiration := nw + renewal_window;
     ses_last_action := None; ses_ip := ip; ses_user_agent := userAgent |}.

(** [UPDATE api_sessions SET session_token=? WHERE session_id=?], per row. *)
Definition store_token (sid : Z) (tok : string) (r : SessionRow) : SessionRow :=
  if Z.eqb (ses_id r) sid then
    {| ses_id := ses_id r; ses_user_id := ses_user_id r;
       ses_token := Some tok; ses_start := ses_start r;
       ses_expiration := ses_expiration r;
       ses_last_action := ses_last_action r;
       ses_ip := ses_ip r; ses_user_agent := ses_user_agent r |}
  else r.

(** [UPDATE api_sessions SET expiration_date=DATE_ADD(NOW(), INTERVAL 1
    HOUR) WHERE session_id=?], per row. *)
Definition extend_expiration (nw sid : Z) (r : SessionRow) : SessionRow :=
  if Z.eqb (ses_id r) sid then
    {| ses_id := ses_id r; ses_user_id := ses_user_id r;
       ses_token := ses_token r; ses_start := ses_start r;
       ses_expiration := nw + renewal_window;
       ses_last_action := ses_last_action r;
       ses_ip := ses_ip r; ses_user_agent := ses_user_agent r |}
  else r.

(** [UPDATE api_users SET last_login=NOW() WHERE user_id=?], per row. *)
Definition record_login (nw uid : Z) (u : UserRow) : UserRow :=
  if Z.eqb (usr_id u) uid then
    {| usr_id := usr_id u; usr_login_name := usr_login_name u;
       usr_password_hash := usr_password_hash u; usr_active := usr_active u;
       usr_admin := usr_admin u; usr_last_login := Some nw |}
  else u.

(** [INSERT INTO api_sessions (...)]: the new row takes the next id. *)
Definition insert_session (uid nw : Z) (ip userAgent : string) (t : Tables)
  : Z * Tables :=
  (next_session_id t,
   {| api_sessions :=
        (api_sessions t ++ [new_session (next_session_id t) uid nw ip userAgent])%list;
      next_session_id := next_session_id t + 1;
      api_users := api_users t;
      api_login_tokens := api_login_tokens t;
      api_user_permissions := api_user_permissions t;
      api_permissions := api_permissions t |}).

Section SessionModule.
Variable rt : Runtime.

(** [getUUID()]. *)
Definition getUUID : M string :=
  fun st =>
    (Ret (uuid_v4 rt (draws st)),
     {| connected := connected st; tables := tables st;
        snapshot := snapshot st; now := now st; draws := S (draws st);
        abandoned := abandoned st |}).

(** [createToken(request)]. *)
Definition createToken (request : Request) : M string :=
  let ip := req_ip request in
  let userAgent := client_user_agent request in
  token <- getUUID ;;
  _ <- query (fun t =>
         (tt, set_login_tokens t
                (filter (fun r => negb (same_client ip userAgent r))
                        (api_login_tokens t)))) ;;
  nw <- clock ;;
  _ <- query (fun t =>
         (tt, set_login_tokens t
                (api_login_tokens t ++
                 [{| tok_ip := ip; tok_user_agent := userAgent;
                     tok_value := token;
                     tok_expiration := nw + renewal_window |}])%list)) ;;
  ret token.

(** Handler of [/session/request_login_token]. *)
Definition request_login_token_handler (args : HandlerArgs) : M (option APIResponse) :=
  token <- createToken (h_request args) ;;
  ret (Some (success_ (JObj [("token", JStr token)]))).

Definition fail_with (m : string) : M (option APIResponse) :=
  ret (Some (error (Some m) None None)).

(** Handler of [/session/login]. *)
Definition login_handler (args : HandlerArgs) : M (option APIResponse) :=
  let parms := h_parms args in
  let request := h_request args in
  userResult <- reading (select (fun t =>
      firstn 1 (filter (fun u => column_is (usr_login_name u) (lookup "username" parms))
                       (api_users t)))) ;;
  match userResult with
  | [user] =>
      if negb (usr_active user) then fail_with "User account not activated"
      else
        let ip := req_ip request in
        let userAgent := client_user_agent request in
        loginTokenResult <- reading (select (fun t =>
            firstn 1 (filter (same_client ip userAgent) (api_login_tokens t)))) ;;
        match loginTokenResult with
        | [row] =>
            let loginToken := tok_value row in
            presented <- match lookup "password_hash" parms with
                         | JStr h => ret (toLowerCase h)
                         | _ => throw (TypeError "parms.password_hash.toLowerCase")
                         end ;;
            if negb (String.eqb
                       (toLowerCase (sha256_hex rt (usr_password_hash user ++ loginToken)))
                       presented)
            then fail_with "Wrong password"
            else
              _ <- query (fun t =>
                     (tt, set_login_tokens t
                            (filter (fun r => negb (same_client ip userAgent r))
                                    (api_login_tokens t)))) ;;
              nw <- clock ;;
              sessionID <- query (insert_session (usr_id user) nw ip userAgent) ;;
              sessionToken <- getUUID ;;
              _ <- query (fun t =>
                     (tt, set_sessions t
                            (map (store_token sessionID sessionToken)
                                 (api_sessions t)))) ;;
              loadedSession <- getSession sessionID ;;
              match loadedSession with
              | None => fail_with "Error while loading the session"
              | Some s =>
                  _ <- query (fun t =>
                         (tt, set_users t
                                (map (record_login nw (usr_id user)) (api_users t)))) ;;
                  ret (Some (successSession (JObj [("session", session_to_js s)])
                                            (Some s)))
              end
        | _ => fail_with "No valid login-token found for your client"
        end
  | _ => fail_with "User not found"
  end.

(** Handler of [/session/logout]. *)
Definition logout_handler (args : HandlerArgs) : M (option APIResponse) :=
  match h_session args with
  | None => throw (TypeError "session.session_id")
  | Some session =>
      deleted <- deleteSession (session_id session) ;;
      if negb deleted then fail_with "MySQL-Error while deleting the session"
      else
        (* pass empty session back, so subsequent calls (in a multicall)
           are logged out *)
        ret (Some (successSession JNull None))
  end.

(** Handler of [/session/logout_others]. *)
Definition logout_others_handler (args : HandlerArgs) : M (option APIResponse) :=
  match h_session args with
  | None => throw (TypeError "session.user_id")
  | Some session =>
      otherSessions <- reading (select (fun t =>
          filter (fun r => Z.eqb (ses_user_id r) (user_id session)
                           && negb (Z.eqb (ses_id r) (session_id session)))
                 (api_sessions t))) ;;
      (fix each (others : list SessionRow) : M (option APIResponse) :=
         match others with
         | [] => ret (Some (success_ JNull))
         | otherSession :: rest =>
             deleted <- deleteSession (ses_id otherSession) ;;
             if negb deleted then fail_with "Error deleting one of the sessions"
             else each rest
         end) otherSessions
  end.

(** [db.query(...)] in a position where its promise is not awaited: the
    statement is sent and nothing waits for its result. *)
Definition abandoned_query : M unit :=
  fun st => (Ret tt, with_abandoned st (S (abandoned st))).

(** Handler of [/session/keep_alive] ([session.js]): after the UPDATE it
    evaluates [db.query(...)[0].expiration_date]: the SELECT is sent and
    its promise dropped, and the property read on the [undefined] that
    indexing a promise yields throws. *)
Definition keep_alive_handler (args : HandlerArgs) : M (option APIResponse) :=
  match h_session args with
  | None => throw (TypeError "session.session_id")
  | Some session =>
      nw <- clock ;;
      _ <- query (fun t =>
             (tt, set_sessions t
                    (map (extend_expiration nw (session_id session))
                         (api_sessions t)))) ;;
      _ <- abandoned_query ;;
      throw (TypeError "expiration_date")
  end.

Definition session_method (p : string) (specs : list APIParameter)
           (needs_session : bool) (f : HandlerArgs -> M (option APIResponse))
  : APIMethod :=
  {| path := p; handler := Native f; parameters := specs;
     requireSession := needs_session; requireNoSession := negb needs_session;
     requiredPermissions := []; transaction := true |}.

Definition request_login_token_method : APIMethod :=
  session_method "/session/request_login_token" [] false request_login_token_handler.

Definition login_method : APIMethod :=
  session_method "/session/login"
                 [plain_parm "username" "string"; plain_parm "password_hash" "sha256"]
                 false login_handler.

Definition logout_method : APIMethod :=
  session_method "/session/logout" [] true logout_handler.

Definition logout_others_method : APIMethod :=
  session_method "/session/logout_others" [] true logout_others_handler.

Definition keep_alive_method : APIMethod :=
  session_method "/session/keep_alive" [] true keep_alive_handler.

(** Handler of [/session/check_session], the same in both session files.
    [APIUtils.js] defines no [getAllowedEndpoints]: once a session is
    found, the call of it throws. *)
Definition check_session_handler (args : HandlerArgs) : M (option APIResponse) :=
  sessionResult <- reading (select (fun t =>
      filter (fun r => match ses_token r with
                       | Some tok => column_is tok (lookup "token" (h_parms args))
                       | None => false
                       end)
             (api_sessions t))) ;;
  match sessionResult with
  | [] =>
      newToken <- createToken (h_request args) ;;
      ret (Some (success_ (JObj [("session_valid", JBool false);
                                 ("token", JStr newToken)])))
  | loadedSession :: _ =>
      _ <- getSession (ses_id loadedSession) ;;
      throw (TypeError "apiUtils.getAllowedEndpoints is not a function")
  end.

Definition check_session_method : APIMethod :=
  session_method "/session/check_session" [plain_parm "token" "uuid"] false
                 check_session_handler.

(** ** The handlers of [session.js] that differ from [unnamed/part_000]

    [session.js] calls [apiUtils.createSession] and
    [apiUtils.deleteSession], which [APIUtils.js] does not define: as the
    sources stand, those calls throw. *)

(** Handler of [/session/login] in [session.js]. *)
Definition session_js_login_handler (args : HandlerArgs) : M (option APIResponse) :=
  let parms := h_parms args in
  let request := h_request args in
  userResult <- reading (select (fun t =>
      firstn 1 (filter (fun u => column_is (usr_login_name u) (lookup "username" parms))
                       (api_users t)))) ;;
  match userResult with
  | [user] =>
      if negb (usr_active user) then fail_with "User account not activated"
      else
        let ip := req_ip request in
        let userAgent := client_user_agent request in
        loginTokenResult <- reading (select (fun t =>
            firstn 1 (filter (same_client ip userAgent) (api_login_tokens t)))) ;;
        match loginTokenResult with
        | [row] =>
            let loginToken := tok_value row in
            presented <- match lookup "password_hash" parms with
                         | JStr h => ret (toLowerCase h)
                         | _ => throw (TypeError "parms.password_hash.toLowerCase")
                         end ;;
            if negb (String.eqb
                       (toLowerCase (sha256_hex rt (usr_password_hash user ++ loginToken)))
                       presented)
            then fail_with "Wrong password"
            else
              _ <- query (fun t =>
                     (tt, set_login_tokens t
                            (filter (fun r => negb (same_client ip userAgent r))
                                    (api_login_tokens t)))) ;;
              throw (TypeError "apiUtils.createSession is not a function")
        | _ => fail_with "No valid login-token found for your client"
        end
  | _ => fail_with "User not found"
  end.

(** Handler of [/session/logout] in [session.js]. *)
Definition session_js_logout_handler (args : HandlerArgs) : M (option APIResponse) :=
  match h_session args with
  | None => throw (TypeError "session.session_id")
  | Some _ => throw (TypeError "apiUtils.deleteSession is not a function")
  end.

(** Handler of [/session/logout_others] in [session.js]. *)
Definition session_js_logout_others_handler (args : HandlerArgs)
  : M (option APIResponse) :=
  match h_session args with
  | None => throw (TypeError "session.user_id")
  | Some session =>
      otherSessions <- reading (select (fun t =>
          filter (fun r => Z.eqb (ses_user_id r) (user_id session)
                           && negb (Z.eqb (ses_id r) (session_id session)))
                 (api_sessions t))) ;;
      match otherSessions with
      | [] => ret (Some (success_ JNull))
      | _ :: _ => throw (TypeError "apiUtils.deleteSession is not a function")
      end
  end.

Definition session_js_login_method : APIMethod :=
  session_method "/session/login"
                 [plain_parm "username" "string"; plain_parm "password_hash" "sha256"]
                 false session_js_login_handler.

Definition session_js_logout_method : APIMethod :=
  session_method "/session/logout" [] true session_js_logout_handler.

Definition session_js_logout_others_method : APIMethod :=
  session_method "/session/logout_others" [] true session_js_logout_others_handler.

(** The registry of a server that adds no module of its own (the
    constructor of [APIServer] adds the multicall module, then the session
    module), with the session module as [unnamed/part_000] has it. *)
Definition default_methods : list APIMethod :=
  [multicall_method; request_login_token_method; check_session_method;
   login_method; logout_method; logout_others_method].

(** The same registry with the session module as
    [default_api_modules/session.js] has it. *)
Definition session_js_methods : list APIMethod :=
  [multicall_method; request_login_token_method; check_session_method;
   session_js_login_method; session_js_logout_method;
   session_js_logout_others_method; keep_alive_method].

End SessionModule.

(* ------------------------------------------------------------------ *)
(** * Further functions of the sources, and vocabulary for their properties *)
(* ------------------------------------------------------------------ *)

(** [APIDatabase.query], the cast of a TINYINT field (field type 1): a
    value that is not [null] becomes the boolean [value === 1]. *)
Definition cast_tinyint (v : jsval) : jsval :=
  match v with
  | JNull => JNull
  | _ => JBool (admin_is_one v)
  end.

(** [APIUtils.sha256(...values)]: the digest of the joined values. *)
Definition sha256 (rt : Runtime) (values : list string) : string :=
  sha256_hex rt (String.concat "" values).

(** [APIUtils.userHasPermissionsForMethod(userID, method)]. *)
Definition userHasPermissionsForMethod (fuel : nat) (st : State)
           (userID : option Z) (method : APIMethod) : outcome bool :=
  userHasPermissions fuel st userID (requiredPermissions method).

(** [APIModule]: a list of methods, grown by [addMethod]. *)
Record APIModule : Type := {
  module_methods : list APIMethod
}.

(** [APIModule.addMethod(method)]: [this.methods.push(method)]. *)
Definition module_addMethod (m : APIModule) (method : APIMethod) : APIModule :=
  {| module_methods := (module_methods m ++ [method])%list |}.

(** [APIModule.addMethods(methods)]: [addMethod] for each, in order. *)
Definition module_addMethods (m : APIModule) (methods : list APIMethod) : APIModule :=
  fold_left module_addMethod methods m.

(** The registry part of [APIServer]: [this.methods] and [this.modules]. *)
Record Registry : Type := {
  reg_methods : list APIMethod;
  reg_modules : list APIModule
}.

(** [APIServer.addMethod(method)]. *)
Definition addMethod (r : Registry) (method : APIMethod) : Registry :=
  {| reg_methods := (reg_methods r ++ [method])%list;
     reg_modules := reg_modules r |}.

(** [APIServer.addMethods(methods)]. *)
Definition addMethods (r : Registry) (methods : list APIMethod) : Registry :=
  fold_left addMethod methods r.

(** [APIServer.addModule(module)]: the module is recorded, then its
    methods are added. *)
Definition addModule (r : Registry) (m : APIModule) : Registry :=
  addMethods {| reg_methods := reg_methods r;
                reg_modules := (reg_modules r ++ [m])%list |}
             (module_methods m).

(** [APIServer.addModules(modules)]. *)
Definition addModules (r : Registry) (ms : list APIModule) : Registry :=
  fold_left addModule ms r.

(** Every character of [s] satisfies [p]. *)
Fixpoint string_forall (p : ascii -> bool) (s : string) : bool :=
  match s with
  | EmptyString => true
  | String c r => p c && string_forall p r
  end.

Definition is_digit (c : ascii) : bool := between "0" "9" c.

(** [fixed_width r n]: the pattern [r] is built from character classes,
    sequences and alternatives only, and every text it can match has [n]
    characters. *)
Inductive fixed_width : regex -> nat -> Prop :=
| fw_eps : fixed_width Eps 0
| fw_cls : forall p, fixed_width (Cls p) 1
| fw_cat : forall r1 r2 a b,
    fixed_width r1 a -> fixed_width r2 b -> fixed_width (Cat r1 r2) (a + b)
| fw_alt : forall r1 r2 n,
    fixed_width r1 n -> fixed_width r2 n -> fixed_width (Alt r1 r2) n.

(** The number of characters of every text a pattern can match, when the
    pattern fixes it. *)
Fixpoint width (r : regex) : option nat :=
  match r with
  | Fail => None
  | Eps => Some 0
  | Cls _ => Some 1
  | Cat r1 r2 =>
      match width r1, width r2 with
      | Some a, Some b => Some (a + b)
      | _, _ => None
      end
  | Alt r1 r2 =>
      match width r1, width r2 with
      | Some a, Some b => if Nat.eqb a b then Some a else None
      | _, _ => None
      end
  | Star _ => None
  end.

(** The entry of a batch names a registered route. *)
Definition names_registered (methods : list APIMethod) (call : jsval) : bool :=
  match get_prop call "method" with
  | Ret name =>
      match find_method methods name with
      | Some _ => true
      | None => false
      end
  | _ => false
  end.

(** The text of a date: four characters, a dash, two, a dash, two. *)
Definition date_text (y1 y2 y3 y4 m1 m2 d1 d2 : ascii) : string :=
  String y1 (String y2 (String y3 (String y4 (String "-"
    (String m1 (String m2 (String "-" (String d1 (String d2 EmptyString))))))))).

(* ------------------------------------------------------------------ *)
(** * Sample data *)
(* ------------------------------------------------------------------ *)

Module Sample.

Definition show_Z (z : Z) : string :=
  DecimalString.NilZero.string_of_int (Z.to_int z).

Definition dq : string := String (ascii_of_nat 34) EmptyString.

(** A printer of JSON documents (integers only, no escapes). *)
Fixpoint stringify (v : jsval) : string :=
  match v with
  | JUndefined | JNull => "null"
  | JBool true => "true"
  | JBool false => "false"
  | JNum q => show_Z (Qnum q)
  | JNumber _ => "null"
  | JStr s => dq ++ s ++ dq
  | JArr xs =>
      "[" ++ (fix items (l : list jsval) : string :=
                match l with
                | [] => ""
                | x :: rest =>
                    match rest with
                    | [] => stringify x
                    | _ :: _ => stringify x ++ "," ++ items rest
                    end
                end) xs ++ "]"
  | JObj props =>
      "{" ++ (fix members (l : list (string * jsval)) : string :=
                match l with
                | [] => ""
                | (k, x) :: rest =>
                    match rest with
                    | [] => dq ++ k ++ dq ++ ":" ++ stringify x
                    | _ :: _ => dq ++ k ++ dq ++ ":" ++ stringify x ++ "," ++ members rest
                    end
                end) props ++ "}"
  end.

Definition entry (m : string) : jsval := JObj [("method", JStr m)].

(** The batches used below. *)
Definition batch (calls : list jsval) : jsval := JObj [("calls", JArr calls)].

Definition documents : list jsval :=
  [batch [entry "/session/keep_alive"; entry "/session/logout_others"];
   batch [entry "/session/logout"; entry "/session/logout"];
   JNull].

Fixpoint zeros (n : nat) : string :=
  match n with
  | O => ""
  | S n' => "0" ++ zeros n'
  end.

(** [s] padded on the left with zeros to [w] characters. *)
Definition pad_left (w : nat) (s : string) : string :=
  zeros (w - String.length s) ++ s.

(** A 64-digit stand-in for a digest: the length of the text, padded. *)
Definition digest (s : string) : string :=
  pad_left 64 (show_Z (Z.of_nat (String.length s))).

(** A runtime for examples: it parses exactly the documents above. *)
Definition rt0 : Runtime :=
  {| JSON_parse := fun text =>
       find (fun d => String.eqb (stringify d) text) documents;
     Number_toString := fun q => show_Z (Qnum q);
     StringToNumber := fun s =>
       if matches Patterns.float_re s then Number_of s else NaN;
     sha256_hex := digest;
     uuid_v4 := fun n =>
       "00000000-0000-4000-8000-" ++ pad_left 12 (show_Z (Z.of_nat n)) |}.

Definition alice : UserRow :=
  {| usr_id := 7; usr_login_name := "alice"; usr_password_hash := "5f4dcc3b";
     usr_active := true; usr_admin := JBool true; usr_last_login := None |}.

Definition alice_row : SessionRow :=
  {| ses_id := 1; ses_user_id := 7;
     ses_token := Some "11111111-1111-4111-8111-111111111111";
     ses_start := 1000; ses_expiration := 4600; ses_last_action := None;
     ses_ip := "10.0.0.1"; ses_user_agent := "curl" |}.

Definition alice_session : Session :=
  {| session_id := 1; user_id := 7;
     token := Some "11111111-1111-4111-8111-111111111111";
     start_date := 1000; expiration_date := 4600; admin := false |}.

Definition hierarchy : list PermissionRow :=
  [{| perm_key := "reports"; perm_parent := None |};
   {| perm_key := "reports.export"; perm_parent := Some "reports" |};
   {| perm_key := "reports.export.pdf"; perm_parent := Some "reports.export" |}].

(** A hierarchy in which two keys name each other as parent. *)
Definition cyclic_hierarchy : list PermissionRow :=
  [{| perm_key := "reports"; perm_parent := Some "reports.export" |};
   {| perm_key := "reports.export"; perm_parent := Some "reports" |}].

Definition tables0 : Tables :=
  {| api_sessions := [alice_row]; next_session_id := 2;
     api_users := [alice];
     api_login_tokens :=
       [{| tok_ip := "10.0.0.1"; tok_user_agent := "curl";
           tok_value := "22222222-2222-4222-8222-222222222222";
           tok_expiration := 4600 |}];
     api_user_permissions := [{| grant_user_id := 7; grant_key := "reports" |}];
     api_permissions := hierarchy |}.

Definition state_of (t : Tables) : State :=
  {| connected := true; tables := t; snapshot := None; now := 2000; draws := 0;
     abandoned := 0 |}.

Definition st0 : State := state_of tables0.

Definition cyclic_st : State :=
  state_of {| api_sessions := [alice_row]; next_session_id := 2;
              api_users := [alice]; api_login_tokens := [];
              api_user_permissions :=
                [{| grant_user_id := 7; grant_key := "reports" |}];
              api_permissions := cyclic_hierarchy |}.

Definition curl : Request :=
  {| req_ip := "10.0.0.1"; req_user_agent := Some "curl" |}.

Definition login_parms : list (string * jsval) :=
  [("username", JStr "alice");
   ("password_hash",
    JStr (digest ("5f4dcc3b" ++ "22222222-2222-4222-8222-222222222222")))].

(** The session that a login of alice on [st0] creates. *)
Definition alice_login : Session :=
  {| session_id := 2; user_id := 7;
     token := Some "00000000-0000-4000-8000-000000000000";
     start_date := 2000; expiration_date := 5600; admin := false |}.

Definition keep_alive_args : HandlerArgs :=
  {| h_parms := []; h_session := Some alice_session; h_request := curl |}.

(** A public method guarded by a permission key. *)
Definition reports_list : APIMethod :=
  {| path := "/reports/list";
     handler := Native (fun _ => ret (Some (success_ JNull)));
     parameters := [];
     requireSession := false;
     requireNoSession := false;
     requiredPermissions := ["reports"];
     transaction := false |}.

Definition untyped_note : APIParameter :=
  {| p_key := "note"; p_type := None; p_optional := false;
     p_default := JUndefined; p_interpretAsNull := None;
     p_min := None; p_max := None; p_minLength := None;
     p_maxLength := None; p_allowedValues := None |}.

Definition notes_add : APIMethod :=
  {| path := "/notes/add";
     handler := Native (fun _ => ret (Some (success_ JNull)));
     parameters := [untyped_note];
     requireSession := false;
     requireNoSession := false;
     requiredPermissions := [];
     transaction := true |}.

Definition blank_is_null : APIParameter :=
  {| p_key := "parent"; p_type := Some "int"; p_optional := false;
     p_default := JUndefined; p_interpretAsNull := Some [JStr ""];
     p_min := None; p_max := None; p_minLength := None;
     p_maxLength := None; p_allowedValues := None |}.

Definition zero_is_null : APIParameter :=
  {| p_key := "parent"; p_type := Some "int"; p_optional := false;
     p_default := JUndefined; p_interpretAsNull := Some [JStr "0"];
     p_min := None; p_max := None; p_minLength := None;
     p_maxLength := None; p_allowedValues := None |}.

Definition space_is_null : APIParameter :=
  {| p_key := "note"; p_type := Some "string"; p_optional := false;
     p_default := JUndefined; p_interpretAsNull := Some [JStr " "];
     p_min := None; p_max := None; p_minLength := None;
     p_maxLength := None; p_allowedValues := None |}.

(** A store in which user 7 is granted [keys], in that order, over the
    hierarchy rows [rows]. *)
Definition granted (keys : list string) (rows : list PermissionRow) : State :=
  state_of {| api_sessions := [alice_row]; next_session_id := 2;
              api_users := [alice]; api_login_tokens := [];
              api_user_permissions :=
                map (fun k => {| grant_user_id := 7; grant_key := k |}) keys;
              api_permissions := rows |}.

(** The store with the connection lost. *)
Definition offline : State :=
  {| connected := false; tables := tables0; snapshot := None;
     now := 2000; draws := 0; abandoned := 0 |}.

(** The store long after every stored session has expired. *)
Definition late : State :=
  {| connected := true; tables := tables0; snapshot := None;
     now := 100000; draws := 0; abandoned := 0 |}.

(** A store in which alice holds three sessions and another user one. *)
Definition crowded : State :=
  state_of {| api_sessions :=
                [alice_row;
                 {| ses_id := 2; ses_user_id := 7;
                    ses_token := Some "33333333-3333-4333-8333-333333333333";
                    ses_start := 1200; ses_expiration := 4800;
                    ses_last_action := None;
                    ses_ip := "10.0.0.2"; ses_user_agent := "firefox" |};
                 {| ses_id := 3; ses_user_id := 8;
                    ses_token := Some "44444444-4444-4444-8444-444444444444";
                    ses_start := 1300; ses_expiration := 4900;
                    ses_last_action := None;
                    ses_ip := "10.0.0.3"; ses_user_agent := "curl" |};
                 {| ses_id := 4; ses_user_id := 7;
                    ses_token := Some "55555555-5555-4555-8555-555555555555";
                    ses_start := 1400; ses_expiration := 5000;
                    ses_last_action := None;
                    ses_ip := "10.0.0.4"; ses_user_agent := "safari" |}];
              next_session_id := 5;
              api_users := [alice]; api_login_tokens := [];
              api_user_permissions := [];
              api_permissions := [] |}.

(** An integer parameter with bounds, and a request that supplies it. *)
Definition age : APIParameter :=
  {| p_key := "age"; p_type := Some "int"; p_optional := false;
     p_default := JUndefined; p_interpretAsNull := None;
     p_min := Some (inject_Z 0); p_max := Some (inject_Z 120);
     p_minLength := None; p_maxLength := None; p_allowedValues := None |}.

Definition age_parms : list (string * jsval) := [("age", JStr " 42 ")].

(** Documents whose text is [null]: a spec that reads the padded text as
    null, and one that reads the value [null] as null. *)
Definition padded_null_is_null : APIParameter :=
  {| p_key := "doc"; p_type := Some "json"; p_optional := false;
     p_default := JUndefined; p_interpretAsNull := Some [JStr " null "];
     p_min := None; p_max := None; p_minLength := None;
     p_maxLength := None; p_allowedValues := None |}.

Definition null_is_null : APIParameter :=
  {| p_key := "doc"; p_type := Some "json"; p_optional := false;
     p_default := JUndefined; p_interpretAsNull := Some [JNull];
     p_min := None; p_max := None; p_minLength := None;
     p_maxLength := None; p_allowedValues := None |}.

End Sample.

Import Sample.

(* ------------------------------------------------------------------ *)
(** * Authorization of anonymous calls *)
(* ------------------------------------------------------------------ *)

(** C9.  For a method that requires neither a session nor its absence and
    that lists required permissions, a call with no session passes
    [allowedToExecuteMethod] whatever the storage holds, and
    [canBeExecuted] passes as soon as the parameters do: the permission
    keys are never compared with anything for an anonymous caller. *)
Theorem anonymous_call_skips_required_permissions :
  forall (rt : Runtime) (fuel : nat) (st : State) (method : APIMethod),
    requireSession method = false ->
    requireNoSession method = false ->
    requiredPermissions method <> [] ->
    allowedToExecuteMethod fuel st None method = Ret verdict_ok /\
    forall parms parmCheck parms',
      checkParameters rt (parameters method) parms = Ret (parmCheck, parms') ->
      passed parmCheck = true ->
      canBeExecuted rt fuel method parms None st = Ret (verdict_ok, parms').
Proof.
  intros rt fuel st method Hs _ _.
  assert (Hallowed : allowedToExecuteMethod fuel st None method = Ret verdict_ok)
    by (unfold allowedToExecuteMethod; now rewrite Hs).
  split; [exact Hallowed|].
  intros parms parmCheck parms' Hparms Hpassed.
  unfold canBeExecuted. rewrite Hparms. cbn [obind].
  rewrite Hpassed. cbn [negb]. rewrite Hallowed. reflexivity.
Qed.

Lemma anonymous_call_skips_required_permissions_witness :
  allowedToExecuteMethod 0 st0 None reports_list = Ret verdict_ok /\
  canBeExecuted rt0 0 reports_list [] None st0 = Ret (verdict_ok, []).
Proof.
  destruct (@anonymous_call_skips_required_permissions rt0 0%nat st0 reports_list)
    as [Ha Hc]; [reflexivity | reflexivity | discriminate |].
  split; [exact Ha|].
  apply (Hc [] verdict_ok []); reflexivity.
Defined.

(* ------------------------------------------------------------------ *)
(** * The validator *)
(* ------------------------------------------------------------------ *)

(** C10.  For a parameter spec with no type tag and an input object that
    holds a value (neither [null] nor [undefined]) under the spec's key,
    [checkParameter] returns [undefined], and [canBeExecuted], which reads
    [parmCheck.passed] next, throws a TypeError. *)
Theorem untyped_parameter_yields_no_verdict :
  forall (rt : Runtime) (parm : APIParameter) (parms : list (string * jsval)),
    p_type parm = None ->
    has_key (p_key parm) parms = true ->
    is_nullish (lookup (p_key parm) parms) = false ->
    checkParameter rt parm parms = None /\
    forall fuel method session st rest,
      parameters method = parm :: rest ->
      canBeExecuted rt fuel method parms session st
      = Exn (TypeError "parmCheck.passed").
Proof.
  intros rt parm parms Hty Hkey Hval.
  assert (Hnone : checkParameter rt parm parms = None).
  { unfold checkParameter. rewrite Hkey, Hval, Hty. reflexivity. }
  split; [exact Hnone|].
  intros fuel method session st rest Hspecs.
  unfold canBeExecuted. rewrite Hspecs. cbn [checkParameters].
  rewrite Hnone. reflexivity.
Qed.

Lemma untyped_parameter_yields_no_verdict_witness :
  checkParameter rt0 untyped_note [("note", JStr "hello")] = None /\
  canBeExecuted rt0 1 notes_add [("note", JStr "hello")] None st0
  = Exn (TypeError "parmCheck.passed").
Proof.
  destruct (@untyped_parameter_yields_no_verdict
              rt0 untyped_note [("note", JStr "hello")])
    as [Hn Hc]; [reflexivity | reflexivity | reflexivity |].
  split; [exact Hn|].
  apply (Hc 1%nat notes_add None st0 []); reflexivity.
Defined.

(** A failed type switch leaves the trimmed text in [newValue]. *)
Lemma typeCheck_failed_keeps_text :
  forall (rt : Runtime) (ty text : string),
    fst (typeCheck rt ty text) = false ->
    snd (typeCheck rt ty text) = JStr text.
Proof.
  intros rt ty text. unfold typeCheck.
  repeat match goal with
         | |- context [if ?c then _ else _] => destruct c; cbn
         | |- context [match JSON_parse ?r ?t with _ => _ end] =>
             destruct (JSON_parse r t); cbn
         end; intros H; try reflexivity; try discriminate.
Qed.

Lemma typeCheck_null_is_a_parsed_document :
  forall (rt : Runtime) (ty text : string),
    snd (typeCheck rt ty text) = JNull ->
    ty = "json" /\ JSON_parse rt text = Some JNull.
Proof.
  intros rt ty text. unfold typeCheck.
  destruct (one_of ["int"; "integer"] ty);
    [destruct (matches Patterns.int_re text); discriminate|].
  destruct (one_of ["float"; "double"] ty);
    [destruct (matches Patterns.float_re text); discriminate|].
  destruct (String.eqb ty "datetime"); [discriminate|].
  destruct (String.eqb ty "date"); [discriminate|].
  destruct (one_of ["boolean"; "bool"] ty).
  { repeat match goal with
           | |- context [if ?c then _ else _] => destruct c
           end; discriminate. }
  destruct (String.eqb ty "char"); [discriminate|].
  destruct (String.eqb ty "string"); [discriminate|].
  destruct (String.eqb ty "sha256"); [discriminate|].
  destruct (String.eqb ty "uuid"); [discriminate|].
  destruct (String.eqb_spec ty "json") as [-> | _]; [|discriminate].
  destruct (JSON_parse rt text) as [obj|]; [|discriminate].
  cbn [snd]. intros ->. split; reflexivity.
Qed.

(** C7, as the code has it.  The set [interpretAsNull] is searched for the
    value that the type coercion left, not for the raw input.  That value
    is the trimmed text of the input when the type check failed; the value
    of the type switch when the check passed and that value is not [null];
    and the raw input itself when the switch produced [null], which only
    the type [json] does, for a text that parses to [null].  When that
    value is in the set the field is accepted as [null], whether the type
    check passed or not; when it is not, the rule does not apply, whatever
    the raw input is: a failed type check is refused, a passed one is
    judged by the range rules. *)
Theorem interpretAsNull_looks_up_the_coerced_value :
  forall (rt : Runtime) (parm : APIParameter) (parms : list (string * jsval))
         (ty : string) (vs : list jsval),
    has_key (p_key parm) parms = true ->
    is_nullish (lookup (p_key parm) parms) = false ->
    p_type parm = Some ty ->
    p_interpretAsNull parm = Some vs ->
    ((fst (typeCheck rt ty (trim (ToString rt (lookup (p_key parm) parms)))) = false ->
      coerced rt ty (lookup (p_key parm) parms)
      = JStr (trim (ToString rt (lookup (p_key parm) parms)))) /\
     (fst (typeCheck rt ty (trim (ToString rt (lookup (p_key parm) parms)))) = true ->
      snd (typeCheck rt ty (trim (ToString rt (lookup (p_key parm) parms)))) <> JNull ->
      coerced rt ty (lookup (p_key parm) parms)
      = snd (typeCheck rt ty (trim (ToString rt (lookup (p_key parm) parms))))) /\
     (snd (typeCheck rt ty (trim (ToString rt (lookup (p_key parm) parms)))) = JNull ->
      coerced rt ty (lookup (p_key parm) parms) = lookup (p_key parm) parms /\
      ty = "json" /\
      JSON_parse rt (trim (ToString rt (lookup (p_key parm) parms))) = Some JNull)) /\
    (includes vs (coerced rt ty (lookup (p_key parm) parms)) = true ->
     checkParameter rt parm parms = Some (verdict_value JNull)) /\
    (includes vs (coerced rt ty (lookup (p_key parm) parms)) = false ->
     checkParameter rt parm parms
     = Some (if fst (typeCheck rt ty (trim (ToString rt (lookup (p_key parm) parms))))
             then rangeCheck rt parm (coerced rt ty (lookup (p_key parm) parms))
             else verdict_fail ("Parameter " ++ p_key parm
                                ++ " has the wrong type, expected " ++ ty ++ ".")
                               ERROR_CODES.PARAM_TYPE)).
Proof.
  intros rt parm parms ty vs Hkey Hval Hty Hset.
  split; [split; [|split]|split].
  - intros Hfail. unfold coerced. cbv zeta.
    now rewrite (typeCheck_failed_keeps_text _ _ _ Hfail).
  - intros _ Hnot. unfold coerced. cbv zeta.
    destruct (snd (typeCheck rt ty (trim (ToString rt (lookup (p_key parm) parms)))));
      try reflexivity.
    now elim Hnot.
  - intros Hnull. split.
    + unfold coerced. cbv zeta. now rewrite Hnull.
    + exact (typeCheck_null_is_a_parsed_document _ _ _ Hnull).
  - intros Hin. unfold checkParameter. rewrite Hkey, Hval, Hty, Hset.
    cbn [orb negb]. cbv zeta. rewrite Hin. reflexivity.
  - intros Hout. unfold checkParameter. rewrite Hkey, Hval, Hty, Hset.
    cbn [orb negb]. cbv zeta. rewrite Hout.
    destruct (fst (typeCheck rt ty (trim (ToString rt (lookup (p_key parm) parms)))));
      reflexivity.
Qed.

Lemma interpretAsNull_looks_up_the_coerced_value_witness :
  coerced rt0 "int" (lookup (p_key blank_is_null) [("parent", JStr " ")]) = JStr "" /\
  checkParameter rt0 blank_is_null [("parent", JStr " ")]
  = Some (verdict_value JNull).
Proof.
  split.
  - exact (proj1 (proj1 (@interpretAsNull_looks_up_the_coerced_value
                           rt0 blank_is_null [("parent", JStr " ")] "int" [JStr ""]
                           eq_refl eq_refl eq_refl eq_refl)) eq_refl).
  - exact (proj1 (proj2 (@interpretAsNull_looks_up_the_coerced_value
                           rt0 blank_is_null [("parent", JStr " ")] "int" [JStr ""]
                           eq_refl eq_refl eq_refl eq_refl)) eq_refl).
Defined.

(** C7 as stated fails.  The raw input ["0"] is in the set [["0"]], yet the
    integer parameter is accepted with the number 0; the raw input [" "] is
    in the set [[" "]], yet the string parameter is rejected for its type. *)
Lemma raw_member_is_not_interpreted_as_null :
  (includes [JStr "0"] (JStr "0") = true /\
   checkParameter rt0 zero_is_null [("parent", JStr "0")]
   = Some (verdict_value (JNum (inject_Z 0)))) /\
  (includes [JStr " "] (JStr " ") = true /\
   checkParameter rt0 space_is_null [("note", JStr " ")]
   = Some (verdict_fail "Parameter note has the wrong type, expected string."
                        ERROR_CODES.PARAM_TYPE)).
Proof. repeat split. Qed.

(** A document that parses to [null] is looked up as the raw input: the
    padded text [" null "] is found in the set [[" null "]] although it
    has white space around it, and the text ["null"] is not found in the
    set [[null]] although it parses to [null]; it is accepted as the text
    it was. *)
Lemma parsed_null_is_looked_up_as_the_raw_input :
  checkParameter rt0 padded_null_is_null [("doc", JStr " null ")]
  = Some (verdict_value JNull) /\
  checkParameter rt0 null_is_null [("doc", JStr "null")]
  = Some (verdict_value (JStr "null")).
Proof. split; reflexivity. Qed.

(* ------------------------------------------------------------------ *)
(** * The execution pipeline *)
(* ------------------------------------------------------------------ *)

Lemma startTransaction_connected :
  forall st, connected st = true -> startTransaction st = (Ret tt, begun true st).
Proof. intros st H. unfold startTransaction. now rewrite H. Qed.

Lemma commit_connected :
  forall st, connected st = true -> commit st = (Ret tt, with_snapshot st None).
Proof. intros st H. unfold commit. now rewrite H. Qed.

Lemma rollback_connected :
  forall st, connected st = true -> rollback st = (Ret tt, rolled_back st).
Proof. intros st H. unfold rollback. now rewrite H. Qed.

(** The [.catch] callback of [tryExecuteMethod] never builds its response:
    [err] is bound nowhere. *)
Lemma on_rejected_throws :
  forall (errorCode : string) (st : State),
    on_rejected errorCode st = (Exn (ReferenceError "err"), st).
Proof. reflexivity. Qed.

(** The [catch] block of the multicall loop never records its response:
    [multicall.js] does not bind [ERROR_CODES]. *)
Lemma multicall_on_error_throws :
  forall (call : jsval) (session : option Session)
         (responses : list APIResponse) (st : State),
    multicall_on_error call session responses st
    = (Exn (ReferenceError "ERROR_CODES"), st).
Proof. reflexivity. Qed.

Lemma tryExecuteMethod_S :
  forall rt fuel methods,
    tryExecuteMethod rt (S fuel) methods
    = tryExecuteMethod_body rt (run_handler rt fuel methods) (S fuel).
Proof. reflexivity. Qed.

(** A handler that throws makes [execute] roll back and reject. *)
Lemma execute_handler_throws :
  forall run method args st e st2,
    connected st = true ->
    run (handler method) args (begun (transaction method) st) = (Exn e, st2) ->
    connected st2 = true ->
    execute run method args st
    = (Ret (Rejected ERROR_CODES.METHOD_ERROR),
       if transaction method then rolled_back st2 else st2).
Proof.
  intros run method args st e st2 Hc Hrun Hc2. unfold execute.
  destruct (transaction method); cbn [andb].
  - rewrite (startTransaction_connected _ Hc), Hrun.
    rewrite (rollback_connected _ Hc2). reflexivity.
  - change (begun false st) with st in Hrun. rewrite Hrun. reflexivity.
Qed.

(** Once [execute] has rejected, [tryExecuteMethod] throws. *)
Lemma rejection_escapes :
  forall rt run fuel method parms session request st v parms' errorCode st',
    canBeExecuted rt fuel method parms session st = Ret (v, parms') ->
    passed v = true ->
    execute run method
            {| h_parms := parms'; h_session := session; h_request := request |} st
    = (Ret (Rejected errorCode), st') ->
    tryExecuteMethod_body rt run fuel method parms session request st
    = (Exn (ReferenceError "err"), st').
Proof.
  intros rt run fuel method parms session request st v parms' errorCode st'
         Hcan Hpassed Hexec.
  unfold tryExecuteMethod_body, bind, reading.
  rewrite Hcan, Hpassed. cbn [negb]. rewrite Hexec. reflexivity.
Qed.

(** C1, what the code does.  Whenever the checks pass and the handler
    throws (the storage connection being up), [tryExecuteMethod] does not
    return a METHOD_ERROR response: the callback that should build it
    throws a ReferenceError, which leaves [tryExecuteMethod]; the transport
    wrapper then answers HANDLER_ERROR. *)
Theorem handler_failure_escapes_tryExecuteMethod :
  forall rt fuel methods method parms session request st v parms' e st2,
    canBeExecuted rt (S fuel) method parms session st = Ret (v, parms') ->
    passed v = true ->
    connected st = true ->
    run_handler rt fuel methods (handler method)
                {| h_parms := parms'; h_session := session; h_request := request |}
                (begun (transaction method) st)
    = (Exn e, st2) ->
    connected st2 = true ->
    tryExecuteMethod rt (S fuel) methods method parms session request st
    = (Exn (ReferenceError "err"),
       if transaction method then rolled_back st2 else st2) /\
    respond rt (S fuel) methods method parms session request st
    = (Ret (error (Some "An Error occured while handling your request.")
                  (Some ERROR_CODES.HANDLER_ERROR) None),
       if transaction method then rolled_back st2 else st2).
Proof.
  intros rt fuel methods method parms session request st v parms' e st2
         Hcan Hpassed Hc Hrun Hc2.
  assert (Htry : tryExecuteMethod rt (S fuel) methods method parms session request st
                 = (Exn (ReferenceError "err"),
                    if transaction method then rolled_back st2 else st2)).
  { rewrite tryExecuteMethod_S.
    eapply rejection_escapes; eauto.
    eapply execute_handler_throws; eauto. }
  split; [exact Htry|].
  unfold respond, try_catch, bind. rewrite Htry. reflexivity.
Qed.

Lemma handler_failure_escapes_tryExecuteMethod_witness :
  tryExecuteMethod rt0 1 (session_js_methods rt0) keep_alive_method []
                   (Some alice_session) curl st0
  = (Exn (ReferenceError "err"), with_abandoned st0 1) /\
  respond rt0 1 (session_js_methods rt0) keep_alive_method []
          (Some alice_session) curl st0
  = (Ret (error (Some "An Error occured while handling your request.")
                (Some ERROR_CODES.HANDLER_ERROR) None),
     with_abandoned st0 1).
Proof.
  exact (@handler_failure_escapes_tryExecuteMethod
           rt0 0%nat (session_js_methods rt0) keep_alive_method []
           (Some alice_session) curl st0 verdict_ok [] (TypeError "expiration_date")
           (snd (keep_alive_handler
                   {| h_parms := []; h_session := Some alice_session;
                      h_request := curl |}
                   (begun true st0)))
           eq_refl eq_refl eq_refl eq_refl eq_refl).
Defined.

(** A response that reports success was returned by the handler, and the
    handler's writes are kept. *)
Lemma successful_response_comes_from_handler :
  forall rt run fuel method parms session request st r p st',
    tryExecuteMethod_body rt run fuel method parms session request st
    = (Ret (r, p), st') ->
    success r = true ->
    exists v hr st2,
      canBeExecuted rt fuel method parms session st = Ret (v, p) /\
      passed v = true /\
      run (handler method)
          {| h_parms := p; h_session := session; h_request := request |}
          (begun (transaction method) st)
      = (Ret (Some hr), st2) /\
      success hr = true /\
      r = drop_empty_data hr /\
      st' = (if transaction method then with_snapshot st2 None else st2).
Proof.
  intros rt run fuel method parms session request st r p st' H Hok.
  unfold tryExecuteMethod_body, bind, reading in H.
  destruct (canBeExecuted rt fuel method parms session st) as [[v p'] | | |] eqn:Hcan;
    try discriminate.
  destruct (passed v) eqn:Hpassed; cbn [negb] in H.
  2:{ unfold ret in H. inversion H; subst. discriminate. }
  unfold execute in H.
  destruct (transaction method) eqn:Htx; cbn [andb begun] in *.
  - unfold startTransaction in H.
    destruct (connected st) eqn:Hc.
    2:{ rewrite on_rejected_throws in H. discriminate. }
    change (with_snapshot st (Some (tables st))) with (begun true st) in H.
    destruct (run (handler method)
                  {| h_parms := p'; h_session := session; h_request := request |}
                  (begun true st)) as [[[hr|] | e | |] st2] eqn:Hrun.
    + destruct (success hr) eqn:Hs.
      * unfold commit in H. destruct (connected st2) eqn:Hc2.
        -- unfold ret in H. inversion H. exists v, hr, st2. subst.
           repeat split; auto.
        -- unfold rollback in H. rewrite Hc2 in H. discriminate.
      * unfold rollback in H. destruct (connected st2) eqn:Hc2.
        -- unfold ret in H. inversion H; subst. cbn in Hok. congruence.
        -- rewrite Hc2 in H. discriminate.
    + unfold rollback in H. destruct (connected st2);
        [rewrite on_rejected_throws in H|]; discriminate.
    + unfold rollback in H. destruct (connected st2);
        [rewrite on_rejected_throws in H|]; discriminate.
    + discriminate.
    + discriminate.
  - destruct (run (handler method)
                  {| h_parms := p'; h_session := session; h_request := request |}
                  st) as [[[hr|] | e | |] st2] eqn:Hrun.
    + unfold ret in H. inversion H. exists v, hr, st2. subst.
      repeat split; auto.
    + rewrite on_rejected_throws in H. discriminate.
    + rewrite on_rejected_throws in H. discriminate.
    + discriminate.
    + discriminate.
Qed.

(* ------------------------------------------------------------------ *)
(** * Multicall *)
(* ------------------------------------------------------------------ *)

(** C3, what the code does.  When the dispatch of an entry throws, the
    [catch] block throws in turn before it records anything: the entry gets
    no MULTICALL_ERROR slot, the loop is left with the exception, and the
    entries after it do not run, whether the entry was marked breaking or
    not. *)
Theorem failing_entry_aborts_the_batch :
  forall (dispatch : APIMethod -> list (string * jsval) -> option Session ->
                     Request -> M (APIResponse * list (string * jsval)))
         (methods : list APIMethod) (request : Request) (method : APIMethod)
         (call : jsval) (rest : list jsval) (session : option Session)
         (responses : list APIResponse) (name : jsval) (e : exn) (st st' : State),
    get_prop call "method" = Ret name ->
    find_method methods name = Some method ->
    dispatch method (props_of call) session request st = (Exn e, st') ->
    multicall_entry dispatch request method call session responses st
    = (Exn (ReferenceError "ERROR_CODES"), st') /\
    multicall_loop dispatch methods request (call :: rest) session responses st
    = (Exn (ReferenceError "ERROR_CODES"), st').
Proof.
  intros dispatch methods request method call rest session responses name e st st'
         Hname Hfind Hthrow.
  assert (Hentry : multicall_entry dispatch request method call session responses st
                   = (Exn (ReferenceError "ERROR_CODES"), st')).
  { unfold multicall_entry, try_catch, bind. rewrite Hthrow.
    apply multicall_on_error_throws. }
  split; [exact Hentry|].
  cbn [multicall_loop]. unfold bind at 1, reading. rewrite Hname, Hfind.
  unfold bind. rewrite Hentry. reflexivity.
Qed.

Lemma failing_entry_aborts_the_batch_witness :
  multicall_entry (tryExecuteMethod rt0 1 (session_js_methods rt0)) curl
                  keep_alive_method (entry "/session/keep_alive")
                  (Some alice_session) [] st0
  = (Exn (ReferenceError "ERROR_CODES"), with_abandoned st0 1) /\
  multicall_loop (tryExecuteMethod rt0 1 (session_js_methods rt0))
                 (session_js_methods rt0) curl
                 [entry "/session/keep_alive"; entry "/session/logout_others"]
                 (Some alice_session) [] st0
  = (Exn (ReferenceError "ERROR_CODES"), with_abandoned st0 1).
Proof.
  exact (@failing_entry_aborts_the_batch
           (tryExecuteMethod rt0 1 (session_js_methods rt0)) (session_js_methods rt0)
           curl keep_alive_method (entry "/session/keep_alive")
           [entry "/session/logout_others"] (Some alice_session) []
           (JStr "/session/keep_alive") (ReferenceError "err") st0
           (with_abandoned st0 1)
           eq_refl eq_refl eq_refl).
Defined.

(** The whole request of the batch above, as the client sees it. *)
Lemma failing_entry_fails_the_request :
  fst (respond rt0 2 (session_js_methods rt0) multicall_method
               [("content",
                 JStr (stringify (batch [entry "/session/keep_alive";
                                         entry "/session/logout_others"])))]
               (Some alice_session) curl st0)
  = Ret (error (Some "An Error occured while handling your request.")
               (Some ERROR_CODES.HANDLER_ERROR) None).
Proof. vm_compute. reflexivity. Qed.

(** A session payload that is an object, as a login returns it, replaces
    the working session of the loop. *)
Lemma session_payload_is_propagated :
  forall dispatch request method call session responses r call' s st st',
    dispatch method (props_of call) session request st = (Ret (r, call'), st') ->
    r_session r = Val s ->
    success r = true ->
    multicall_entry dispatch request method call session responses st
    = (Ret (Continue (responses ++ [makeClientResponse r])%list (Some s)), st').
Proof.
  intros dispatch request method call session responses r call' s st st' H Hs Hok.
  unfold multicall_entry, try_catch, bind. rewrite H, Hs, Hok. cbn [negb].
  destruct (lookup "breaking" call') as [| |[|]| | | |]; reflexivity.
Qed.

(** [/session/logout] answers with a [null] session payload. *)
Lemma logout_payload_is_null :
  forall args hr st st2,
    logout_handler args st = (Ret (Some hr), st2) ->
    success hr = true ->
    r_session hr = Null.
Proof.
  intros args hr st st2 H Hok. unfold logout_handler in H.
  destruct (h_session args) as [s|]; [|discriminate].
  cbv beta iota zeta delta [bind deleteSession query ret fail_with] in H.
  destruct (connected st); cbn in H; [|discriminate].
  inversion H; subst. reflexivity.
Qed.

(** C4, what the code does for a logout.  A [/session/logout] that
    succeeds inside a batch leaves the loop's working session as it was:
    the next entries still run under the session that was just deleted. *)
Theorem logout_in_batch_keeps_the_working_session :
  forall (rt : Runtime) (fuel : nat) (methods : list APIMethod)
         (request : Request) (call : jsval) (session : option Session)
         (responses : list APIResponse) (r : APIResponse)
         (call' : list (string * jsval)) (st st' : State),
    tryExecuteMethod rt (S fuel) methods logout_method (props_of call)
                     session request st
    = (Ret (r, call'), st') ->
    success r = true ->
    r_session r = Null /\
    multicall_entry (tryExecuteMethod rt (S fuel) methods) request
                    logout_method call session responses st
    = (Ret (Continue (responses ++ [makeClientResponse r])%list session), st').
Proof.
  intros rt fuel methods request call session responses r call' st st' H Hok.
  assert (Hnull : r_session r = Null).
  { rewrite tryExecuteMethod_S in H.
    destruct (successful_response_comes_from_handler _ _ _ _ _ _ _ _ H Hok)
      as (v & hr & st2 & _ & _ & Hrun & Hs & -> & _).
    cbn in Hrun. cbn. eapply logout_payload_is_null; eauto. }
  split; [exact Hnull|].
  unfold multicall_entry, try_catch, bind. rewrite H, Hnull, Hok.
  cbn [negb]. destruct (lookup "breaking" call') as [| |[|]| | | |]; reflexivity.
Qed.

Lemma logout_in_batch_keeps_the_working_session_witness :
  multicall_entry (tryExecuteMethod rt0 1 (default_methods rt0)) curl
                  logout_method (entry "/session/logout")
                  (Some alice_session) [] st0
  = (Ret (Continue [makeClientResponse (successSession JNull None)]
                   (Some alice_session)),
     state_of (set_sessions tables0 [])).
Proof.
  exact (proj2 (@logout_in_batch_keeps_the_working_session
                  rt0 0%nat (default_methods rt0) curl (entry "/session/logout")
                  (Some alice_session) [] (drop_empty_data (successSession JNull None))
                  [("method", JStr "/session/logout")] st0
                  (state_of (set_sessions tables0 []))
                  eq_refl eq_refl)).
Defined.

(** The batch [logout; logout] under a live session: the second logout is
    authorized (it requires a session) and succeeds, although the first one
    has deleted the session. *)
Lemma logout_twice_in_one_batch :
  fst (respond rt0 2 (default_methods rt0) multicall_method
               [("content",
                 JStr (stringify (batch [entry "/session/logout";
                                         entry "/session/logout"])))]
               (Some alice_session) curl st0)
  = Ret (success_
           (JObj [("responses",
                   JArr [JObj [("success", JBool true); ("session", JNull)];
                         JObj [("success", JBool true); ("session", JNull)]])])).
Proof. vm_compute. reflexivity. Qed.

(* ------------------------------------------------------------------ *)
(** * Transactions *)
(* ------------------------------------------------------------------ *)

(** C2, as the code has it.  For a transactional method, with the
    connection up and a handler that does not end the transaction itself:
    the transaction is opened before the handler runs; when the handler
    returns a response that reports success the transaction is committed
    (the handler's writes are what the store holds afterwards) and the
    response is handed on; when the handler returns a response that reports
    failure the transaction is rolled back and that response is handed on
    as it is, with whatever code the handler chose; when the handler throws
    or returns no response the transaction is rolled back and [execute]
    rejects with METHOD_ERROR. *)
Theorem transactional_execute_commits_iff_success :
  forall (run : handler_impl -> HandlerArgs -> M (option APIResponse))
         (method : APIMethod) (args : HandlerArgs) (st st2 : State)
         (o : outcome (option APIResponse)),
    transaction method = true ->
    connected st = true ->
    run (handler method) args (begun true st) = (o, st2) ->
    connected st2 = true ->
    snapshot st2 = Some (tables st) ->
    startTransaction st = (Ret tt, begun true st) /\
    match o with
    | Ret (Some methodResult) =>
        if success methodResult then
          execute run method args st
          = (Ret (Resolved (drop_empty_data methodResult)), with_snapshot st2 None) /\
          persisted (with_snapshot st2 None) = tables st2
        else
          execute run method args st
          = (Ret (Resolved (drop_empty_data methodResult)), rolled_back st2) /\
          persisted (rolled_back st2) = tables st
    | Ret None | Exn _ =>
        execute run method args st
        = (Ret (Rejected ERROR_CODES.METHOD_ERROR), rolled_back st2) /\
        persisted (rolled_back st2) = tables st
    | Unsettled => execute run method args st = (Unsettled, st2)
    | OutOfFuel => execute run method args st = (OutOfFuel, st2)
    end.
Proof.
  intros run method args st st2 o Htx Hc Hrun Hc2 Hsnap.
  split; [apply startTransaction_connected; exact Hc|].
  assert (Hback : persisted (rolled_back st2) = tables st).
  { unfold rolled_back, persisted. cbn. rewrite Hsnap. reflexivity. }
  unfold execute. rewrite Htx. cbn [andb].
  rewrite (startTransaction_connected _ Hc), Hrun.
  destruct o as [[methodResult|] | e | |]; try reflexivity.
  - destruct (success methodResult).
    + rewrite (commit_connected _ Hc2). split; reflexivity.
    + rewrite (rollback_connected _ Hc2). split; [reflexivity | exact Hback].
  - rewrite (rollback_connected _ Hc2). split; [reflexivity | exact Hback].
  - rewrite (rollback_connected _ Hc2). split; [reflexivity | exact Hback].
Qed.

(** Scenario E on the sample store: [/session/keep_alive] updates the
    expiration, then throws; the update is rolled back. *)
Lemma transactional_execute_commits_iff_success_witness :
  map ses_expiration
      (api_sessions (tables (snd (keep_alive_handler keep_alive_args (begun true st0)))))
  = [5600%Z] /\
  execute (run_handler rt0 0 (session_js_methods rt0)) keep_alive_method
          keep_alive_args st0
  = (Ret (Rejected ERROR_CODES.METHOD_ERROR), with_abandoned st0 1) /\
  persisted (with_abandoned st0 1) = tables0.
Proof.
  split; [reflexivity|].
  exact (proj2 (@transactional_execute_commits_iff_success
                  (run_handler rt0 0 (session_js_methods rt0)) keep_alive_method
                  keep_alive_args st0
                  (snd (keep_alive_handler keep_alive_args (begun true st0)))
                  (Exn (TypeError "expiration_date"))
                  eq_refl eq_refl eq_refl eq_refl eq_refl)).
Defined.

(** C2 as stated fails: a login for an unknown user is an orderly failure
    of a transactional method; the transaction is rolled back, and the
    caller receives the handler's own response, which carries no code. *)
Lemma orderly_failure_is_not_METHOD_ERROR :
  tryExecuteMethod rt0 1 (default_methods rt0) (login_method rt0)
                   [("username", JStr "nobody");
                    ("password_hash", JStr (digest "secret"))]
                   None curl st0
  = (Ret (error (Some "User not found") None None,
          [("username", JStr "nobody");
           ("password_hash", JStr (digest "secret"))]),
     st0).
Proof. vm_compute. reflexivity. Qed.

(* ------------------------------------------------------------------ *)
(** * The permission resolver *)
(* ------------------------------------------------------------------ *)

Section Resolver.

Lemma str_includes_In :
  forall (l : list string) (x : string), str_includes l x = true <-> In x l.
Proof.
  intros l x. unfold str_includes. rewrite existsb_exists. split.
  - intros (y & Hy & Heq). apply String.eqb_eq in Heq. now subst.
  - intros H. exists x. split; [exact H | apply String.eqb_refl].
Qed.

Lemma str_includes_not_In :
  forall (l : list string) (x : string), str_includes l x = false <-> ~ In x l.
Proof.
  intros l x. rewrite <- str_includes_In.
  destruct (str_includes l x); split; intros H; congruence.
Qed.

Lemma push_new_In :
  forall (ds acc : list string) (k : string),
    In k (push_new acc ds) <-> In k acc \/ In k ds.
Proof.
  unfold push_new. induction ds as [|d ds IH]; intros acc k; cbn.
  - tauto.
  - rewrite IH. destruct (str_includes acc d) eqn:Hd.
    + apply str_includes_In in Hd. intuition (subst; auto).
    + rewrite in_app_iff. cbn. intuition (subst; auto).
Qed.

Lemma push_new_NoDup :
  forall (ds acc : list string), NoDup acc -> NoDup (push_new acc ds).
Proof.
  unfold push_new. induction ds as [|d ds IH]; intros acc Hacc; cbn.
  - exact Hacc.
  - apply IH. destruct (str_includes acc d) eqn:Hd; [exact Hacc|].
    apply str_includes_not_In in Hd.
    apply NoDup_app; [exact Hacc | repeat constructor; intros [] | ].
    intros x Hx [Heq|[]]. subst. contradiction.
Qed.

Variable t : Tables.

Lemma descendant_trans :
  forall a b c, descendant t a b -> descendant t b c -> descendant t a c.
Proof.
  intros a b c Hab. revert c. induction Hab as [p c0 Hc | p c0 d Hc _ IH]; intros c Hbc.
  - eapply descendant_step; eauto.
  - eapply descendant_step; eauto.
Qed.

Lemma descendant_inv :
  forall p x, descendant t p x ->
              exists c, child t p c /\ (x = c \/ descendant t c x).
Proof.
  intros p x H. destruct H as [p c Hc | p c d Hc Hd]; exists c; auto.
Qed.

Lemma ranked_acyclic :
  forall rank, ranked rank t -> acyclic t.
Proof.
  intros rank Hr.
  assert (Hlt : forall p c, descendant t p c -> rank c < rank p).
  { intros p c H. induction H as [p c Hc | p c d Hc _ IH].
    - apply Hr; exact Hc.
    - specialize (Hr _ _ Hc). lia. }
  intros k Hk. specialize (Hlt _ _ Hk). lia.
Qed.

(** What the shared loop computes, when every expansion it asks for is
    the set of descendants of the key. *)
Lemma gather_spec :
  forall (expand : string -> outcome (list string)) (keys done acc r : list string),
    (forall k ds, In k keys -> expand k = Ret ds ->
                  NoDup ds /\ forall d, In d ds <-> descendant t k d) ->
    NoDup acc ->
    (forall x, In x acc <-> exists k, In k done /\ (x = k \/ descendant t k x)) ->
    gather expand keys acc = Ret r ->
    NoDup r /\
    forall x, In x r <->
              exists k, In k (done ++ keys)%list /\ (x = k \/ descendant t k x).
Proof.
  intros expand keys. induction keys as [|k rest IH];
    intros done acc r Hexp Hnd Hacc Hrun; cbn in Hrun.
  - inversion Hrun; subst. rewrite app_nil_r. split; assumption.
  - assert (Hrest : forall k0 ds, In k0 rest -> expand k0 = Ret ds ->
                      NoDup ds /\ forall d, In d ds <-> descendant t k0 d)
      by (intros; eapply Hexp; eauto; now right).
    replace (done ++ k :: rest)%list with ((done ++ [k]) ++ rest)%list
      by (rewrite <- app_assoc; reflexivity).
    destruct (str_includes acc k) eqn:Hk.
    + apply str_includes_In in Hk.
      apply (IH (done ++ [k])%list acc r Hrest Hnd); [|exact Hrun].
      intros x. rewrite Hacc. split.
      * intros (k0 & Hk0 & Hx). exists k0. rewrite in_app_iff. auto.
      * intros (k0 & Hk0 & Hx). apply in_app_iff in Hk0.
        destruct Hk0 as [Hk0 | [<- | []]]; [eauto|].
        apply Hacc in Hk. destruct Hk as (k1 & Hk1 & Hkk).
        exists k1. split; [exact Hk1|].
        destruct Hx as [-> | Hx]; [exact Hkk|].
        right. destruct Hkk as [-> | Hkk]; [exact Hx|].
        eapply descendant_trans; eauto.
    + apply str_includes_not_In in Hk.
      destruct (expand k) as [ds | | |] eqn:He; cbn in Hrun; try discriminate.
      destruct (Hexp k ds (or_introl eq_refl) He) as [Hds Hdesc].
      apply (IH (done ++ [k])%list (push_new (acc ++ [k])%list ds) r Hrest);
        [| |exact Hrun].
      * apply push_new_NoDup.
        apply NoDup_app; [exact Hnd | repeat constructor; intros [] |].
        intros x Hx [Heq|[]]. subst. contradiction.
      * intros x. rewrite push_new_In, in_app_iff, Hacc, Hdesc. cbn. split.
        -- intros [[(k0 & Hk0 & Hx) | [<- | []]] | Hx].
           ++ exists k0. rewrite in_app_iff. auto.
           ++ exists k. rewrite in_app_iff. cbn. auto.
           ++ exists k. rewrite in_app_iff. cbn. auto.
        -- intros (k0 & Hk0 & Hx). apply in_app_iff in Hk0.
           destruct Hk0 as [Hk0 | [<- | []]]; [left; left; eauto|].
           destruct Hx as [-> | Hx]; auto.
Qed.

Lemma gather_returns :
  forall (expand : string -> outcome (list string)) (keys acc : list string),
    (forall k, In k keys -> exists ds, expand k = Ret ds) ->
    exists r, gather expand keys acc = Ret r.
Proof.
  intros expand keys. induction keys as [|k rest IH]; intros acc Hexp; cbn.
  - eauto.
  - destruct (str_includes acc k).
    + apply IH. intros; apply Hexp; now right.
    + destruct (Hexp k (or_introl eq_refl)) as [ds ->]. cbn.
      apply IH. intros; apply Hexp; now right.
Qed.

End Resolver.

Lemma getPermissionDecendants_S :
  forall fuel st permission,
    getPermissionDecendants (S fuel) st permission
    = obind (select (children_of permission) st) (fun children =>
        gather (getPermissionDecendants fuel st) children []).
Proof. reflexivity. Qed.

(** Whatever [getPermissionDecendants] returns is the duplicate-free list
    of the key's descendants. *)
Lemma getPermissionDecendants_spec :
  forall fuel st permission r,
    getPermissionDecendants fuel st permission = Ret r ->
    NoDup r /\ forall x, In x r <-> descendant (tables st) permission x.
Proof.
  induction fuel as [|fuel IH]; intros st permission r H; [discriminate|].
  rewrite getPermissionDecendants_S in H. unfold select in H.
  destruct (connected st); [|discriminate]. cbn [obind] in H.
  destruct (@gather_spec (tables st) (getPermissionDecendants fuel st)
              (children_of permission (tables st)) [] [] r) as [Hnd Hin].
  - intros k ds _ Hk. apply IH. exact Hk.
  - constructor.
  - intros x. split; [intros [] | intros (k & [] & _)].
  - exact H.
  - split; [exact Hnd|]. intros x. rewrite Hin. cbn. split.
    + intros (c & Hc & [-> | Hx]).
      * apply descendant_child. exact Hc.
      * eapply descendant_step; eauto.
    + intros Hx. apply descendant_inv in Hx. exact Hx.
Qed.

(** Whatever [getUserPermissions] returns for a user is the duplicate-free
    list of the user's effective permissions. *)
Lemma getUserPermissions_spec :
  forall fuel st uid perms,
    getUserPermissions fuel st (Some uid) = Ret (Some perms) ->
    NoDup perms /\ forall k, In k perms <-> effective (tables st) uid k.
Proof.
  intros fuel st uid perms H. unfold getUserPermissions, select in H.
  destruct (connected st); [|discriminate]. cbn [obind] in H.
  destruct (gather (getPermissionDecendants fuel st) (grants_of uid (tables st)) [])
    as [r | | |] eqn:Hg; cbn in H; try discriminate.
  inversion H; subst r.
  destruct (@gather_spec (tables st) (getPermissionDecendants fuel st)
              (grants_of uid (tables st)) [] [] perms) as [Hnd Hin].
  - intros k ds _ Hk. eapply getPermissionDecendants_spec. exact Hk.
  - constructor.
  - intros x. split; [intros [] | intros (k & [] & _)].
  - exact Hg.
  - split; [exact Hnd|]. intros k. rewrite Hin. cbn. unfold effective.
    reflexivity.
Qed.

Lemma children_are_keys :
  forall t p c, child t p c -> In c (map perm_key (api_permissions t)).
Proof.
  intros t p c H. unfold child, children_of in H.
  apply in_map_iff in H. destruct H as (row & <- & Hrow).
  apply filter_In in Hrow. apply in_map. tauto.
Qed.

(** On an acyclic hierarchy the traversal returns: the keys below the
    root on the active call path are distinct keys of the table, so the
    path cannot grow beyond the number of rows. *)
Lemma getPermissionDecendants_returns_on_path :
  forall st, connected st = true -> acyclic (tables st) ->
  forall fuel path permission,
    NoDup path ->
    incl path (map perm_key (api_permissions (tables st))) ->
    (forall x, In x path -> x = permission \/ descendant (tables st) x permission) ->
    List.length (api_permissions (tables st)) < fuel + List.length path ->
    exists r, getPermissionDecendants fuel st permission = Ret r.
Proof.
  intros st Hc Hacyc. induction fuel as [|fuel IH];
    intros path permission Hnd Hincl Hanc Hlen.
  - exfalso. apply NoDup_incl_length in Hincl; [|exact Hnd].
    rewrite length_map in Hincl. cbn in Hlen. lia.
  - rewrite getPermissionDecendants_S. unfold select. rewrite Hc. cbn [obind].
    apply gather_returns. intros c Hchild.
    apply (IH (c :: path)).
    + constructor; [|exact Hnd]. intros Hin.
      destruct (Hanc c Hin) as [-> | Hd].
      * apply (Hacyc permission). apply descendant_child. exact Hchild.
      * apply (Hacyc c). eapply descendant_trans; [exact Hd|].
        apply descendant_child. exact Hchild.
    + intros x [<- | Hx]; [eapply children_are_keys; exact Hchild | auto].
    + intros x [<- | Hx]; [now left | right].
      destruct (Hanc x Hx) as [-> | Hd].
      * apply descendant_child. exact Hchild.
      * eapply descendant_trans; [exact Hd|]. apply descendant_child. exact Hchild.
    + cbn. lia.
Qed.

Lemma getPermissionDecendants_returns :
  forall st permission,
    connected st = true -> acyclic (tables st) ->
    exists r,
      getPermissionDecendants (S (List.length (api_permissions (tables st)))) st permission
      = Ret r.
Proof.
  intros st permission Hc Hacyc.
  apply (@getPermissionDecendants_returns_on_path st Hc Hacyc _ []).
  - constructor.
  - intros x [].
  - intros x [].
  - cbn. lia.
Qed.

Lemma getUserPermissions_returns :
  forall st uid,
    connected st = true -> acyclic (tables st) ->
    exists perms,
      getUserPermissions (S (List.length (api_permissions (tables st)))) st (Some uid)
      = Ret (Some perms).
Proof.
  intros st uid Hc Hacyc. unfold getUserPermissions, select. rewrite Hc.
  cbn [obind].
  destruct (@gather_returns
              (getPermissionDecendants (S (List.length (api_permissions (tables st)))) st)
              (grants_of uid (tables st)) []) as [r Hr].
  - intros k _. apply getPermissionDecendants_returns; assumption.
  - rewrite Hr. cbn. eauto.
Qed.

(** Every key that the loop is asked about was expanded, or had been
    pushed as one of the keys reached from a key expanded before it. *)
Lemma gather_covers :
  forall (expand : string -> outcome (list string)) (keys acc r : list string),
    gather expand keys acc = Ret r ->
    (forall x, In x acc ->
               exists k ds, expand k = Ret ds /\ (x = k \/ In x ds)) ->
    forall x, In x keys ->
              exists k ds, expand k = Ret ds /\ (x = k \/ In x ds).
Proof.
  intros expand keys. induction keys as [|k rest IH]; intros acc r Hrun Hacc x Hx;
    [destruct Hx|].
  cbn [gather] in Hrun. destruct (str_includes acc k) eqn:Hk.
  - destruct Hx as [<- | Hx].
    + apply Hacc. now apply str_includes_In.
    + eapply IH; eauto.
  - destruct (expand k) as [ds | | |] eqn:He; cbn [obind] in Hrun; try discriminate.
    destruct Hx as [<- | Hx]; [exists k, ds; auto|].
    eapply IH; [exact Hrun | | exact Hx].
    intros y Hy. apply push_new_In in Hy. rewrite in_app_iff in Hy.
    destruct Hy as [[Hy | [<- | []]] | Hy].
    + now apply Hacc.
    + exists k, ds. auto.
    + exists k, ds. auto.
Qed.

Lemma cycle_reachable_from_above :
  forall t p c, (c = p \/ descendant t p c) ->
                cycle_reachable t c -> cycle_reachable t p.
Proof.
  intros t p c Hpc (k & Hck & Hkk). exists k. split; [|exact Hkk].
  destruct Hpc as [-> | Hpc]; [exact Hck|]. right.
  destruct Hck as [-> | Hck]; [exact Hpc|].
  eapply descendant_trans; eauto.
Qed.

Lemma cycle_reachable_below :
  forall t p, cycle_reachable t p ->
              exists c, child t p c /\ cycle_reachable t c.
Proof.
  intros t p (k & [-> | Hpk] & Hkk).
  - destruct (descendant_inv Hkk) as (c & Hc & [-> | Hcp]).
    + exists c. split; [exact Hc|]. exists c. auto.
    + exists c. split; [exact Hc|]. exists p. auto.
  - destruct (descendant_inv Hpk) as (c & Hc & Hck).
    exists c. split; [exact Hc|]. exists k. auto.
Qed.

(** A traversal that returns has met no cycle: the code has no other way
    out of one. *)
Lemma returned_traversal_met_no_cycle :
  forall fuel st permission r,
    getPermissionDecendants fuel st permission = Ret r ->
    ~ cycle_reachable (tables st) permission.
Proof.
  induction fuel as [|fuel IH]; intros st permission r H Hcyc; [discriminate|].
  destruct (cycle_reachable_below Hcyc) as (c & Hc & Hcc).
  rewrite getPermissionDecendants_S in H. unfold select in H.
  destruct (connected st); [|discriminate]. cbn [obind] in H.
  destruct (@gather_covers (getPermissionDecendants fuel st)
              (children_of permission (tables st)) [] r H) with (x := c)
    as (k & ds & Hk & Hreach).
  - intros x [].
  - exact Hc.
  - apply (IH st k ds Hk). apply (@cycle_reachable_from_above _ k c); [|exact Hcc].
    destruct Hreach as [-> | Hin]; [now left | right].
    apply (proj2 (getPermissionDecendants_spec _ _ _ Hk)). exact Hin.
Qed.

Lemma gather_returns_or_runs_out :
  forall (expand : string -> outcome (list string)),
    (forall k, (exists ds, expand k = Ret ds) \/ expand k = OutOfFuel) ->
    forall keys acc,
      (exists r, gather expand keys acc = Ret r) \/
      gather expand keys acc = OutOfFuel.
Proof.
  intros expand Hexp keys. induction keys as [|k rest IH]; intros acc;
    cbn [gather]; [left; eauto|].
  destruct (str_includes acc k); [apply IH|].
  destruct (Hexp k) as [[ds ->] | ->]; cbn [obind]; [apply IH | now right].
Qed.

(** With the connection up, the traversal either returns or exhausts its
    depth. *)
Lemma traversal_returns_or_runs_out :
  forall fuel st permission,
    connected st = true ->
    (exists r, getPermissionDecendants fuel st permission = Ret r) \/
    getPermissionDecendants fuel st permission = OutOfFuel.
Proof.
  induction fuel as [|fuel IH]; intros st permission Hc; [now right|].
  rewrite getPermissionDecendants_S. unfold select. rewrite Hc. cbn [obind].
  apply gather_returns_or_runs_out. intros k. apply IH. exact Hc.
Qed.

Lemma traversal_of_a_cycle_runs_out :
  forall fuel st permission,
    connected st = true ->
    cycle_reachable (tables st) permission ->
    getPermissionDecendants fuel st permission = OutOfFuel.
Proof.
  intros fuel st permission Hc Hcyc.
  destruct (@traversal_returns_or_runs_out fuel st permission Hc) as [[r Hr] | H];
    [|exact H].
  exfalso. exact (@returned_traversal_met_no_cycle _ _ _ _ Hr Hcyc).
Qed.

Lemma permissions_over_a_cycle_never_return :
  forall fuel st uid g r,
    In g (grants_of uid (tables st)) ->
    cycle_reachable (tables st) g ->
    getUserPermissions fuel st (Some uid) <> Ret r.
Proof.
  intros fuel st uid g r Hg Hcyc H. unfold getUserPermissions, select in H.
  destruct (connected st); [|discriminate]. cbn [obind] in H.
  destruct (gather (getPermissionDecendants fuel st) (grants_of uid (tables st)) [])
    as [l | | |] eqn:Hl; cbn [obind] in H; try discriminate.
  destruct (@gather_covers (getPermissionDecendants fuel st)
              (grants_of uid (tables st)) [] l Hl) with (x := g)
    as (k & ds & Hk & Hreach).
  - intros x [].
  - exact Hg.
  - apply (@returned_traversal_met_no_cycle _ _ _ _ Hk).
    apply (@cycle_reachable_from_above _ k g); [|exact Hcyc].
    destruct Hreach as [-> | Hin]; [now left | right].
    apply (proj2 (getPermissionDecendants_spec _ _ _ Hk)). exact Hin.
Qed.

Lemma permissions_over_a_cycle_run_out :
  forall fuel st uid g,
    connected st = true ->
    In g (grants_of uid (tables st)) ->
    cycle_reachable (tables st) g ->
    getUserPermissions fuel st (Some uid) = OutOfFuel.
Proof.
  intros fuel st uid g Hc Hg Hcyc.
  pose proof (fun r => @permissions_over_a_cycle_never_return fuel st uid g r Hg Hcyc)
    as Hnever.
  unfold getUserPermissions, select in *. rewrite Hc in *. cbn [obind] in *.
  destruct (@gather_returns_or_runs_out (getPermissionDecendants fuel st)
              (fun k => @traversal_returns_or_runs_out fuel st k Hc)
              (grants_of uid (tables st)) []) as [[r Hr] | Hout].
  - exfalso. apply (Hnever (Some r)). rewrite Hr. reflexivity.
  - rewrite Hout. reflexivity.
Qed.

(** C5, as the code has it.  For an absent user identifier
    [getUserPermissions] returns [null], not an empty list.  For a present
    user, a live connection and a hierarchy in which no key is its own
    ancestor, it returns a list without duplicates whose members are
    exactly the directly granted keys and their descendants; whenever it
    returns a list at all, it is that one.  And on every hierarchy in
    which a cycle is reachable from a granted key it does not return,
    whatever the depth allowed: with the connection up the recursion
    exceeds every depth. *)
Theorem getUserPermissions_is_the_closure :
  (forall fuel st, getUserPermissions fuel st None = Ret None) /\
  (forall st uid,
      connected st = true ->
      acyclic (tables st) ->
      exists fuel perms,
        getUserPermissions fuel st (Some uid) = Ret (Some perms) /\
        NoDup perms /\
        forall k, In k perms <-> effective (tables st) uid k) /\
  (forall fuel st uid perms,
      getUserPermissions fuel st (Some uid) = Ret (Some perms) ->
      NoDup perms /\ forall k, In k perms <-> effective (tables st) uid k) /\
  (forall st uid g,
      In g (grants_of uid (tables st)) ->
      cycle_reachable (tables st) g ->
      (forall fuel r, getUserPermissions fuel st (Some uid) <> Ret r) /\
      (connected st = true ->
       forall fuel, getUserPermissions fuel st (Some uid) = OutOfFuel)).
Proof.
  split; [reflexivity|]. split; [|split].
  - intros st uid Hc Hacyc.
    destruct (@getUserPermissions_returns st uid Hc Hacyc) as [perms Hp].
    exists (S (List.length (api_permissions (tables st)))), perms.
    split; [exact Hp|]. eapply getUserPermissions_spec. exact Hp.
  - intros fuel st uid perms H. eapply getUserPermissions_spec. exact H.
  - intros st uid g Hg Hcyc. split.
    + intros fuel r. eapply permissions_over_a_cycle_never_return; eauto.
    + intros Hc fuel. eapply permissions_over_a_cycle_run_out; eauto.
Qed.

(** On the sample hierarchy a key ranks by how short its name is. *)
Lemma sample_hierarchy_ranked :
  ranked (fun k => 100 - String.length k) tables0.
Proof.
  intros p c H. unfold child, children_of, tables0, hierarchy in H.
  cbn [api_permissions filter perm_parent] in H.
  repeat match type of H with
         | context [String.eqb ?a p] =>
             destruct (String.eqb_spec a p) as [<- | ?]
         end;
    cbn in H;
    repeat match type of H with
           | _ \/ _ => destruct H as [H | H]
           | False => destruct H
           | _ = c => subst c; cbn; lia
           end.
Qed.

(** On the cyclic sample hierarchy the key [reports] is its own ancestor. *)
Lemma sample_cycle :
  descendant (tables cyclic_st) "reports" "reports".
Proof.
  apply descendant_step with (c := "reports.export").
  - cbn. auto.
  - apply descendant_child. cbn. auto.
Qed.

Lemma getUserPermissions_is_the_closure_witness :
  (exists fuel perms,
      getUserPermissions fuel st0 (Some 7%Z) = Ret (Some perms) /\
      NoDup perms /\
      forall k, In k perms <-> effective tables0 7%Z k) /\
  (forall fuel, getUserPermissions fuel cyclic_st (Some 7%Z) = OutOfFuel).
Proof.
  split.
  - exact (proj1 (proj2 getUserPermissions_is_the_closure) st0 7%Z eq_refl
                 (ranked_acyclic sample_hierarchy_ranked)).
  - refine (proj2 (proj2 (proj2 (proj2 getUserPermissions_is_the_closure))
                     cyclic_st 7%Z "reports" _ _) eq_refl).
    + cbn. auto.
    + exists "reports". split; [now left | exact sample_cycle].
Defined.

Lemma cyclic_traversal_runs_out :
  forall fuel,
    getPermissionDecendants fuel cyclic_st "reports" = OutOfFuel /\
    getPermissionDecendants fuel cyclic_st "reports.export" = OutOfFuel.
Proof.
  induction fuel as [|fuel [IH1 IH2]]; [split; reflexivity|].
  rewrite !getPermissionDecendants_S. unfold select.
  change (connected cyclic_st) with true. cbn [obind].
  change (children_of "reports" (tables cyclic_st)) with ["reports.export"].
  change (children_of "reports.export" (tables cyclic_st)) with ["reports"].
  cbn [gather str_includes existsb]. rewrite IH1, IH2. split; reflexivity.
Qed.

(** C5 as stated fails on two inputs: for an absent user the result is
    [null], not the empty list; and for a user granted a key that lies on a
    cycle of the hierarchy there is no result, whatever the budget. *)
Lemma getUserPermissions_null_and_no_result :
  getUserPermissions 3 st0 None = Ret None /\
  (forall fuel, getUserPermissions fuel cyclic_st (Some 7%Z) = OutOfFuel).
Proof.
  split; [reflexivity|]. intros fuel.
  unfold getUserPermissions, select. change (connected cyclic_st) with true.
  cbn [obind]. change (grants_of 7 (tables cyclic_st)) with ["reports"].
  cbn [gather str_includes existsb].
  rewrite (proj1 (cyclic_traversal_runs_out fuel)). reflexivity.
Qed.

(** C6, as the code has it.  With the connection up, the traversal and
    the computation of the effective permissions return on every hierarchy
    in which no key is its own ancestor, within a recursion depth of the
    number of rows plus one.  Nothing records the keys of the active call
    path: with the connection up, on every hierarchy with a cycle, the
    traversal started from a key on the cycle, or from any key from which
    a cycle is reachable, exceeds every recursion depth, and so does the
    computation of the effective permissions of a user who is granted such
    a key. *)
Theorem resolver_returns_on_acyclic_hierarchy :
  (forall st,
      connected st = true ->
      acyclic (tables st) ->
      (forall permission,
          exists r,
            getPermissionDecendants (S (List.length (api_permissions (tables st))))
                                    st permission = Ret r) /\
      (forall userID,
          exists r,
            getUserPermissions (S (List.length (api_permissions (tables st))))
                               st userID = Ret r)) /\
  (forall st k,
      connected st = true ->
      descendant (tables st) k k ->
      forall fuel, getPermissionDecendants fuel st k = OutOfFuel) /\
  (forall st permission,
      connected st = true ->
      cycle_reachable (tables st) permission ->
      forall fuel, getPermissionDecendants fuel st permission = OutOfFuel) /\
  (forall st uid g,
      connected st = true ->
      In g (grants_of uid (tables st)) ->
      cycle_reachable (tables st) g ->
      forall fuel, getUserPermissions fuel st (Some uid) = OutOfFuel).
Proof.
  split; [|split; [|split]].
  - intros st Hc Hacyc. split.
    + intros permission. apply getPermissionDecendants_returns; assumption.
    + intros [uid|].
      * destruct (@getUserPermissions_returns st uid Hc Hacyc) as [perms Hp]. eauto.
      * exists None. reflexivity.
  - intros st k Hc Hkk fuel. apply traversal_of_a_cycle_runs_out; [exact Hc|].
    exists k. auto.
  - intros st permission Hc Hcyc fuel.
    apply traversal_of_a_cycle_runs_out; assumption.
  - intros st uid g Hc Hg Hcyc fuel.
    eapply permissions_over_a_cycle_run_out; eauto.
Qed.

Lemma resolver_returns_on_acyclic_hierarchy_witness :
  (exists r, getPermissionDecendants 4 st0 "reports" = Ret r) /\
  (exists r, getUserPermissions 4 st0 (Some 7%Z) = Ret r) /\
  (forall fuel, getPermissionDecendants fuel cyclic_st "reports" = OutOfFuel).
Proof.
  destruct (proj1 resolver_returns_on_acyclic_hierarchy st0 eq_refl
              (ranked_acyclic sample_hierarchy_ranked)) as [Hd Hu].
  split; [exact (Hd "reports")|]. split; [exact (Hu (Some 7%Z))|].
  exact (proj1 (proj2 resolver_returns_on_acyclic_hierarchy)
               cyclic_st "reports" eq_refl sample_cycle).
Defined.

(** C6 as stated fails: on a hierarchy where two keys name each other as
    parent, the traversal re-expands the key it started from and never
    returns, from either key and with any budget. *)
Lemma cyclic_hierarchy_is_expanded_forever :
  (forall fuel, getPermissionDecendants fuel cyclic_st "reports" = OutOfFuel) /\
  (forall fuel, getPermissionDecendants fuel cyclic_st "reports.export" = OutOfFuel).
Proof.
  split; intros fuel; apply cyclic_traversal_runs_out.
Qed.

(* ------------------------------------------------------------------ *)
(** * Login and session establishment *)
(* ------------------------------------------------------------------ *)

Lemma bind_Ret_inv :
  forall (A B : Type) (m : M A) (k : A -> M B) st b st',
    bind m k st = (Ret b, st') ->
    exists a st1, m st = (Ret a, st1) /\ k a st1 = (Ret b, st').
Proof.
  intros A B m k st b st' H. unfold bind in H.
  destruct (m st) as [[a | e | |] st1]; try discriminate. eauto.
Qed.

Lemma reading_select_inv :
  forall (A : Type) (f : Tables -> A) st a st1,
    reading (select f) st = (Ret a, st1) ->
    connected st = true /\ a = f (tables st) /\ st1 = st.
Proof.
  intros A f st a st1 H. unfold reading, select in H.
  destruct (connected st); inversion H; auto.
Qed.

Lemma query_inv :
  forall (A : Type) (run : Tables -> A * Tables) st a st1,
    query run st = (Ret a, st1) ->
    connected st = true /\ a = fst (run (tables st)) /\
    st1 = with_tables st (snd (run (tables st))).
Proof.
  intros A run st a st1 H. unfold query in H.
  destruct (connected st); [|discriminate].
  destruct (run (tables st)) as [a' t']. inversion H; auto.
Qed.

Ltac bind_step H a st Ha :=
  apply bind_Ret_inv in H; destruct H as (a & st & Ha & H).

Ltac orderly_failure H :=
  unfold fail_with, ret in H; inversion H; subst; discriminate.

Lemma first_of_filter :
  forall (A : Type) (f : A -> bool) (l : list A) (x : A),
    firstn 1 (filter f l) = [x] -> In x l /\ f x = true.
Proof.
  intros A f l x H. apply filter_In.
  destruct (filter f l) as [|y rest]; [discriminate|].
  cbn in H. inversion H; subst. now left.
Qed.

Section StoredToken.
Variables (sid : Z) (tok : string) (rows : list SessionRow) (fresh : SessionRow).
Hypothesis Hid : forall row, In row rows -> ses_id row <> sid.
Hypothesis Htok : forall row, In row rows -> ses_token row <> Some tok.
Hypothesis Hfresh : ses_id fresh = sid.

Lemma store_token_other :
  forall r, ses_id r <> sid -> store_token sid tok r = r.
Proof.
  intros r H. unfold store_token.
  destruct (Z.eqb_spec (ses_id r) sid); [contradiction | reflexivity].
Qed.

Lemma store_token_fresh :
  ses_id (store_token sid tok fresh) = sid /\
  ses_token (store_token sid tok fresh) = Some tok /\
  ses_user_id (store_token sid tok fresh) = ses_user_id fresh.
Proof.
  unfold store_token. rewrite Hfresh, Z.eqb_refl. cbn. auto.
Qed.

(** After the login's two statements, the new row is the only one with
    the new id. *)
Lemma only_row_with_id :
  filter (fun r => Z.eqb (ses_id r) sid)
         (map (store_token sid tok) (rows ++ [fresh])%list)
  = [store_token sid tok fresh].
Proof.
  rewrite map_app, filter_app. cbn [map filter].
  destruct store_token_fresh as (-> & _). rewrite Z.eqb_refl.
  replace (filter _ (map _ rows)) with (@nil SessionRow); [reflexivity|].
  clear Hfresh Htok. induction rows as [|r rest IH]; [reflexivity|]. cbn.
  rewrite (store_token_other r) by (apply Hid; now left).
  destruct (Z.eqb_spec (ses_id r) sid) as [E|_].
  - exfalso. apply (Hid r); [now left | exact E].
  - apply IH; intros; apply Hid; now right.
Qed.

(** ... and the only one with the new token. *)
Lemma only_row_with_token :
  filter (token_is tok) (map (store_token sid tok) (rows ++ [fresh])%list)
  = [store_token sid tok fresh].
Proof.
  rewrite map_app, filter_app. cbn [map filter].
  unfold token_is at 2. destruct store_token_fresh as (_ & -> & _).
  rewrite String.eqb_refl.
  replace (filter _ (map _ rows)) with (@nil SessionRow); [reflexivity|].
  clear Hfresh. induction rows as [|r rest IH]; [reflexivity|]. cbn.
  rewrite (store_token_other r) by (apply Hid; now left).
  unfold token_is at 1. destruct (ses_token r) as [t0|] eqn:E.
  - destruct (String.eqb_spec t0 tok) as [->|_].
    + exfalso. apply (Htok r); [now left | exact E].
    + apply IH; intros; [apply Hid | apply Htok]; now right.
  - apply IH; intros; [apply Hid | apply Htok]; now right.
Qed.

(** A store that holds those rows answers [establishSession(tok)] with the
    new session. *)
Lemma establish_stored_token :
  forall st,
    connected st = true ->
    api_sessions (tables st) = map (store_token sid tok) (rows ++ [fresh])%list ->
    exists s,
      fst (establishSession tok st) = Ret (Some s) /\
      session_id s = sid /\ user_id s = ses_user_id fresh /\ token s = Some tok.
Proof.
  intros st Hc Hrows.
  destruct store_token_fresh as (Hi & Ht & Hu).
  assert (Hproj : exists s, session_projection (tables st) sid = Some s /\
                            session_id s = sid /\ user_id s = ses_user_id fresh /\
                            token s = Some tok).
  { unfold session_projection. rewrite Hrows, only_row_with_id.
    eexists. split; [reflexivity|]. cbn. auto. }
  destruct Hproj as (s & Hs & Hsid & Huid & Hstok).
  exists s. split; [|auto].
  cbv beta iota zeta delta [establishSession bind reading select getSession
                              clock query ret].
  rewrite Hc, Hrows, only_row_with_token. cbv beta iota.
  rewrite Hc, Hi, Hs. cbv beta iota. rewrite Hc. reflexivity.
Qed.

End StoredToken.

(** What a successful run of the login handler leaves behind. *)
Lemma login_handler_success :
  forall rt args st1 hr st2,
    login_handler rt args st1 = (Ret (Some hr), st2) ->
    success hr = true ->
    next_id_unused (tables st1) ->
    exists user s,
      In user (api_users (tables st1)) /\
      column_is (usr_login_name user) (lookup "username" (h_parms args)) = true /\
      hr = successSession (JObj [("session", session_to_js s)]) (Some s) /\
      user_id s = usr_id user /\
      token s = Some (uuid_v4 rt (draws st1)) /\
      connected st2 = true /\
      api_sessions (tables st2)
      = map (store_token (next_session_id (tables st1)) (uuid_v4 rt (draws st1)))
            (api_sessions (tables st1) ++
             [new_session (next_session_id (tables st1)) (usr_id user) (now st1)
                          (req_ip (h_request args))
                          (client_user_agent (h_request args))])%list.
Proof.
  intros rt args st1 hr st2 H Hok Hwf.
  unfold login_handler in H. cbv zeta in H.
  bind_step H userResult sa Hu.
  apply reading_select_inv in Hu. destruct Hu as (Hc & -> & ->).
  destruct (firstn 1 _) as [|user [|]] eqn:Huser in H; try orderly_failure H.
  destruct (usr_active user) eqn:Hactive; cbn [negb] in H; [|orderly_failure H].
  bind_step H loginTokenResult sb Hl.
  apply reading_select_inv in Hl. destruct Hl as (_ & -> & ->).
  destruct (firstn 1 _) as [|row [|]] eqn:Hrow in H; try orderly_failure H.
  bind_step H presented sc Hp.
  destruct (negb _) eqn:Hpw in H; [orderly_failure H|].
  assert (sc = st1) as ->.
  { destruct (lookup "password_hash" (h_parms args)); inversion Hp; reflexivity. }
  bind_step H u1 sd Hd. apply query_inv in Hd. destruct Hd as (_ & _ & ->).
  bind_step H nw se He. inversion He; subst nw se. clear He.
  bind_step H sessionID sf Hf. apply query_inv in Hf. destruct Hf as (_ & -> & ->).
  bind_step H sessionToken sg Hg. inversion Hg; subst sessionToken sg. clear Hg.
  bind_step H u2 sh Hh. apply query_inv in Hh. destruct Hh as (_ & _ & ->).
  bind_step H loadedSession si Hi. apply reading_select_inv in Hi.
  destruct Hi as (_ & -> & ->).
  cbn in H. unfold session_projection in H. cbn [api_sessions set_sessions] in H.
  rewrite (@only_row_with_id
             (next_session_id (tables st1)) (uuid_v4 rt (draws st1))
             (api_sessions (tables st1))
             (new_session (next_session_id (tables st1)) (usr_id user) (now st1)
                          (req_ip (h_request args))
                          (client_user_agent (h_request args)))
             Hwf eq_refl) in H.
  bind_step H u3 sj Hj. apply query_inv in Hj. destruct Hj as (_ & _ & ->).
  unfold ret in H. inversion H; subst hr st2. clear H.
  apply first_of_filter in Huser. destruct Huser as [Hin Hname].
  eexists user, _. repeat split; try eassumption; try reflexivity.
  - cbn. unfold store_token. cbn. rewrite Z.eqb_refl. reflexivity.
  - cbn. unfold store_token. cbn. rewrite Z.eqb_refl. reflexivity.
Qed.

(** C8.  When a login through the pipeline reports success (the session
    store's next id and the drawn token being unused, as auto-increment
    and the uuid generator provide), the response carries a session with a
    token, and [establishSession] of that token on the store the login
    left behind returns a session of the user that logged in. *)
Theorem login_then_establish_round_trip :
  forall (rt : Runtime) (fuel : nat) (methods : list APIMethod)
         (parms : list (string * jsval)) (session : option Session)
         (request : Request) (st st' : State) (r : APIResponse)
         (parms' : list (string * jsval)),
    tryExecuteMethod rt (S fuel) methods (login_method rt) parms session request st
    = (Ret (r, parms'), st') ->
    success r = true ->
    next_id_unused (tables st) ->
    token_unused (uuid_v4 rt (draws st)) (tables st) ->
    exists user s tok s',
      In user (api_users (tables st)) /\
      column_is (usr_login_name user) (lookup "username" parms') = true /\
      r_session r = Val s /\
      token s = Some tok /\
      user_id s = usr_id user /\
      fst (establishSession tok st') = Ret (Some s') /\
      user_id s' = usr_id user /\
      token s' = Some tok.
Proof.
  intros rt fuel methods parms session request st st' r parms' H Hok Hwf Hfresh.
  rewrite tryExecuteMethod_S in H.
  destruct (successful_response_comes_from_handler _ _ _ _ _ _ _ _ H Hok)
    as (v & hr & st2 & _ & _ & Hrun & Hs & -> & ->).
  cbn [login_method session_method handler transaction run_handler] in Hrun.
  cbn [login_method session_method transaction].
  destruct (login_handler_success _ _ _ Hrun Hs Hwf)
    as (user & s & Hin & Hname & -> & Huid & Htok & Hc2 & Hrows).
  destruct (@establish_stored_token
              (next_session_id (tables st)) (uuid_v4 rt (draws st))
              (api_sessions (tables st))
              (new_session (next_session_id (tables st)) (usr_id user) (now st)
                           (req_ip request) (client_user_agent request))
              Hwf Hfresh eq_refl (with_snapshot st2 None) Hc2 Hrows)
    as (s' & Hest & _ & Hu' & Ht').
  exists user, s, (uuid_v4 rt (draws st)), s'.
  repeat split; auto.
Qed.

Lemma login_then_establish_round_trip_witness :
  exists user s tok s',
    In user (api_users tables0) /\
    column_is (usr_login_name user) (lookup "username" login_parms) = true /\
    r_session (successSession (JObj [("session", session_to_js alice_login)])
                              (Some alice_login)) = Val s /\
    token s = Some tok /\
    user_id s = usr_id user /\
    fst (establishSession tok
           (snd (tryExecuteMethod rt0 1 (default_methods rt0) (login_method rt0)
                                  login_parms None curl st0)))
    = Ret (Some s') /\
    user_id s' = usr_id user /\
    token s' = Some tok.
Proof.
  apply (@login_then_establish_round_trip
           rt0 0%nat (default_methods rt0) login_parms None curl st0
           (snd (tryExecuteMethod rt0 1 (default_methods rt0) (login_method rt0)
                                  login_parms None curl st0))
           (successSession (JObj [("session", session_to_js alice_login)])
                           (Some alice_login))
           login_parms).
  - vm_compute. reflexivity.
  - reflexivity.
  - intros row [<- | []]. discriminate.
  - intros row [<- | []]. discriminate.
Defined.

(* ------------------------------------------------------------------ *)
(** * More on the validator *)
(* ------------------------------------------------------------------ *)

(** ** Rounding to a double *)

Lemma div_nearest_even_1 : forall a, div_nearest_even a 1 = a.
Proof.
  intros a. unfold div_nearest_even. rewrite Z.mod_1_r, Z.div_1_r. reflexivity.
Qed.

Lemma div_nearest_even_nonneg :
  forall a b, (0 <= a)%Z -> (0 < b)%Z -> (0 <= div_nearest_even a b)%Z.
Proof.
  intros a b Ha Hb. unfold div_nearest_even.
  pose proof (Z.div_pos a b Ha Hb).
  destruct (2 * (a mod b) ?= b)%Z; [destruct (Z.even (a / b))| |]; lia.
Qed.

Lemma Qred_of_integer : forall n, Qred (inject_Z n) = inject_Z n.
Proof.
  intros n. unfold Qred, inject_Z.
  pose proof (Z.ggcd_gcd n 1) as Hg.
  pose proof (Z.ggcd_correct_divisors n 1) as Hd.
  destruct (Z.ggcd n 1) as [g [aa bb]]. cbn [fst snd] in *.
  rewrite Z.gcd_1_r in Hg. subst g. destruct Hd as [Ha Hb].
  rewrite Z.mul_1_l in Ha, Hb. subst aa bb. reflexivity.
Qed.

Lemma Qred_scaled :
  forall n c, (0 < c)%Z -> Qred ((n * c) # Z.to_pos c) = inject_Z n.
Proof.
  intros n c Hc. rewrite <- (Qred_of_integer n). apply Qred_complete.
  unfold Qeq, inject_Z. cbn [Qnum Qden]. rewrite Z2Pos.id by exact Hc. lia.
Qed.

(** The integers below [2 ^ 53] are doubles: rounding leaves them alone. *)
Lemma round_double_safe_integer :
  forall n, (0 <= n < 2 ^ 53)%Z -> round_double (inject_Z n) = Finite (inject_Z n).
Proof.
  intros n [Hlo Hhi]. unfold round_double, inject_Z. cbn [Qnum Qden].
  destruct n as [|p|p]; [reflexivity| |lia].
  unfold round_positive, floor_log2.
  change (Z.log2 1) with 0%Z. rewrite Z.sub_0_r.
  pose proof (Z.log2_nonneg (Z.pos p)) as Hnn.
  pose proof (Z.log2_spec (Z.pos p) (Pos2Z.is_pos p)) as [Hspec _].
  assert (Hlt : (Z.log2 (Z.pos p) < 53)%Z)
    by (apply Z.log2_lt_pow2; [apply Pos2Z.is_pos | exact Hhi]).
  destruct (Z.leb_spec 0 (Z.log2 (Z.pos p))) as [_|]; [|lia].
  rewrite Z.mul_1_l.
  destruct (Z.leb_spec (2 ^ Z.log2 (Z.pos p)) (Z.pos p)) as [_|]; [|lia].
  rewrite Z.max_l by lia.
  destruct (Z.leb_spec 0 (Z.log2 (Z.pos p) - 52)) as [Hu|Hu].
  - assert (E : (Z.log2 (Z.pos p) - 52 = 0)%Z) by lia. rewrite E.
    change (2 ^ 0)%Z with 1%Z. rewrite Z.mul_1_l, div_nearest_even_1, Z.mul_1_r.
    destruct (Z.leb_spec (2 ^ 1024) (Z.pos p)) as [Hbig|_]; [|reflexivity].
    exfalso. assert (2 ^ 53 < 2 ^ 1024)%Z by (apply Z.pow_lt_mono_r; lia). lia.
  - rewrite div_nearest_even_1. f_equal. apply Qred_scaled.
    apply Z.pow_pos_nonneg; lia.
Qed.

(** Rounding a number that is not negative gives a number that is not
    negative, or the positive infinity; never NaN. *)
Lemma round_double_of_nonneg :
  forall x, (0 <= Qnum x)%Z ->
            (exists q, round_double x = Finite q /\ (0 <= q)%Q) \/
            round_double x = Infinite false.
Proof.
  intros x Hx. unfold round_double. destruct (Qnum x) as [|p|p] eqn:Hn; [| |lia].
  - left. exists 0%Q. split; [reflexivity | apply Qle_refl].
  - unfold round_positive.
    set (u := Z.max (floor_log2 (Z.pos p) (Z.pos (Qden x)) - 52) (-1074)).
    destruct (Z.leb_spec 0 u) as [Hu|Hu].
    + destruct (2 ^ 1024 <=? _)%Z; [now right|]. left. eexists. split; [reflexivity|].
      assert (H : (0 <= div_nearest_even (Z.pos p) (Z.pos (Qden x) * 2 ^ u) * 2 ^ u)%Z).
      { apply Z.mul_nonneg_nonneg; [|apply Z.pow_nonneg; lia].
        apply div_nearest_even_nonneg; [lia|].
        apply Z.mul_pos_pos; [apply Pos2Z.is_pos | apply Z.pow_pos_nonneg; lia]. }
      revert H. generalize (div_nearest_even (Z.pos p) (Z.pos (Qden x) * 2 ^ u) * 2 ^ u)%Z.
      intros v Hv. unfold Qle, inject_Z. cbn [Qnum Qden]. lia.
    + left. eexists. split; [reflexivity|].
      match goal with |- (_ <= Qred ?y)%Q => change (Qred (inject_Z 0) <= Qred y)%Q end.
      apply Qred_le.
      assert (H : (0 <= div_nearest_even (Z.pos p * 2 ^ (- u)) (Z.pos (Qden x)))%Z).
      { apply div_nearest_even_nonneg; [|apply Pos2Z.is_pos].
        apply Z.mul_nonneg_nonneg; [lia | apply Z.pow_nonneg; lia]. }
      revert H. generalize (div_nearest_even (Z.pos p * 2 ^ (- u)) (Z.pos (Qden x))).
      intros v Hv. unfold Qle, inject_Z. cbn [Qnum Qden]. lia.
Qed.

Lemma round_double_is_a_number : forall x, round_double x <> NaN.
Proof.
  intros x. unfold round_double, round_positive.
  destruct (Qnum x); [discriminate| |];
    repeat match goal with
           | |- context [if ?c then _ else _] => destruct c
           end; discriminate.
Qed.

(** Roundings computed: the first integer that is not a double, the
    largest power of ten that is one, a text too long for a double, a
    decimal fraction, and the negative zero. *)
Lemma rounding_examples :
  parseInt "9007199254740993" = Finite (inject_Z 9007199254740992) /\
  parseInt ("1" ++ zeros 22) = Finite (inject_Z (10 ^ 22)) /\
  parseInt ("18" ++ zeros 307) = Infinite false /\
  Number_of "0.1" = Finite (3602879701896397 # 36028797018963968) /\
  Number_of "-0" = Finite 0%Q.
Proof. vm_compute. repeat split. Qed.

(** ** The type switch *)

Lemma matches_Fail : forall s, matches Fail s = false.
Proof. induction s as [|c s IH]; [reflexivity | exact IH]. Qed.

Lemma matches_star_digit :
  forall s, matches (Star digit) s = string_forall is_digit s.
Proof.
  induction s as [|c s IH]; [reflexivity|].
  cbn [matches deriv string_forall]. unfold digit, rng at 1.
  cbn [deriv]. fold digit. unfold is_digit at 1.
  destruct (between "0" "9" c); cbn [cat andb].
  - exact IH.
  - apply matches_Fail.
Qed.

Lemma matches_int_re :
  forall s,
    matches Patterns.int_re s
    = negb (String.eqb s "") && string_forall is_digit s.
Proof.
  intros [|c s]; [reflexivity|].
  unfold Patterns.int_re, plus. cbn [matches deriv nullable].
  unfold digit at 1, rng. cbn [deriv nullable]. fold digit.
  unfold is_digit at 1. cbn [string_forall String.eqb negb andb].
  destruct (between "0" "9" c); cbn [cat alt andb].
  - apply matches_star_digit.
  - apply matches_Fail.
Qed.

Lemma digit_val_nonneg :
  forall c, is_digit c = true -> (0 <= digit_val c)%Z.
Proof.
  intros c H. unfold is_digit, between in H.
  apply andb_prop in H. destruct H as [H _]. apply Nat.leb_le in H.
  change (nat_of_ascii "0") with 48%nat in H.
  unfold digit_val. lia.
Qed.

Lemma digits_val_nonneg :
  forall s acc,
    string_forall is_digit s = true -> (0 <= acc)%Z -> (0 <= digits_val acc s)%Z.
Proof.
  induction s as [|c s IH]; intros acc H Hacc;
    cbn [digits_val string_forall] in *; [exact Hacc|].
  apply andb_prop in H. destruct H as [Hc Hs].
  apply IH; [exact Hs|]. pose proof (@digit_val_nonneg c Hc). lia.
Qed.

(** X1.  The tags [int] and [integer] accept exactly the non-empty texts
    made of decimal digits (a sign, a blank or a decimal point makes the
    type check fail) and turn them into the double nearest to the integer
    that the digits denote: that integer itself when it is below [2 ^ 53],
    and otherwise a number that is not negative, or [Infinity]. *)
Theorem int_accepts_exactly_digit_strings :
  forall (rt : Runtime) (ty text : string),
    In ty ["int"; "integer"] ->
    fst (typeCheck rt ty text)
    = negb (String.eqb text "") && string_forall is_digit text /\
    (fst (typeCheck rt ty text) = true ->
     snd (typeCheck rt ty text)
     = JNumber (round_double (inject_Z (digits_val 0 text))) /\
     (0 <= digits_val 0 text)%Z /\
     ((digits_val 0 text < 2 ^ 53)%Z ->
      snd (typeCheck rt ty text) = JNum (inject_Z (digits_val 0 text))) /\
     ((exists q, snd (typeCheck rt ty text) = JNum q /\ (0 <= q)%Q) \/
      snd (typeCheck rt ty text) = JNumber (Infinite false))) /\
    (fst (typeCheck rt ty text) = false ->
     snd (typeCheck rt ty text) = JStr text).
Proof.
  intros rt ty text Hty.
  assert (E : typeCheck rt ty text
              = if matches Patterns.int_re text
                then (true, JNumber (parseInt text)) else (false, JStr text))
    by (destruct Hty as [<- | [<- | []]]; reflexivity).
  rewrite E, <- matches_int_re.
  destruct (matches Patterns.int_re text) eqn:Hm; cbn [fst snd].
  - split; [reflexivity|]. split; [|discriminate]. intros _.
    rewrite matches_int_re in Hm. apply andb_prop in Hm.
    assert (Hnn : (0 <= digits_val 0 text)%Z)
      by (apply digits_val_nonneg; [tauto | lia]).
    unfold parseInt.
    split; [reflexivity|]. split; [exact Hnn|]. split.
    + intros Hsafe. now rewrite round_double_safe_integer.
    + destruct (@round_double_of_nonneg (inject_Z (digits_val 0 text)) Hnn)
        as [(q & -> & Hq) | ->]; [left; eauto | now right].
  - split; [reflexivity|]. split; [discriminate | reflexivity].
Qed.

Lemma lt_num_JNum :
  forall rt q lo, lt_num rt (JNum q) lo = false -> (lo <= q)%Q.
Proof.
  intros rt q lo H. unfold lt_num in H. cbn in H.
  apply negb_false_iff in H. apply Qle_bool_iff. exact H.
Qed.

Lemma gt_num_JNum :
  forall rt q hi, gt_num rt (JNum q) hi = false -> (q <= hi)%Q.
Proof.
  intros rt q hi H. unfold gt_num in H. cbn in H.
  apply negb_false_iff in H. apply Qle_bool_iff. exact H.
Qed.

(** A verdict of [rangeCheck] that passes carries the value it was given,
    and that value keeps every bound the spec declares. *)
Lemma rangeCheck_passed :
  forall rt parm v,
    passed (rangeCheck rt parm v) = true ->
    rangeCheck rt parm v = verdict_value v /\
    bound_violated (p_min parm) (lt_num rt v) = false /\
    bound_violated (p_max parm) (gt_num rt v) = false /\
    bound_violated (p_maxLength parm) (gt_num rt (length_of v)) = false /\
    bound_violated (p_minLength parm) (lt_num rt (length_of v)) = false /\
    allowed parm v = true.
Proof.
  intros rt parm v H. unfold rangeCheck in *.
  destruct (bound_violated (p_min parm) (lt_num rt v)); [discriminate|].
  destruct (bound_violated (p_max parm) (gt_num rt v)); [discriminate|].
  destruct (bound_violated (p_maxLength parm) (gt_num rt (length_of v)));
    [discriminate|].
  destruct (bound_violated (p_minLength parm) (lt_num rt (length_of v)));
    [discriminate|].
  destruct (allowed parm v); [|discriminate].
  repeat split.
Qed.

(** X3.  Whatever [checkParameter] accepts for a present input is either the
    null sentinel (the value was in [interpretAsNull]) or the coerced
    value, which then passed the type check and lies within the declared
    bounds: a number between [min] and [max], a text whose length is
    between [minLength] and [maxLength], and a member of [allowedValues]
    when the spec has that list. *)
Theorem accepted_value_is_within_bounds :
  forall (rt : Runtime) (parm : APIParameter) (parms : list (string * jsval))
         (r : VerificationResult),
    has_key (p_key parm) parms = true ->
    is_nullish (lookup (p_key parm) parms) = false ->
    checkParameter rt parm parms = Some r ->
    passed r = true ->
    exists ty v,
      p_type parm = Some ty /\
      newValue r = Some v /\
      (v = JNull \/
       (v = coerced rt ty (lookup (p_key parm) parms) /\
        fst (typeCheck rt ty (trim (ToString rt (lookup (p_key parm) parms)))) = true /\
        (forall q lo, v = JNum q -> p_min parm = Some lo -> (lo <= q)%Q) /\
        (forall q hi, v = JNum q -> p_max parm = Some hi -> (q <= hi)%Q) /\
        (forall s n, v = JStr s -> p_maxLength parm = Some n ->
                     (inject_Z (Z.of_nat (String.length s)) <= n)%Q) /\
        (forall s n, v = JStr s -> p_minLength parm = Some n ->
                     (n <= inject_Z (Z.of_nat (String.length s)))%Q) /\
        (forall vs, p_allowedValues parm = Some vs -> includes vs v = true))).
Proof.
  intros rt parm parms r Hkey Hval H Hok.
  unfold checkParameter in H. rewrite Hkey, Hval in H. cbn [negb orb] in H.
  destruct (p_type parm) as [ty|] eqn:Hty; [|discriminate].
  cbv zeta in H.
  set (raw := lookup (p_key parm) parms) in *.
  destruct (match p_interpretAsNull parm with
            | Some vs => includes vs (coerced rt ty raw)
            | None => false
            end).
  { inversion H; subst r. exists ty, JNull. cbn. auto. }
  destruct (fst (typeCheck rt ty (trim (ToString rt raw)))) eqn:Htc;
    cbn [negb] in H.
  2:{ inversion H; subst r. discriminate. }
  inversion H; subst r. clear H.
  destruct (@rangeCheck_passed rt _ _ Hok) as (E & Hmin & Hmax & Hmaxl & Hminl & Hall).
  exists ty, (coerced rt ty raw). rewrite E. cbn [newValue verdict_value].
  split; [reflexivity|]. split; [reflexivity|]. right.
  split; [reflexivity|]. split; [exact Htc|].
  repeat split.
  - intros q lo Hv Hlo. rewrite Hv, Hlo in Hmin. apply (@lt_num_JNum rt _ _ Hmin).
  - intros q hi Hv Hhi. rewrite Hv, Hhi in Hmax. apply (@gt_num_JNum rt _ _ Hmax).
  - intros s n Hv Hn. rewrite Hv, Hn in Hmaxl. apply (@gt_num_JNum rt _ _ Hmaxl).
  - intros s n Hv Hn. rewrite Hv, Hn in Hminl. apply (@lt_num_JNum rt _ _ Hminl).
  - intros vs Hvs. unfold allowed in Hall. rewrite Hvs in Hall. exact Hall.
Qed.

Lemma one_of_In :
  forall names s, one_of names s = true -> In s names.
Proof.
  intros names s H. unfold one_of in H. apply existsb_exists in H.
  destruct H as (x & Hx & E). apply String.eqb_eq in E. now subst.
Qed.

(** What the type switch leaves when the check passes, tag by tag. *)
Lemma typeCheck_passed_cases :
  forall (rt : Runtime) (ty text : string),
    fst (typeCheck rt ty text) = true ->
    (In ty ["int"; "integer"; "float"; "double"] /\
     exists n, snd (typeCheck rt ty text) = JNumber n /\ n <> NaN) \/
    (In ty ["boolean"; "bool"] /\
     exists b, snd (typeCheck rt ty text) = JBool b) \/
    (In ty ["datetime"; "date"; "char"; "string"; "sha256"; "uuid"] /\
     snd (typeCheck rt ty text) = JStr text) \/
    (ty = "json" /\ JSON_parse rt text = Some (snd (typeCheck rt ty text))).
Proof.
  intros rt ty text. unfold typeCheck.
  destruct (one_of ["int"; "integer"] ty) eqn:E1.
  { apply one_of_In in E1. destruct (matches Patterns.int_re text); [|discriminate].
    intros _. left. split; [cbn in *; tauto|]. eexists. split; [reflexivity|].
    apply round_double_is_a_number. }
  destruct (one_of ["float"; "double"] ty) eqn:E2.
  { apply one_of_In in E2. destruct (matches Patterns.float_re text); [|discriminate].
    intros _. left. split; [cbn in *; tauto|]. eexists. split; [reflexivity|].
    unfold Number_of.
    repeat match goal with
           | |- context [let '(_, _) := ?x in _] => destruct x
           end.
    apply round_double_is_a_number. }
  destruct (String.eqb_spec ty "datetime") as [-> | _].
  { intros _. right. right. left. split; [cbn; tauto | reflexivity]. }
  destruct (String.eqb_spec ty "date") as [-> | _].
  { intros _. right. right. left. split; [cbn; tauto | reflexivity]. }
  destruct (one_of ["boolean"; "bool"] ty) eqn:E3.
  { apply one_of_In in E3.
    destruct (includes [JNum 1%Q; JBool true; JStr "true"; JStr "1"] (JStr text)).
    { intros _. right. left. split; [exact E3|]. exists true. reflexivity. }
    destruct (includes [JNum 0%Q; JBool false; JStr "false"; JStr "0"] (JStr text));
      [|discriminate].
    intros _. right. left. split; [exact E3|]. exists false. reflexivity. }
  destruct (String.eqb_spec ty "char") as [-> | _].
  { intros _. right. right. left. split; [cbn; tauto | reflexivity]. }
  destruct (String.eqb_spec ty "string") as [-> | _].
  { intros _. right. right. left. split; [cbn; tauto | reflexivity]. }
  destruct (String.eqb_spec ty "sha256") as [-> | _].
  { intros _. right. right. left. split; [cbn; tauto | reflexivity]. }
  destruct (String.eqb_spec ty "uuid") as [-> | _].
  { intros _. right. right. left. split; [cbn; tauto | reflexivity]. }
  destruct (String.eqb_spec ty "json") as [-> | _]; [|discriminate].
  destruct (JSON_parse rt text) as [obj|]; [|discriminate].
  intros _. right. right. right. split; reflexivity.
Qed.

(** X2.  The value that [checkParameter] hands on for a present input has
    the type of the parameter's tag.  It is [null] only when the coerced
    value was found in [interpretAsNull]; otherwise it is a number (never
    NaN) for the numeric tags, a boolean for the boolean tags, the trimmed
    text of the input for the textual tags, and for [json] the parsed
    document, except that a document that is [null] is replaced by the raw
    input, as it was sent. *)
Theorem accepted_value_has_the_type_of_its_tag :
  forall (rt : Runtime) (parm : APIParameter) (parms : list (string * jsval))
         (r : VerificationResult),
    has_key (p_key parm) parms = true ->
    is_nullish (lookup (p_key parm) parms) = false ->
    checkParameter rt parm parms = Some r ->
    passed r = true ->
    exists ty v,
      p_type parm = Some ty /\
      newValue r = Some v /\
      ((v = JNull /\
        exists vs, p_interpretAsNull parm = Some vs /\
                   includes vs (coerced rt ty (lookup (p_key parm) parms)) = true) \/
       (In ty ["int"; "integer"; "float"; "double"] /\
        exists n, v = JNumber n /\ n <> NaN) \/
       (In ty ["boolean"; "bool"] /\ exists b, v = JBool b) \/
       (In ty ["datetime"; "date"; "char"; "string"; "sha256"; "uuid"] /\
        v = JStr (trim (ToString rt (lookup (p_key parm) parms)))) \/
       (ty = "json" /\
        exists doc,
          JSON_parse rt (trim (ToString rt (lookup (p_key parm) parms))) = Some doc /\
          ((doc <> JNull /\ v = doc) \/
           (doc = JNull /\ v = lookup (p_key parm) parms)))).
Proof.
  intros rt parm parms r Hkey Hval H Hok.
  unfold checkParameter in H. rewrite Hkey, Hval in H. cbn [negb orb] in H.
  destruct (p_type parm) as [ty|] eqn:Hty; [|discriminate].
  cbv zeta in H.
  set (raw := lookup (p_key parm) parms) in *.
  set (text := trim (ToString rt raw)) in *.
  destruct (match p_interpretAsNull parm with
            | Some vs => includes vs (coerced rt ty raw)
            | None => false
            end) eqn:Hhit.
  { injection H as <-. exists ty, JNull. split; [reflexivity|].
    split; [reflexivity|]. left. split; [reflexivity|].
    destruct (p_interpretAsNull parm) as [vs|]; [|discriminate]. exists vs. auto. }
  destruct (fst (typeCheck rt ty text)) eqn:Htc; cbn [negb] in H.
  2:{ injection H as <-. discriminate. }
  injection H as <-.
  destruct (@rangeCheck_passed rt _ _ Hok) as (E & _).
  exists ty, (coerced rt ty raw). rewrite E. cbn [newValue verdict_value].
  split; [reflexivity|]. split; [reflexivity|]. right.
  unfold coerced. cbv zeta. fold text.
  destruct (typeCheck_passed_cases rt ty text Htc)
    as [(Ht & n & -> & Hn) | [(Ht & b & ->) | [(Ht & ->) | (-> & Hdoc)]]].
  - left. split; [exact Ht|]. exists n. auto.
  - right. left. split; [exact Ht|]. exists b. auto.
  - right. right. left. split; [exact Ht | reflexivity].
  - right. right. right. split; [reflexivity|].
    exists (snd (typeCheck rt "json" text)). split; [exact Hdoc|].
    destruct (snd (typeCheck rt "json" text));
      try (left; split; [discriminate | reflexivity]).
    right. split; reflexivity.
Qed.

Lemma lookup_assign_same :
  forall k v l, lookup k (assign k v l) = v.
Proof.
  intros k v l. induction l as [|[k' v'] l IH]; cbn.
  - now rewrite String.eqb_refl.
  - destruct (String.eqb k k') eqn:E; cbn; rewrite E; [reflexivity | exact IH].
Qed.

Lemma lookup_assign_other :
  forall k k' v l, k <> k' -> lookup k (assign k' v l) = lookup k l.
Proof.
  intros k k' v l Hne. induction l as [|[k0 v0] l IH]; cbn.
  - destruct (String.eqb_spec k k'); [contradiction | reflexivity].
  - destruct (String.eqb_spec k' k0) as [->|Hk0]; cbn.
    + destruct (String.eqb_spec k k0); [contradiction | reflexivity].
    + destruct (String.eqb k k0); [reflexivity | exact IH].
Qed.

Lemma has_key_assign_other :
  forall k k' v l, k <> k' -> has_key k (assign k' v l) = has_key k l.
Proof.
  intros k k' v l Hne. induction l as [|[k0 v0] l IH]; cbn.
  - destruct (String.eqb_spec k k'); [contradiction | reflexivity].
  - destruct (String.eqb_spec k' k0) as [->|Hk0]; cbn.
    + reflexivity.
    + now rewrite IH.
Qed.

(** [checkParameter] reads nothing of the input object but the spec's key. *)
Lemma checkParameter_reads_own_key :
  forall rt parm l l',
    has_key (p_key parm) l = has_key (p_key parm) l' ->
    lookup (p_key parm) l = lookup (p_key parm) l' ->
    checkParameter rt parm l = checkParameter rt parm l'.
Proof.
  intros rt parm l l' Hk Hl. unfold checkParameter. now rewrite Hk, Hl.
Qed.

(** A verdict of [checkParameter] that passes always carries a value. *)
Lemma passed_verdict_has_value :
  forall rt parm parms r,
    checkParameter rt parm parms = Some r -> passed r = true ->
    exists v, newValue r = Some v.
Proof.
  intros rt parm parms r H Hok. unfold checkParameter in H.
  destruct (negb (has_key (p_key parm) parms) || is_nullish (lookup (p_key parm) parms)).
  - destruct (p_optional parm); inversion H; subst r; [cbn; eauto | discriminate].
  - destruct (p_type parm) as [ty|]; [|discriminate]. cbv zeta in H.
    destruct (match p_interpretAsNull parm with
              | Some vs => includes vs _ | None => false end).
    + inversion H; subst r. cbn. eauto.
    + destruct (negb _).
      * inversion H; subst r. discriminate.
      * inversion H; subst r.
        destruct (@rangeCheck_passed rt _ _ Hok) as (E & _). rewrite E. cbn. eauto.
Qed.

(** X4.  When the parameter loop of [canBeExecuted] passes for specs with
    pairwise distinct keys, every spec was checked against the caller's
    original input, and the object handed on holds, under each spec's key,
    the value of that check (the parsed value, the default of a missing
    optional parameter, or [null]); every other property is untouched. *)
Theorem parsed_values_are_written_back :
  forall (rt : Runtime) (specs : list APIParameter)
         (parms parms' : list (string * jsval)) (v : VerificationResult),
    NoDup (map p_key specs) ->
    checkParameters rt specs parms = Ret (v, parms') ->
    passed v = true ->
    (forall parm, In parm specs ->
       exists r nv,
         checkParameter rt parm parms = Some r /\ passed r = true /\
         newValue r = Some nv /\ lookup (p_key parm) parms' = nv) /\
    (forall k, ~ In k (map p_key specs) -> lookup k parms' = lookup k parms).
Proof.
  intros rt specs. induction specs as [|parm rest IH];
    intros parms parms' v Hnd H Hok; cbn [checkParameters] in H.
  - inversion H; subst. split; [intros ? [] | reflexivity].
  - inversion Hnd as [|? ? Hnotin Hnd']; subst.
    destruct (checkParameter rt parm parms) as [r|] eqn:Hr; [|discriminate].
    destruct (passed r) eqn:Hpr; cbn [negb] in H.
    2:{ inversion H; subst. congruence. }
    destruct (passed_verdict_has_value _ _ _ Hr Hpr) as [nv Hnv].
    rewrite Hnv in H.
    destruct (IH _ _ _ Hnd' H Hok) as [IHspecs IHother].
    split.
    + intros parm' [<- | Hin].
      * exists r, nv. repeat split; auto.
        rewrite (IHother _ Hnotin). apply lookup_assign_same.
      * destruct (IHspecs _ Hin) as (r' & nv' & Hr' & Hp' & Hn' & Hl').
        exists r', nv'. repeat split; auto.
        rewrite <- Hr'. apply checkParameter_reads_own_key.
        -- symmetry. apply has_key_assign_other.
           intros E. apply Hnotin. rewrite <- E. now apply in_map.
        -- symmetry. apply lookup_assign_other.
           intros E. apply Hnotin. rewrite <- E. now apply in_map.
    + intros k Hk. cbn [map In] in Hk.
      rewrite (IHother k) by tauto.
      apply lookup_assign_other. intros E. apply Hk. now left.
Qed.

Lemma fixed_width_positive_not_nullable :
  forall r n, fixed_width r n -> n <> 0%nat -> nullable r = false.
Proof.
  intros r n H. induction H as [| p | r1 r2 a b H1 IH1 H2 IH2 | r1 r2 n H1 IH1 H2 IH2];
    intros Hn; cbn.
  - contradiction.
  - reflexivity.
  - destruct a as [|a].
    + rewrite (IH2 Hn). apply andb_false_r.
    + rewrite IH1 by discriminate. reflexivity.
  - rewrite (IH1 Hn), (IH2 Hn). reflexivity.
Qed.

Lemma fixed_width_not_Fail : forall r n, fixed_width r n -> r <> Fail.
Proof. intros r n H E. subst. inversion H. Qed.

(** A derivative of a fixed-width pattern is dead or one character
    narrower. *)
Lemma fixed_width_deriv :
  forall r n c,
    fixed_width r n ->
    deriv c r = Fail \/ exists m, n = S m /\ fixed_width (deriv c r) m.
Proof.
  intros r n c H.
  induction H as [| p | r1 r2 a b H1 IH1 H2 IH2 | r1 r2 n H1 IH1 H2 IH2]; cbn [deriv].
  - now left.
  - destruct (p c); [right | now left].
    exists 0%nat. split; [reflexivity | constructor].
  - assert (Hr2 : r2 <> Fail) by (eapply fixed_width_not_Fail; eauto).
    destruct IH1 as [E1 | (m1 & -> & F1)].
    + rewrite E1. cbn [cat].
      destruct (nullable r1) eqn:Hn1.
      * destruct a as [|a].
        -- cbn [alt plus Nat.add]. destruct IH2 as [E2 | (m2 & -> & F2)].
           ++ left. rewrite E2. reflexivity.
           ++ right. exists m2. split; [reflexivity|].
              destruct (deriv c r2); exact F2.
        -- rewrite (fixed_width_positive_not_nullable H1) in Hn1 by discriminate.
           discriminate.
      * now left.
    + rewrite (fixed_width_positive_not_nullable H1) by discriminate.
      right. exists (m1 + b)%nat. split; [reflexivity|].
      assert (Hcat : fixed_width (cat (deriv c r1) r2) (m1 + b)).
      { destruct (deriv c r1) eqn:Ed; try (inversion F1; fail).
        - inversion F1; subst. cbn. destruct r2; exact H2.
        - destruct r2; try contradiction; cbn; constructor; assumption.
        - destruct r2; try contradiction; cbn; constructor; assumption.
        - destruct r2; try contradiction; cbn; constructor; assumption. }
      destruct (cat (deriv c r1) r2) eqn:Ec; exact Hcat.
  - destruct IH1 as [E1 | (m1 & -> & F1)]; destruct IH2 as [E2 | (m2 & E & F2)].
    + left. rewrite E1, E2. reflexivity.
    + right. exists m2. split; [exact E|]. rewrite E1. cbn [alt].
      destruct (deriv c r2); exact F2.
    + right. exists m1. split; [reflexivity|]. rewrite E2.
      destruct (deriv c r1); exact F1.
    + right. exists m1. split; [reflexivity|]. inversion E; subst m2.
      destruct (deriv c r1) eqn:Ed1; try (inversion F1; fail);
        destruct (deriv c r2) eqn:Ed2; try (inversion F2; fail);
        cbn; constructor; assumption.
Qed.

(** A fixed-width pattern only matches texts of its width. *)
Lemma fixed_width_matches :
  forall s r n, fixed_width r n -> matches r s = true -> String.length s = n.
Proof.
  induction s as [|c s IH]; intros r n H Hm; cbn in Hm.
  - destruct n as [|n]; [reflexivity|].
    rewrite (fixed_width_positive_not_nullable H) in Hm by discriminate.
    discriminate.
  - destruct (fixed_width_deriv c H) as [E | (m & -> & F)].
    + rewrite E, matches_Fail in Hm. discriminate.
    + cbn. f_equal. eapply IH; eauto.
Qed.

Lemma fixed_width_rep :
  forall n p, n <> 0%nat -> fixed_width (rep n (Cls p)) n.
Proof.
  induction n as [|[|n] IH]; intros p Hn.
  - contradiction.
  - constructor.
  - change (rep (S (S n)) (Cls p)) with (Cat (Cls p) (rep (S n) (Cls p))).
    change (S (S n)) with (1 + S n)%nat. constructor; [constructor|].
    apply IH. discriminate.
Qed.

Ltac known_class :=
  match goal with
  | |- context [between ?a ?b ?c] =>
      let v := eval vm_compute in (between a b c) in
      match v with
      | true => change (between a b c) with true
      | false => change (between a b c) with false
      end
  end.

Ltac step_matcher :=
  repeat first
    [ progress cbn -[between]
    | known_class
    | match goal with
      | H : between ?a ?b ?c = _ |- context [between ?a ?b ?c] => rewrite H
      end ].

Lemma october_is_no_month :
  forall (y1 y2 y3 y4 d1 d2 : ascii) (rest : string),
    matches Patterns.date_re (date_text y1 y2 y3 y4 "1" "0" d1 d2) = false /\
    matches Patterns.datetime_re (date_text y1 y2 y3 y4 "1" "0" d1 d2 ++ rest) = false.
Proof.
  intros y1 y2 y3 y4 d1 d2 rest.
  unfold date_text, Patterns.date_re, Patterns.datetime_re, Patterns.ymd,
    Patterns.hms, digit, chr, rng.
  destruct (between "0" "9" y1) eqn:E1;
    destruct (between "0" "9" y2) eqn:E2;
    destruct (between "0" "9" y3) eqn:E3;
    destruct (between "0" "9" y4) eqn:E4;
    split; step_matcher; try reflexivity; apply matches_Fail.
Qed.

Lemma width_sound :
  forall r n, width r = Some n -> fixed_width r n.
Proof.
  induction r as [| | p | r1 IH1 r2 IH2 | r1 IH1 r2 IH2 | r IH]; intros n H; cbn in H;
    try discriminate.
  - inversion H. constructor.
  - inversion H. constructor.
  - destruct (width r1) as [a|]; [|discriminate].
    destruct (width r2) as [b|]; [|discriminate].
    inversion H. constructor; auto.
  - destruct (width r1) as [a|]; [|discriminate].
    destruct (width r2) as [b|]; [|discriminate].
    destruct (Nat.eqb_spec a b); [|discriminate].
    inversion H; subst. constructor; auto.
Qed.

(** X5.  The textual types with a fixed layout only accept texts of exactly
    that many characters: 36 for [uuid] (the length that the transport
    tests a session token for), 64 for [sha256], 10 for [date] and 19 for
    [datetime]. *)
Theorem fixed_layout_types_fix_the_length :
  forall (rt : Runtime) (text : string),
    (fst (typeCheck rt "uuid" text) = true -> String.length text = 36%nat) /\
    (fst (typeCheck rt "sha256" text) = true -> String.length text = 64%nat) /\
    (fst (typeCheck rt "date" text) = true -> String.length text = 10%nat) /\
    (fst (typeCheck rt "datetime" text) = true -> String.length text = 19%nat).
Proof.
  intros rt text. repeat split; intros H.
  - change (matches Patterns.uuid_re text = true) in H.
    eapply fixed_width_matches; [|exact H]. apply width_sound. reflexivity.
  - change (matches Patterns.sha256_re text = true) in H.
    eapply fixed_width_matches; [|exact H]. apply width_sound. reflexivity.
  - change (matches Patterns.date_re text = true) in H.
    eapply fixed_width_matches; [|exact H]. apply width_sound. reflexivity.
  - change (matches Patterns.datetime_re text = true) in H.
    eapply fixed_width_matches; [|exact H]. apply width_sound. reflexivity.
Qed.

(** X6.  The date patterns are approximate.  No date in October passes (the
    month alternative is [0\d|1[1-2]]), for [date] and for [datetime]
    alike; and a month [00] to [09] with day 31 passes for any year. *)
Theorem date_patterns_are_approximate :
  forall (rt : Runtime) (y1 y2 y3 y4 : ascii),
    (forall (d1 d2 : ascii) (rest : string),
        typeCheck rt "date" (date_text y1 y2 y3 y4 "1" "0" d1 d2)
        = (false, JStr (date_text y1 y2 y3 y4 "1" "0" d1 d2)) /\
        fst (typeCheck rt "datetime" (date_text y1 y2 y3 y4 "1" "0" d1 d2 ++ rest))
        = false) /\
    (forall m2 : ascii,
        is_digit y1 = true -> is_digit y2 = true -> is_digit y3 = true ->
        is_digit y4 = true -> is_digit m2 = true ->
        fst (typeCheck rt "date" (date_text y1 y2 y3 y4 "0" m2 "3" "1")) = true).
Proof.
  intros rt y1 y2 y3 y4. split.
  - intros d1 d2 rest.
    change (typeCheck rt "date" (date_text y1 y2 y3 y4 "1" "0" d1 d2))
      with (matches Patterns.date_re (date_text y1 y2 y3 y4 "1" "0" d1 d2),
            JStr (date_text y1 y2 y3 y4 "1" "0" d1 d2)).
    change (fst (typeCheck rt "datetime" (date_text y1 y2 y3 y4 "1" "0" d1 d2 ++ rest)))
      with (matches Patterns.datetime_re (date_text y1 y2 y3 y4 "1" "0" d1 d2 ++ rest)).
    destruct (october_is_no_month y1 y2 y3 y4 d1 d2 rest) as [-> ->].
    split; reflexivity.
  - intros m2 E1 E2 E3 E4 E5. unfold is_digit in *.
    change (matches Patterns.date_re (date_text y1 y2 y3 y4 "0" m2 "3" "1") = true).
    unfold date_text, Patterns.date_re, Patterns.ymd, digit, chr, rng.
    step_matcher. reflexivity.
Qed.

Lemma date_patterns_are_approximate_witness :
  fst (typeCheck rt0 "date" (date_text "2" "0" "2" "4" "0" "2" "3" "1")) = true.
Proof.
  apply (proj2 (date_patterns_are_approximate rt0 "2" "0" "2" "4") "2"%char);
    reflexivity.
Defined.

Lemma int_accepts_exactly_digit_strings_witness :
  snd (typeCheck rt0 "integer" "042") = JNum (inject_Z (digits_val 0 "042")).
Proof.
  refine (proj1 (proj2 (proj2 (proj1 (proj2
            (@int_accepts_exactly_digit_strings rt0 "integer" "042" _)) eq_refl))) _).
  - cbn. tauto.
  - reflexivity.
Defined.

Lemma accepted_value_has_the_type_of_its_tag_witness :
  exists ty v,
    p_type null_is_null = Some ty /\
    newValue (verdict_value (JStr "null")) = Some v /\
    ((v = JNull /\
      exists vs, p_interpretAsNull null_is_null = Some vs /\
                 includes vs (coerced rt0 ty (lookup (p_key null_is_null)
                                                     [("doc", JStr "null")])) = true) \/
     (In ty ["int"; "integer"; "float"; "double"] /\
      exists n, v = JNumber n /\ n <> NaN) \/
     (In ty ["boolean"; "bool"] /\ exists b, v = JBool b) \/
     (In ty ["datetime"; "date"; "char"; "string"; "sha256"; "uuid"] /\
      v = JStr (trim (ToString rt0 (lookup (p_key null_is_null)
                                            [("doc", JStr "null")])))) \/
     (ty = "json" /\
      exists doc,
        JSON_parse rt0 (trim (ToString rt0 (lookup (p_key null_is_null)
                                                   [("doc", JStr "null")]))) = Some doc /\
        ((doc <> JNull /\ v = doc) \/
         (doc = JNull /\ v = lookup (p_key null_is_null) [("doc", JStr "null")])))).
Proof.
  exact (@accepted_value_has_the_type_of_its_tag
           rt0 null_is_null [("doc", JStr "null")] (verdict_value (JStr "null"))
           eq_refl eq_refl eq_refl eq_refl).
Defined.

Lemma accepted_value_is_within_bounds_witness :
  exists ty v,
    p_type age = Some ty /\
    newValue (verdict_value (JNum (inject_Z 42))) = Some v /\
    (v = JNull \/
     (v = coerced rt0 ty (lookup (p_key age) age_parms) /\
      fst (typeCheck rt0 ty (trim (ToString rt0 (lookup (p_key age) age_parms)))) = true /\
      (forall q lo, v = JNum q -> p_min age = Some lo -> (lo <= q)%Q) /\
      (forall q hi, v = JNum q -> p_max age = Some hi -> (q <= hi)%Q) /\
      (forall s n, v = JStr s -> p_maxLength age = Some n ->
                   (inject_Z (Z.of_nat (String.length s)) <= n)%Q) /\
      (forall s n, v = JStr s -> p_minLength age = Some n ->
                   (n <= inject_Z (Z.of_nat (String.length s)))%Q) /\
      (forall vs, p_allowedValues age = Some vs -> includes vs v = true))).
Proof.
  exact (@accepted_value_is_within_bounds
           rt0 age age_parms (verdict_value (JNum (inject_Z 42)))
           eq_refl eq_refl eq_refl eq_refl).
Defined.

Lemma parsed_values_are_written_back_witness :
  (forall parm, In parm (parameters (login_method rt0)) ->
     exists r nv,
       checkParameter rt0 parm login_parms = Some r /\ passed r = true /\
       newValue r = Some nv /\ lookup (p_key parm) login_parms = nv) /\
  (forall k, ~ In k (map p_key (parameters (login_method rt0))) ->
             lookup k login_parms = lookup k login_parms).
Proof.
  refine (@parsed_values_are_written_back
            rt0 (parameters (login_method rt0)) login_parms login_parms verdict_ok
            _ eq_refl eq_refl).
  repeat constructor; cbn; intuition discriminate.
Defined.

Lemma fixed_layout_types_fix_the_length_witness :
  String.length "11111111-1111-4111-8111-111111111111" = 36%nat.
Proof.
  exact (proj1 (fixed_layout_types_fix_the_length
                  rt0 "11111111-1111-4111-8111-111111111111") eq_refl).
Defined.

(* ------------------------------------------------------------------ *)
(** * More on the permission resolver and on authorization *)
(* ------------------------------------------------------------------ *)

Lemma userHasPermissions_true :
  forall fuel st uid perms,
    userHasPermissions fuel st (Some uid) perms = Ret true ->
    forall k, In k perms -> effective (tables st) uid k.
Proof.
  intros fuel st uid perms H k Hk. unfold userHasPermissions in H.
  destruct perms as [|p ps]; [destruct Hk|].
  destruct (getUserPermissions fuel st (Some uid)) as [[ups|] | | |] eqn:Hg;
    cbn [obind] in H; try discriminate.
  injection H as Hall.
  change (forallb (str_includes ups) (p :: ps) = true) in Hall.
  apply (proj2 (getUserPermissions_spec _ _ _ Hg)).
  apply str_includes_In.
  apply (proj1 (forallb_forall _ _) Hall). exact Hk.
Qed.

Lemma userHasPermissions_false :
  forall fuel st uid perms,
    userHasPermissions fuel st (Some uid) perms = Ret false ->
    exists k, In k perms /\ ~ effective (tables st) uid k.
Proof.
  intros fuel st uid perms H. unfold userHasPermissions in H.
  destruct perms as [|p ps]; [discriminate|].
  destruct (getUserPermissions fuel st (Some uid)) as [[ups|] | | |] eqn:Hg;
    cbn [obind] in H; try discriminate.
  injection H as Hall.
  change (forallb (str_includes ups) (p :: ps) = false) in Hall.
  rename Hall into E.
  assert (Hex : exists k, In k (p :: ps) /\ str_includes ups k = false).
  { clear -E. induction (p :: ps) as [|x l IH]; [discriminate|].
    cbn in E. destruct (str_includes ups x) eqn:Ex.
    - destruct (IH E) as (k & Hk & Hf). exists k. split; [now right | exact Hf].
    - exists x. split; [now left | exact Ex]. }
  destruct Hex as (k & Hk & Hf). exists k. split; [exact Hk|].
  intros Heff. apply (proj2 (getUserPermissions_spec _ _ _ Hg)) in Heff.
  apply str_includes_In in Heff. congruence.
Qed.

(** X7.  [userHasPermissions]: with no required key the answer is yes for
    everyone, an absent user included, and the storage is not consulted;
    an absent user lacks any non-empty requirement; for a present user the
    answer, when there is one, says whether every required key is among
    the user's effective permissions; on an acyclic hierarchy with the
    connection up there is an answer; and [userHasPermissionsForMethod]
    is the same question asked for the keys a method requires. *)
Theorem userHasPermissions_decides_inclusion :
  (forall fuel st userID, userHasPermissions fuel st userID [] = Ret true) /\
  (forall fuel st p ps, userHasPermissions fuel st None (p :: ps) = Ret false) /\
  (forall fuel st uid perms b,
      userHasPermissions fuel st (Some uid) perms = Ret b ->
      (b = true <-> forall k, In k perms -> effective (tables st) uid k)) /\
  (forall st uid perms,
      connected st = true -> acyclic (tables st) ->
      exists fuel b, userHasPermissions fuel st (Some uid) perms = Ret b) /\
  (forall fuel st userID method,
      userHasPermissionsForMethod fuel st userID method
      = userHasPermissions fuel st userID (requiredPermissions method)).
Proof.
  split; [reflexivity|]. split; [reflexivity|]. split; [|split; [|reflexivity]].
  - intros fuel st uid perms [|] H.
    + split; [intros _ | reflexivity]. eapply userHasPermissions_true; eauto.
    + split; [discriminate|]. intros Hall.
      destruct (userHasPermissions_false _ _ _ _ H) as (k & Hk & Hn).
      exfalso. apply Hn. apply Hall. exact Hk.
  - intros st uid perms Hc Hacyc.
    destruct (@getUserPermissions_returns st uid Hc Hacyc) as [ups Hu].
    exists (S (List.length (api_permissions (tables st)))).
    unfold userHasPermissions. destruct perms as [|p ps]; [eauto|].
    rewrite Hu. cbn [obind]. eauto.
Qed.

Lemma userHasPermissions_decides_inclusion_witness :
  exists fuel b,
    userHasPermissions fuel st0 (Some 7%Z) ["reports.export.pdf"] = Ret b.
Proof.
  exact (proj1 (proj2 (proj2 (proj2 userHasPermissions_decides_inclusion)))
               st0 7%Z ["reports.export.pdf"] eq_refl
               (ranked_acyclic sample_hierarchy_ranked)).
Defined.

Lemma descendant_same_children :
  forall t1 t2,
    (forall p c, child t1 p c <-> child t2 p c) ->
    forall p d, descendant t1 p d -> descendant t2 p d.
Proof.
  intros t1 t2 Hch p d H. induction H as [p c Hc | p c d Hc _ IH].
  - apply descendant_child. now apply Hch.
  - eapply descendant_step; [apply Hch; exact Hc | exact IH].
Qed.

(** X8.  The effective permissions do not depend on the order of the rows or
    on repeated rows: two stores with the same parent/child edges and the
    same set of granted keys give lists with the same members. *)
Theorem effective_permissions_ignore_row_order :
  forall fuel1 fuel2 st1 st2 uid perms1 perms2,
    (forall p c, child (tables st1) p c <-> child (tables st2) p c) ->
    (forall g, In g (grants_of uid (tables st1)) <-> In g (grants_of uid (tables st2))) ->
    getUserPermissions fuel1 st1 (Some uid) = Ret (Some perms1) ->
    getUserPermissions fuel2 st2 (Some uid) = Ret (Some perms2) ->
    forall k, In k perms1 <-> In k perms2.
Proof.
  intros fuel1 fuel2 st1 st2 uid perms1 perms2 Hch Hgr H1 H2 k.
  rewrite (proj2 (getUserPermissions_spec _ _ _ H1)).
  rewrite (proj2 (getUserPermissions_spec _ _ _ H2)).
  assert (Hsym : forall p c, child (tables st2) p c <-> child (tables st1) p c)
    by (intros; symmetry; apply Hch).
  unfold effective. split; intros (g & Hg & Hk); exists g.
  - split; [now apply Hgr|]. destruct Hk as [-> | Hk]; [now left | right].
    eapply descendant_same_children; eauto.
  - split; [now apply Hgr|]. destruct Hk as [-> | Hk]; [now left | right].
    eapply descendant_same_children; eauto.
Qed.

Lemma effective_permissions_ignore_row_order_witness :
  In "reports.export.pdf" ["reports"; "reports.export"; "reports.export.pdf"] <->
  In "reports.export.pdf" ["reports.export"; "reports.export.pdf"; "reports"].
Proof.
  refine (@effective_permissions_ignore_row_order
            4%nat 4%nat
            (granted ["reports"; "reports.export"] hierarchy)
            (granted ["reports.export"; "reports"; "reports.export"] (rev hierarchy))
            7%Z
            ["reports"; "reports.export"; "reports.export.pdf"]
            ["reports.export"; "reports.export.pdf"; "reports"]
            _ _ eq_refl eq_refl "reports.export.pdf").
  - intros p c. unfold child, children_of, granted, state_of, hierarchy.
    cbn [tables api_permissions filter perm_parent rev app].
    repeat match goal with
           | |- context [String.eqb ?a p] =>
               destruct (String.eqb_spec a p) as [<- | ?]
           end; cbn; tauto.
  - intros g. cbn. tauto.
Defined.

(* ------------------------------------------------------------------ *)
(** * More on the execution pipeline *)
(* ------------------------------------------------------------------ *)

Lemma allowedToExecuteMethod_passed :
  forall fuel st session method v,
    allowedToExecuteMethod fuel st session method = Ret v ->
    passed v = true ->
    match session with
    | None => requireSession method = false
    | Some s =>
        requireNoSession method = false /\
        forall k, In k (requiredPermissions method) ->
                  effective (tables st) (user_id s) k
    end.
Proof.
  intros fuel st [s|] method v H Hok; unfold allowedToExecuteMethod in H.
  - destruct (requireNoSession method); [inversion H; subst; discriminate|].
    split; [reflexivity|].
    destruct (userHasPermissions fuel st (Some (user_id s)) (requiredPermissions method))
      as [[|] | | |] eqn:Hu; cbn in H; try discriminate.
    + eapply userHasPermissions_true; eauto.
    + inversion H; subst; discriminate.
  - destruct (requireSession method); [inversion H; subst; discriminate|reflexivity].
Qed.

Lemma canBeExecuted_passed :
  forall rt fuel method parms session st v parms',
    canBeExecuted rt fuel method parms session st = Ret (v, parms') ->
    passed v = true ->
    exists pv av,
      checkParameters rt (parameters method) parms = Ret (pv, parms') /\
      passed pv = true /\
      allowedToExecuteMethod fuel st session method = Ret av /\
      passed av = true.
Proof.
  intros rt fuel method parms session st v parms' H Hok.
  unfold canBeExecuted in H.
  destruct (checkParameters rt (parameters method) parms) as [[pv p1] | | |] eqn:Hp;
    cbn [obind] in H; try discriminate.
  destruct (passed pv) eqn:Hpv; cbn [negb] in H.
  2:{ inversion H; subst. congruence. }
  destruct (allowedToExecuteMethod fuel st session method) as [av | | |] eqn:Ha;
    cbn [obind] in H; try discriminate.
  destruct (passed av) eqn:Hav; cbn [negb] in H.
  2:{ inversion H; subst. congruence. }
  inversion H; subst. exists pv, av. auto.
Qed.

(** X9.  No handler answers for a caller that is not entitled to it.  When a
    call through the pipeline comes back with a response that reports
    success, the parameters had passed validation, and the caller was
    authorized: without a session only if the method does not require
    one; with a session only if the method is not reserved to logged-out
    clients and every required permission key is granted to the session's
    user directly or through an ancestor of the key. *)
Theorem success_implies_authorization :
  forall (rt : Runtime) (fuel : nat) (methods : list APIMethod)
         (method : APIMethod) (parms parms' : list (string * jsval))
         (session : option Session) (request : Request) (st st' : State)
         (r : APIResponse),
    tryExecuteMethod rt (S fuel) methods method parms session request st
    = (Ret (r, parms'), st') ->
    success r = true ->
    (exists pv, checkParameters rt (parameters method) parms = Ret (pv, parms') /\
                passed pv = true) /\
    match session with
    | None => requireSession method = false
    | Some s =>
        requireNoSession method = false /\
        forall k, In k (requiredPermissions method) ->
                  effective (tables st) (user_id s) k
    end.
Proof.
  intros rt fuel methods method parms parms' session request st st' r H Hok.
  rewrite tryExecuteMethod_S in H.
  destruct (successful_response_comes_from_handler _ _ _ _ _ _ _ _ H Hok)
    as (v & hr & st2 & Hcan & Hpassed & _).
  destruct (canBeExecuted_passed _ _ _ _ _ _ Hcan Hpassed)
    as (pv & av & Hp & Hpv & Ha & Hav).
  split; [eauto|].
  eapply allowedToExecuteMethod_passed; eauto.
Qed.

Lemma success_implies_authorization_witness :
  (exists pv, checkParameters rt0 (parameters logout_method) [] = Ret (pv, []) /\
              passed pv = true) /\
  (requireNoSession logout_method = false /\
   forall k, In k (requiredPermissions logout_method) ->
             effective (tables st0) (user_id alice_session) k).
Proof.
  exact (@success_implies_authorization
           rt0 0%nat (default_methods rt0) logout_method [] []
           (Some alice_session) curl st0
           (snd (tryExecuteMethod rt0 1 (default_methods rt0) logout_method []
                                  (Some alice_session) curl st0))
           (drop_empty_data (successSession JNull None))
           eq_refl eq_refl).
Defined.

Lemma checkParameter_failure_code :
  forall rt parm parms r,
    checkParameter rt parm parms = Some r -> passed r = false ->
    exists why c,
      reason r = Some why /\ errorCode r = Some c /\
      In c [ERROR_CODES.PARAM_MISSING; ERROR_CODES.PARAM_TYPE; ERROR_CODES.PARAM_RANGE].
Proof.
  intros rt parm parms r H Hf. unfold checkParameter in H.
  destruct (negb (has_key (p_key parm) parms) || is_nullish (lookup (p_key parm) parms)).
  - destruct (p_optional parm); inversion H; subst r; [discriminate|].
    cbn. eexists _, _. repeat split. now left.
  - destruct (p_type parm) as [ty|]; [|discriminate]. cbv zeta in H.
    destruct (match p_interpretAsNull parm with
              | Some vs => includes vs _ | None => false end).
    + inversion H; subst r. discriminate.
    + destruct (negb _).
      * inversion H; subst r. cbn. eexists _, _. repeat split. right; now left.
      * inversion H; subst r. clear H. unfold rangeCheck in *.
        repeat match goal with
               | |- context [if ?c then _ else _] => destruct c
               end; try discriminate;
          cbn; eexists _, _; repeat split; right; right; now left.
Qed.

Lemma checkParameters_failure_code :
  forall rt specs parms v parms',
    checkParameters rt specs parms = Ret (v, parms') -> passed v = false ->
    exists why c,
      reason v = Some why /\ errorCode v = Some c /\
      In c [ERROR_CODES.PARAM_MISSING; ERROR_CODES.PARAM_TYPE; ERROR_CODES.PARAM_RANGE].
Proof.
  intros rt specs. induction specs as [|parm rest IH]; intros parms v parms' H Hf;
    cbn [checkParameters] in H.
  - inversion H; subst. discriminate.
  - destruct (checkParameter rt parm parms) as [r|] eqn:Hr; [|discriminate].
    destruct (passed r) eqn:Hp; cbn [negb] in H.
    + destruct (newValue r); eapply IH; eauto.
    + inversion H; subst. eapply checkParameter_failure_code; eauto.
Qed.

(** X10.  A call that fails the checks is answered without side effects: the
    handler is not run, the store is left as it was, and the response is
    an unsuccessful one that carries a message and one of the six
    validation and authorization codes. *)
Theorem rejected_call_is_answered_without_effects :
  forall (rt : Runtime) (fuel : nat) (methods : list APIMethod)
         (method : APIMethod) (parms parms' : list (string * jsval))
         (session : option Session) (request : Request) (st : State)
         (v : VerificationResult),
    canBeExecuted rt (S fuel) method parms session st = Ret (v, parms') ->
    passed v = false ->
    tryExecuteMethod rt (S fuel) methods method parms session request st
    = (Ret (error (reason v) (errorCode v) None, parms'), st) /\
    exists why c,
      reason v = Some why /\ errorCode v = Some c /\
      In c [ERROR_CODES.PARAM_MISSING; ERROR_CODES.PARAM_TYPE;
            ERROR_CODES.PARAM_RANGE; ERROR_CODES.PERMISSION_SESSION;
            ERROR_CODES.PERMISSION_MISSING; ERROR_CODES.PERMISSION_NO_SESSION].
Proof.
  intros rt fuel methods method parms parms' session request st v Hcan Hf.
  split.
  - rewrite tryExecuteMethod_S. unfold tryExecuteMethod_body, bind, reading.
    rewrite Hcan, Hf. reflexivity.
  - unfold canBeExecuted in Hcan.
    destruct (checkParameters rt (parameters method) parms) as [[pv p1] | | |] eqn:Hp;
      cbn [obind] in Hcan; try discriminate.
    destruct (passed pv) eqn:Hpv; cbn [negb] in Hcan.
    2:{ inversion Hcan; subst.
        destruct (checkParameters_failure_code _ _ _ Hp Hpv) as (why & c & ? & ? & Hin).
        exists why, c. repeat split; auto. cbn in *. tauto. }
    unfold allowedToExecuteMethod in Hcan.
    destruct session as [s|].
    + destruct (requireNoSession method).
      * inversion Hcan; subst. cbn. eexists _, _. repeat split. tauto.
      * destruct (userHasPermissions _ _ _ _) as [[|] | | |];
          cbn in Hcan; try discriminate; inversion Hcan; subst; try discriminate.
        cbn. eexists _, _. repeat split. tauto.
    + destruct (requireSession method).
      * inversion Hcan; subst. cbn. eexists _, _. repeat split. tauto.
      * inversion Hcan; subst. discriminate.
Qed.

Lemma rejected_call_is_answered_without_effects_witness :
  tryExecuteMethod rt0 1 (default_methods rt0) logout_method [] None curl st0
  = (Ret (error (Some "This method is only available to authenticated users")
                (Some ERROR_CODES.PERMISSION_NO_SESSION) None, []), st0).
Proof.
  exact (proj1 (@rejected_call_is_answered_without_effects
                  rt0 0%nat (default_methods rt0) logout_method [] [] None curl st0
                  (verdict_fail "This method is only available to authenticated users"
                                ERROR_CODES.PERMISSION_NO_SESSION)
                  eq_refl eq_refl)).
Defined.

(** X11.  Whatever the handler does, [execute] never throws into its caller, and
    the only code it ever rejects with is METHOD_ERROR. *)
Theorem execute_rejects_only_with_METHOD_ERROR :
  forall (run : handler_impl -> HandlerArgs -> M (option APIResponse))
         (method : APIMethod) (args : HandlerArgs) (st : State),
    match fst (execute run method args st) with
    | Exn _ => False
    | Ret (Rejected c) => c = ERROR_CODES.METHOD_ERROR
    | Ret (Resolved _) | Unsettled | OutOfFuel => True
    end.
Proof.
  intros run method args st. unfold execute.
  destruct (transaction method); cbn [andb].
  - unfold startTransaction. destruct (connected st); [|reflexivity].
    destruct (run (handler method) args _) as [[[hr|] | e | |] st2];
      try exact I.
    + destruct (success hr).
      * unfold commit. destruct (connected st2) eqn:Hc2; [exact I|].
        unfold rollback. rewrite Hc2. exact I.
      * unfold rollback. destruct (connected st2) eqn:Hc2; [exact I|].
        rewrite Hc2. exact I.
    + unfold rollback. destruct (connected st2); [reflexivity | exact I].
    + unfold rollback. destruct (connected st2); [reflexivity | exact I].
  - destruct (run (handler method) args st) as [[[hr|] | e | |] st2];
      try exact I; reflexivity.
Qed.

(** X12.  A transactional call that settles leaves no transaction open,
    whichever way it settles and whatever the handler did. *)
Theorem settled_call_closes_its_transaction :
  forall (run : handler_impl -> HandlerArgs -> M (option APIResponse))
         (method : APIMethod) (args : HandlerArgs) (st st' : State) (s : settled),
    transaction method = true ->
    connected st = true ->
    execute run method args st = (Ret s, st') ->
    snapshot st' = None.
Proof.
  intros run method args st st' s Htx Hc H. unfold execute in H.
  rewrite Htx in H. cbn [andb] in H.
  rewrite (startTransaction_connected _ Hc) in H.
  destruct (run (handler method) args (begun true st)) as [[[hr|] | e | |] st2];
    try discriminate;
    try destruct (success hr);
    unfold commit, rollback in H;
    destruct (connected st2) eqn:Hc2;
    try rewrite Hc2 in H;
    try discriminate;
    inversion H; subst; reflexivity.
Qed.

Lemma settled_call_closes_its_transaction_witness :
  snapshot (snd (execute (run_handler rt0 0 (default_methods rt0)) logout_method
                         {| h_parms := []; h_session := Some alice_session;
                            h_request := curl |} st0)) = None.
Proof.
  exact (@settled_call_closes_its_transaction
           (run_handler rt0 0 (default_methods rt0)) logout_method
           {| h_parms := []; h_session := Some alice_session; h_request := curl |}
           st0 _ (Resolved (drop_empty_data (successSession JNull None)))
           eq_refl eq_refl eq_refl).
Defined.

(** X13.  With the storage connection down, the handler of a transactional
    method is not run: whatever the handler is, the call is rejected
    before it starts, the store is left as it was, and the transport
    wrapper answers HANDLER_ERROR. *)
Theorem storage_down_skips_the_handler :
  forall (rt : Runtime) (fuel : nat) (methods : list APIMethod)
         (method : APIMethod) (parms parms' : list (string * jsval))
         (session : option Session) (request : Request) (st : State)
         (v : VerificationResult),
    connected st = false ->
    transaction method = true ->
    canBeExecuted rt (S fuel) method parms session st = Ret (v, parms') ->
    passed v = true ->
    (forall run args,
        execute run method args st = (Ret (Rejected ERROR_CODES.METHOD_ERROR), st)) /\
    respond rt (S fuel) methods method parms session request st
    = (Ret (error (Some "An Error occured while handling your request.")
                  (Some ERROR_CODES.HANDLER_ERROR) None), st).
Proof.
  intros rt fuel methods method parms parms' session request st v Hc Htx Hcan Hp.
  assert (Hexec : forall run args,
             execute run method args st
             = (Ret (Rejected ERROR_CODES.METHOD_ERROR), st)).
  { intros run args. unfold execute, startTransaction.
    rewrite Htx, Hc. reflexivity. }
  split; [exact Hexec|].
  assert (Htry : tryExecuteMethod rt (S fuel) methods method parms session request st
                 = (Exn (ReferenceError "err"), st)).
  { rewrite tryExecuteMethod_S. eapply rejection_escapes; eauto. }
  unfold respond, try_catch, bind. rewrite Htry. reflexivity.
Qed.

Lemma storage_down_skips_the_handler_witness :
  respond rt0 1 (default_methods rt0) (request_login_token_method rt0) [] None curl offline
  = (Ret (error (Some "An Error occured while handling your request.")
                (Some ERROR_CODES.HANDLER_ERROR) None), offline).
Proof.
  exact (proj2 (@storage_down_skips_the_handler
                  rt0 0%nat (default_methods rt0) (request_login_token_method rt0) [] []
                  None curl offline verdict_ok
                  eq_refl eq_refl eq_refl eq_refl)).
Defined.



(* ------------------------------------------------------------------ *)
(** * The session store and the session methods *)
(* ------------------------------------------------------------------ *)

Lemma session_projection_found :
  forall t sid r,
    In r (api_sessions t) -> ses_id r = sid ->
    exists s, session_projection t sid = Some s /\ session_id s = sid.
Proof.
  intros t sid r Hin Hid. unfold session_projection.
  destruct (filter (fun r0 => Z.eqb (ses_id r0) sid) (api_sessions t))
    as [|r0 rest] eqn:Hf.
  - exfalso.
    assert (Hr : In r (filter (fun r0 => Z.eqb (ses_id r0) sid) (api_sessions t))).
    { apply filter_In. split; [exact Hin|]. now apply Z.eqb_eq. }
    rewrite Hf in Hr. exact Hr.
  - eexists. split; [reflexivity|]. cbn.
    assert (Hr : In r0 (filter (fun r0 => Z.eqb (ses_id r0) sid) (api_sessions t))).
    { rewrite Hf. now left. }
    apply filter_In in Hr. destruct Hr as [_ Hr]. now apply Z.eqb_eq.
Qed.

Lemma touch_id :
  forall nw sid r, ses_id (touch nw sid r) = ses_id r.
Proof. intros nw sid r. unfold touch. now destruct (Z.eqb (ses_id r) sid). Qed.

(** X15.  [establishSession] never compares a session's expiry with the clock.
    With the connection up, a token that no stored session carries gives
    no session and leaves the store alone; a token that a stored session
    carries always gives that session (as it was loaded, before the
    renewal), and every row of that session then expires one hour from
    now while the other rows are unchanged, however long ago the session
    had expired. *)
Theorem establishSession_ignores_the_expiry :
  forall (st : State) (tok : string),
    connected st = true ->
    match filter (token_is tok) (api_sessions (tables st)) with
    | [] => establishSession tok st = (Ret None, st)
    | r :: _ =>
        exists s st',
          establishSession tok st = (Ret (Some s), st') /\
          session_projection (tables st) (ses_id r) = Some s /\
          session_id s = ses_id r /\
          api_sessions (tables st')
          = map (touch (now st) (ses_id r)) (api_sessions (tables st)) /\
          (forall row, In row (api_sessions (tables st')) ->
                       ses_id row = ses_id r ->
                       ses_expiration row = (now st + renewal_window)%Z) /\
          (forall row, In row (api_sessions (tables st)) ->
                       ses_id row <> ses_id r ->
                       In row (api_sessions (tables st')))
    end.
Proof.
  intros st tok Hc.
  destruct (filter (token_is tok) (api_sessions (tables st))) as [|r rest] eqn:Hf.
  - cbv beta iota zeta delta [establishSession bind reading select ret].
    rewrite Hc, Hf. reflexivity.
  - assert (Hin : In r (api_sessions (tables st))).
    { assert (H : In r (filter (token_is tok) (api_sessions (tables st))))
        by (rewrite Hf; now left).
      now apply filter_In in H. }
    destruct (@session_projection_found (tables st) (ses_id r) r Hin eq_refl) as (s & Hs & Hsid).
    exists s. eexists. split; [|split; [exact Hs | split; [exact Hsid|]]].
    + cbv beta iota zeta delta [establishSession bind reading select getSession
                                  clock query ret].
      rewrite Hc, Hf. cbv beta iota. rewrite Hc, Hs. cbv beta iota.
      rewrite Hc. reflexivity.
    + cbn [tables with_tables api_sessions set_sessions]. rewrite Hsid.
      split; [reflexivity|]. split.
      * intros row Hrow Hid. apply in_map_iff in Hrow.
        destruct Hrow as (r0 & <- & _). rewrite touch_id in Hid.
        unfold touch. apply Z.eqb_eq in Hid. rewrite Hid. reflexivity.
      * intros row Hrow Hid. apply in_map_iff. exists row. split; [|exact Hrow].
        unfold touch. apply Z.eqb_neq in Hid. now rewrite Hid.
Qed.

Lemma establishSession_ignores_the_expiry_witness :
  exists s st',
    establishSession "11111111-1111-4111-8111-111111111111" late
    = (Ret (Some s), st') /\
    session_projection (tables late) 1 = Some s /\
    session_id s = 1%Z /\
    api_sessions (tables st') = map (touch 100000 1) (api_sessions (tables late)) /\
    (forall row, In row (api_sessions (tables st')) ->
                 ses_id row = 1%Z -> ses_expiration row = (100000 + renewal_window)%Z) /\
    (forall row, In row (api_sessions (tables late)) ->
                 ses_id row <> 1%Z -> In row (api_sessions (tables st'))).
Proof.
  exact (@establishSession_ignores_the_expiry
           late "11111111-1111-4111-8111-111111111111" eq_refl).
Defined.

(** X16.  The session's admin flag is computed twice.  [APIDatabase.query]
    turns a TINYINT column into a boolean, and [getSession] then compares
    what it received with the number 1: when the [admin] column of every
    user reaches [getSession] through that cast, no session is ever an
    administrator's. *)
Theorem admin_flag_is_lost_after_the_cast :
  forall (t : Tables) (sessionID : Z) (s : Session),
    (forall u, In u (api_users t) -> exists raw, usr_admin u = cast_tinyint raw) ->
    session_projection t sessionID = Some s ->
    admin s = false.
Proof.
  intros t sessionID s Hcast H. unfold session_projection in H.
  destruct (filter _ (api_sessions t)) as [|r rest]; [discriminate|].
  inversion H; subst s; clear H. cbn [admin].
  destruct (filter (fun u => Z.eqb (usr_id u) (ses_user_id r)) (api_users t))
    as [|u us] eqn:Hu; [reflexivity|].
  assert (Hin : In u (api_users t)).
  { assert (H : In u (filter (fun u => Z.eqb (usr_id u) (ses_user_id r)) (api_users t)))
      by (rewrite Hu; now left).
    now apply filter_In in H. }
  destruct (Hcast u Hin) as (raw & ->).
  destruct raw; reflexivity.
Qed.

Lemma admin_flag_is_lost_after_the_cast_witness :
  admin alice_session = false.
Proof.
  refine (@admin_flag_is_lost_after_the_cast tables0 1%Z alice_session _ eq_refl).
  intros u [<- | []]. exists (JNum 1%Q). reflexivity.
Defined.

Lemma filter_none_of_the_rest :
  forall (A : Type) (f : A -> bool) (l : list A),
    filter f (filter (fun x => negb (f x)) l) = [].
Proof.
  intros A f l. induction l as [|x rest IH]; [reflexivity|]. cbn [filter].
  destruct (f x) eqn:E; cbn [negb filter]; [exact IH|]. now rewrite E.
Qed.

Lemma filter_idem :
  forall (A : Type) (f : A -> bool) (l : list A),
    filter f (filter f l) = filter f l.
Proof.
  intros A f l. induction l as [|x rest IH]; [reflexivity|]. cbn [filter].
  destruct (f x) eqn:E; [|exact IH]. cbn [filter]. rewrite E. now rewrite IH.
Qed.

Lemma same_client_refl :
  forall ip userAgent tok expiry,
    same_client ip userAgent
                {| tok_ip := ip; tok_user_agent := userAgent;
                   tok_value := tok; tok_expiration := expiry |} = true.
Proof.
  intros. unfold same_client. cbn. now rewrite !String.eqb_refl.
Qed.

(** X17.  [createToken]: with the connection up, the client (its address and
    user agent) afterwards holds exactly one login token, the freshly drawn
    one that is returned, valid for one hour; the tokens of other clients
    are not touched. *)
Theorem createToken_leaves_one_token_per_client :
  forall (rt : Runtime) (request : Request) (st : State),
    connected st = true ->
    exists st',
      createToken rt request st = (Ret (uuid_v4 rt (draws st)), st') /\
      filter (same_client (req_ip request) (client_user_agent request))
             (api_login_tokens (tables st'))
      = [{| tok_ip := req_ip request;
            tok_user_agent := client_user_agent request;
            tok_value := uuid_v4 rt (draws st);
            tok_expiration := (now st + renewal_window)%Z |}] /\
      filter (fun r => negb (same_client (req_ip request)
                                         (client_user_agent request) r))
             (api_login_tokens (tables st'))
      = filter (fun r => negb (same_client (req_ip request)
                                           (client_user_agent request) r))
               (api_login_tokens (tables st)) /\
      api_sessions (tables st') = api_sessions (tables st).
Proof.
  intros rt request st Hc. eexists. split; [|split; [|split]].
  - cbv beta iota zeta delta [createToken getUUID bind query clock ret].
    cbn [connected tables]. rewrite Hc. cbn [with_tables connected tables].
    try rewrite Hc. reflexivity.
  - cbn [tables with_tables api_login_tokens set_login_tokens now].
    rewrite filter_app, filter_none_of_the_rest. cbn [filter app].
    rewrite same_client_refl. reflexivity.
  - cbn [tables with_tables api_login_tokens set_login_tokens now].
    rewrite filter_app, filter_idem. cbn [filter].
    rewrite same_client_refl. cbn [negb]. apply app_nil_r.
  - reflexivity.
Qed.

Lemma createToken_leaves_one_token_per_client_witness :
  exists st',
    createToken rt0 curl st0 = (Ret (uuid_v4 rt0 (draws st0)), st') /\
    filter (same_client (req_ip curl) (client_user_agent curl))
           (api_login_tokens (tables st'))
    = [{| tok_ip := req_ip curl;
          tok_user_agent := client_user_agent curl;
          tok_value := uuid_v4 rt0 (draws st0);
          tok_expiration := (now st0 + renewal_window)%Z |}] /\
    filter (fun r => negb (same_client (req_ip curl) (client_user_agent curl) r))
           (api_login_tokens (tables st'))
    = filter (fun r => negb (same_client (req_ip curl) (client_user_agent curl) r))
             (api_login_tokens (tables st0)) /\
    api_sessions (tables st') = api_sessions (tables st0).
Proof.
  exact (@createToken_leaves_one_token_per_client rt0 curl st0 eq_refl).
Defined.

Lemma fail_with_inv :
  forall m st o st',
    fail_with m st = (Ret o, st') ->
    o = Some (error (Some m) None None) /\ st' = st.
Proof. intros m st o st' H. unfold fail_with, ret in H. now inversion H. Qed.

(** X18.  A login that is refused writes nothing.  Whenever the login handler
    returns, it returns a response; when that response reports failure,
    the store is exactly as it was before the call: in particular the
    login token of the client is still in place after a wrong password,
    and no session row has been created. *)
Theorem refused_login_writes_nothing :
  forall (rt : Runtime) (args : HandlerArgs) (st st' : State)
         (o : option APIResponse),
    login_handler rt args st = (Ret o, st') ->
    exists r, o = Some r /\
              (success r = false ->
               st' = st /\ code r = None /\ r_session r = Absent).
Proof.
  intros rt args st st' o H.
  unfold login_handler in H. cbv zeta in H.
  bind_step H userResult sa Hu.
  apply reading_select_inv in Hu. destruct Hu as (Hc & -> & ->).
  assert (Hfail : forall m, fail_with m st = (Ret o, st') ->
            exists r, o = Some r /\
                      (success r = false ->
                       st' = st /\ code r = None /\ r_session r = Absent)).
  { intros m Hm. apply fail_with_inv in Hm. destruct Hm as [-> ->].
    eexists. split; [reflexivity|]. intros _. repeat split. }
  destruct (firstn 1 _) as [|user [|]] eqn:Huser in H; try (eapply Hfail; exact H).
  destruct (usr_active user) eqn:Hactive; cbn [negb] in H; [|eapply Hfail; exact H].
  bind_step H loginTokenResult sb Hl.
  apply reading_select_inv in Hl. destruct Hl as (_ & -> & ->).
  destruct (firstn 1 _) as [|row [|]] eqn:Hrow in H; try (eapply Hfail; exact H).
  bind_step H presented sc Hp.
  assert (sc = st) as ->.
  { destruct (lookup "password_hash" (h_parms args)); inversion Hp; reflexivity. }
  destruct (negb _) eqn:Hpw in H; [eapply Hfail; exact H|].
  clear Hfail.
  bind_step H u1 sd Hd. apply query_inv in Hd. destruct Hd as (_ & _ & ->).
  bind_step H nw se He. inversion He; subst nw se. clear He.
  bind_step H sessionID sf Hf. apply query_inv in Hf. destruct Hf as (_ & -> & ->).
  bind_step H sessionToken sg Hg. inversion Hg; subst sessionToken sg. clear Hg.
  bind_step H u2 sh Hh. apply query_inv in Hh. destruct Hh as (_ & _ & ->).
  bind_step H loadedSession si Hi. apply reading_select_inv in Hi.
  destruct Hi as (_ & -> & ->).
  match type of H with
  | context [session_projection ?t ?sid] =>
      destruct (@session_projection_found t sid
                  (store_token sid (uuid_v4 rt (draws st))
                     (new_session sid (usr_id user) (now st)
                        (req_ip (h_request args))
                        (client_user_agent (h_request args)))))
        as (s & Hs & _)
  end.
  { cbn [tables with_tables api_sessions set_sessions insert_session snd fst].
    apply in_map. apply in_or_app. right. now left. }
  { unfold store_token, new_session. cbn [ses_id insert_session fst tables with_tables].
    rewrite Z.eqb_refl. reflexivity. }
  rewrite Hs in H.
  bind_step H u3 sj Hj. apply query_inv in Hj. destruct Hj as (_ & _ & ->).
  unfold ret in H. inversion H; subst. eexists. split; [reflexivity|].
  cbn. discriminate.
Qed.

Lemma refused_login_writes_nothing_witness :
  exists r,
    Some (error (Some "Wrong password") None None) = Some r /\
    (success r = false -> st0 = st0 /\ code r = None /\ r_session r = Absent).
Proof.
  exact (@refused_login_writes_nothing
           rt0
           {| h_parms := [("username", JStr "alice");
                          ("password_hash", JStr (digest "guess"))];
              h_session := None; h_request := curl |}
           st0 st0 (Some (error (Some "Wrong password") None None)) eq_refl).
Defined.

Lemma filter_map_commute :
  forall (A : Type) (f : A -> bool) (g : A -> A) (l : list A),
    (forall x, f (g x) = f x) ->
    filter f (map g l) = map g (filter f l).
Proof.
  intros A f g l H. induction l as [|x rest IH]; [reflexivity|].
  cbn [map filter]. rewrite H. destruct (f x); cbn [map]; now rewrite IH.
Qed.

Lemma firstn_map_commute :
  forall (A : Type) (g : A -> A) (n : nat) (l : list A),
    firstn n (map g l) = map g (firstn n l).
Proof.
  intros A g n. induction n as [|n IH]; intros [|x rest]; cbn; try reflexivity.
  now rewrite IH.
Qed.

Lemma record_login_keeps_the_account :
  forall nw uid u,
    usr_login_name (record_login nw uid u) = usr_login_name u /\
    usr_active (record_login nw uid u) = usr_active u.
Proof.
  intros nw uid u. unfold record_login. now destruct (Z.eqb (usr_id u) uid).
Qed.

(** X19.  A login token works once.  When a login succeeds, the client is left
    without any login token, so the same request sent again is refused
    with the message that no valid login token was found, and that second
    attempt changes nothing. *)
Theorem login_token_is_consumed :
  forall (rt : Runtime) (args : HandlerArgs) (st st' : State) (r : APIResponse),
    login_handler rt args st = (Ret (Some r), st') ->
    success r = true ->
    filter (same_client (req_ip (h_request args))
                        (client_user_agent (h_request args)))
           (api_login_tokens (tables st')) = [] /\
    login_handler rt args st'
    = (Ret (Some (error (Some "No valid login-token found for your client")
                        None None)), st').
Proof.
  intros rt args st st' r H Hok.
  unfold login_handler in H. cbv zeta in H.
  bind_step H userResult sa Hu.
  apply reading_select_inv in Hu. destruct Hu as (Hc & -> & ->).
  destruct (firstn 1 _) as [|user [|]] eqn:Huser in H; try orderly_failure H.
  destruct (usr_active user) eqn:Hactive; cbn [negb] in H; [|orderly_failure H].
  bind_step H loginTokenResult sb Hl.
  apply reading_select_inv in Hl. destruct Hl as (_ & -> & ->).
  destruct (firstn 1 _) as [|row [|]] eqn:Hrow in H; try orderly_failure H.
  bind_step H presented sc Hp.
  destruct (negb _) eqn:Hpw in H; [orderly_failure H|].
  assert (sc = st) as ->.
  { destruct (lookup "password_hash" (h_parms args)); inversion Hp; reflexivity. }
  bind_step H u1 sd Hd. apply query_inv in Hd. destruct Hd as (_ & _ & ->).
  bind_step H nw se He. inversion He; subst nw se. clear He.
  bind_step H sessionID sf Hf. apply query_inv in Hf. destruct Hf as (_ & -> & ->).
  bind_step H sessionToken sg Hg. inversion Hg; subst sessionToken sg. clear Hg.
  bind_step H u2 sh Hh. apply query_inv in Hh. destruct Hh as (_ & _ & ->).
  bind_step H loadedSession si Hi. apply reading_select_inv in Hi.
  destruct Hi as (_ & -> & ->).
  destruct (session_projection _ _) as [s|] in H; [|orderly_failure H].
  bind_step H u3 sj Hj. apply query_inv in Hj. destruct Hj as (_ & _ & ->).
  unfold ret in H. injection H as Hr Hst. clear Hr.
  assert (Hc' : connected st' = true) by (subst st'; exact Hc).
  assert (Husers : api_users (tables st')
                   = map (record_login (now st) (usr_id user)) (api_users (tables st)))
    by (subst st'; reflexivity).
  assert (Htokens :
    api_login_tokens (tables st')
    = filter (fun r => negb (same_client (req_ip (h_request args))
                                         (client_user_agent (h_request args)) r))
             (api_login_tokens (tables st)))
    by (subst st'; reflexivity).
  clear Hst.
  assert (Hnone :
    filter (same_client (req_ip (h_request args))
                        (client_user_agent (h_request args)))
           (api_login_tokens (tables st')) = [])
    by (rewrite Htokens; apply filter_none_of_the_rest).
  split; [exact Hnone|].
  unfold login_handler. cbv zeta.
  cbv beta iota delta [bind reading select].
  rewrite Hc', Husers.
  rewrite filter_map_commute
    by (intros x; now rewrite (proj1 (record_login_keeps_the_account _ _ x))).
  rewrite firstn_map_commute, Huser. cbn [map].
  rewrite (proj2 (record_login_keeps_the_account _ _ user)), Hactive.
  cbn [negb]. rewrite Hnone. cbv beta iota. rewrite ?Hc'. reflexivity.
Qed.

Lemma login_token_is_consumed_witness :
  filter (same_client (req_ip curl) (client_user_agent curl))
         (api_login_tokens
            (tables (snd (login_handler rt0
                            {| h_parms := login_parms; h_session := None;
                               h_request := curl |} st0)))) = [] /\
  login_handler rt0
    {| h_parms := login_parms; h_session := None; h_request := curl |}
    (snd (login_handler rt0
            {| h_parms := login_parms; h_session := None; h_request := curl |} st0))
  = (Ret (Some (error (Some "No valid login-token found for your client")
                      None None)),
     snd (login_handler rt0
            {| h_parms := login_parms; h_session := None; h_request := curl |} st0)).
Proof.
  exact (@login_token_is_consumed
           rt0 {| h_parms := login_parms; h_session := None; h_request := curl |}
           st0 _
           (successSession (JObj [("session", session_to_js alice_login)])
                           (Some alice_login))
           eq_refl eq_refl).
Defined.

(** X20.  A logout ends the session for good.  With the connection up, a call
    of [/session/logout] under a session succeeds, removes every row with
    the session's id and no other row, and closes its transaction; when
    no other stored session carries the same token, [establishSession]
    with that token then finds no session. *)
Theorem logout_invalidates_the_token :
  forall (rt : Runtime) (fuel : nat) (methods : list APIMethod)
         (parms : list (string * jsval)) (s : Session) (tok : string)
         (request : Request) (st : State),
    connected st = true ->
    token s = Some tok ->
    (forall row, In row (api_sessions (tables st)) ->
                 ses_token row = Some tok -> ses_id row = session_id s) ->
    exists st',
      tryExecuteMethod rt (S fuel) methods logout_method parms (Some s) request st
      = (Ret (drop_empty_data (successSession JNull None), parms), st') /\
      api_sessions (tables st')
      = filter (fun r => negb (Z.eqb (ses_id r) (session_id s)))
               (api_sessions (tables st)) /\
      snapshot st' = None /\
      establishSession tok st' = (Ret None, st').
Proof.
  intros rt fuel methods parms s tok request st Hc Htok Huniq.
  eexists. split; [|split; [|split]].
  - rewrite tryExecuteMethod_S.
    unfold tryExecuteMethod_body, bind, reading.
    cbn [canBeExecuted logout_method session_method parameters checkParameters
         obind passed verdict_ok negb allowedToExecuteMethod requireNoSession
         requiredPermissions userHasPermissions].
    unfold execute.
    cbn [transaction logout_method session_method andb handler run_handler
         h_session logout_handler].
    rewrite (startTransaction_connected _ Hc).
    unfold bind, deleteSession, bind, query, ret.
    cbn [begun connected with_snapshot]. rewrite Hc.
    cbv beta iota delta [negb success successSession commit].
    cbn [connected with_tables with_snapshot]. rewrite Hc. reflexivity.
  - reflexivity.
  - reflexivity.
  - cbv beta iota zeta delta [establishSession bind reading select ret].
    cbn [connected tables with_snapshot with_tables api_sessions set_sessions].
    rewrite Hc.
    replace (filter (token_is tok) _) with (@nil SessionRow); [reflexivity|].
    symmetry.
    induction (api_sessions (tables st)) as [|r rest IH]; [reflexivity|].
    cbn [filter].
    destruct (Z.eqb_spec (ses_id r) (session_id s)) as [E|E]; cbn [negb].
    + apply IH. intros row Hrow. apply Huniq. now right.
    + cbn [filter]. unfold token_is at 1.
      destruct (ses_token r) as [t0|] eqn:Et.
      * destruct (String.eqb_spec t0 tok) as [->|_].
        -- exfalso. apply E. apply Huniq; [now left | exact Et].
        -- apply IH. intros row Hrow. apply Huniq. now right.
      * apply IH. intros row Hrow. apply Huniq. now right.
Qed.

Lemma logout_invalidates_the_token_witness :
  exists st',
    tryExecuteMethod rt0 1 (default_methods rt0) logout_method []
                     (Some alice_session) curl st0
    = (Ret (drop_empty_data (successSession JNull None), []), st') /\
    api_sessions (tables st')
    = filter (fun r => negb (Z.eqb (ses_id r) (session_id alice_session)))
             (api_sessions (tables st0)) /\
    snapshot st' = None /\
    establishSession "11111111-1111-4111-8111-111111111111" st' = (Ret None, st').
Proof.
  refine (@logout_invalidates_the_token
            rt0 0%nat (default_methods rt0) [] alice_session
            "11111111-1111-4111-8111-111111111111" curl st0
            eq_refl eq_refl _).
  intros row [<- | []] _. reflexivity.
Defined.

Lemma same_key_same_row :
  forall (A : Type) (f : A -> Z) (l : list A) (a b : A),
    NoDup (map f l) -> In a l -> In b l -> f a = f b -> a = b.
Proof.
  intros A f l a b Hnd. induction l as [|x rest IH]; intros Ha Hb E; [contradiction|].
  cbn [map] in Hnd. inversion Hnd as [|? ? Hx Hrest]; subst.
  destruct Ha as [<- | Ha], Hb as [<- | Hb].
  - reflexivity.
  - exfalso. apply Hx. rewrite E. now apply in_map.
  - exfalso. apply Hx. rewrite <- E. now apply in_map.
  - now apply IH.
Qed.

Lemma deleting_each_of :
  forall (others : list SessionRow) (st : State),
    connected st = true ->
    exists st',
      (fix each (others : list SessionRow) : M (option APIResponse) :=
         match others with
         | [] => ret (Some (success_ JNull))
         | otherSession :: rest =>
             bind (deleteSession (ses_id otherSession)) (fun deleted =>
               if negb deleted then fail_with "Error deleting one of the sessions"
               else each rest)
         end) others st
      = (Ret (Some (success_ JNull)), st') /\
      connected st' = true /\
      api_users (tables st') = api_users (tables st) /\
      api_sessions (tables st')
      = filter (fun r => negb (existsb (fun o => Z.eqb (ses_id o) (ses_id r)) others))
               (api_sessions (tables st)).
Proof.
  induction others as [|o rest IH]; intros st Hc.
  - exists st. repeat split; auto. cbn [existsb negb].
    induction (api_sessions (tables st)) as [|r l IHl]; [reflexivity|].
    cbn [filter]. now rewrite <- IHl.
  - destruct (IH (with_tables st
                    (set_sessions (tables st)
                       (filter (fun r => negb (Z.eqb (ses_id r) (ses_id o)))
                               (api_sessions (tables st))))) Hc)
      as (st' & Hrun & Hc' & Hu & Hs).
    exists st'. split; [|split; [exact Hc' | split; [exact Hu|]]].
    + unfold bind at 1. unfold deleteSession, bind, query, ret. rewrite Hc.
      cbn [negb]. exact Hrun.
    + rewrite Hs. cbn [tables with_tables api_sessions set_sessions].
      clear. induction (api_sessions (tables st)) as [|r l IHl]; [reflexivity|].
      cbn [filter existsb].
      rewrite (Z.eqb_sym (ses_id o) (ses_id r)).
      destruct (Z.eqb (ses_id r) (ses_id o)); cbn [negb orb filter].
      * exact IHl.
      * destruct (existsb _ rest); cbn [negb]; now rewrite IHl.
Qed.

(** X21.  [/session/logout_others] ends exactly the user's other sessions.  With
    the connection up and session ids that identify their rows, the
    handler succeeds, and the sessions that remain are the caller's own
    session and the sessions of every other user, in their stored order. *)
Theorem logout_others_keeps_only_the_callers_session :
  forall (args : HandlerArgs) (s : Session) (st : State),
    connected st = true ->
    h_session args = Some s ->
    NoDup (map ses_id (api_sessions (tables st))) ->
    exists st',
      logout_others_handler args st = (Ret (Some (success_ JNull)), st') /\
      api_sessions (tables st')
      = filter (fun r => negb (Z.eqb (ses_user_id r) (user_id s))
                         || Z.eqb (ses_id r) (session_id s))
               (api_sessions (tables st)) /\
      api_users (tables st') = api_users (tables st).
Proof.
  intros args s st Hc Hs Hnd.
  destruct (deleting_each_of
              (filter (fun r => Z.eqb (ses_user_id r) (user_id s)
                                && negb (Z.eqb (ses_id r) (session_id s)))
                      (api_sessions (tables st))) st Hc)
    as (st' & Hrun & _ & Hu & Hrows).
  exists st'. split; [|split; [|exact Hu]].
  - unfold logout_others_handler. rewrite Hs.
    unfold bind at 1. unfold reading, select. rewrite Hc. exact Hrun.
  - rewrite Hrows. apply filter_ext_in. intros r Hr.
    set (P := fun r0 => Z.eqb (ses_user_id r0) (user_id s)
                        && negb (Z.eqb (ses_id r0) (session_id s))).
    assert (E : existsb (fun o => Z.eqb (ses_id o) (ses_id r))
                        (filter P (api_sessions (tables st))) = P r).
    { destruct (P r) eqn:HP.
      - apply existsb_exists. exists r. split; [|apply Z.eqb_refl].
        apply filter_In. now split.
      - destruct (existsb _ _) eqn:Hex; [|reflexivity].
        apply existsb_exists in Hex. destruct Hex as (o & Ho & Hid).
        apply filter_In in Ho. destruct Ho as [Hin HPo].
        apply Z.eqb_eq in Hid.
        rewrite (@same_key_same_row _ ses_id _ o r Hnd Hin Hr Hid) in HPo.
        congruence. }
    rewrite E. unfold P.
    destruct (Z.eqb (ses_user_id r) (user_id s)),
             (Z.eqb (ses_id r) (session_id s)); reflexivity.
Qed.

Lemma logout_others_keeps_only_the_callers_session_witness :
  exists st',
    logout_others_handler keep_alive_args crowded
    = (Ret (Some (success_ JNull)), st') /\
    api_sessions (tables st')
    = filter (fun r => negb (Z.eqb (ses_user_id r) (user_id alice_session))
                       || Z.eqb (ses_id r) (session_id alice_session))
             (api_sessions (tables crowded)) /\
    api_users (tables st') = api_users (tables crowded).
Proof.
  refine (@logout_others_keeps_only_the_callers_session
            keep_alive_args alice_session crowded eq_refl eq_refl _).
  repeat constructor; cbn; intuition discriminate.
Defined.

Lemma bind_ret_eq :
  forall (A B : Type) (m : M A) (k : A -> M B) st a st1,
    m st = (Ret a, st1) -> bind m k st = k a st1.
Proof. intros A B m k st a st1 H. unfold bind. now rewrite H. Qed.

Lemma reading_select_connected :
  forall (A : Type) (f : Tables -> A) st,
    connected st = true -> reading (select f) st = (Ret (f (tables st)), st).
Proof. intros A f st H. unfold reading, select. now rewrite H. Qed.

Lemma query_connected :
  forall (A : Type) (run : Tables -> A * Tables) st,
    connected st = true ->
    query run st
    = (Ret (fst (run (tables st))), with_tables st (snd (run (tables st)))).
Proof.
  intros A run st H. unfold query. rewrite H. now destruct (run (tables st)).
Qed.

(** X22.  The right response logs the user in.  With the connection up, for an
    active user and a client that holds a login token, a request whose
    [password_hash] equals, letter case aside, the digest of the stored
    password hash followed by the login token is answered with a session
    of that user, which starts now and expires in one hour. *)
Theorem right_response_logs_in :
  forall (rt : Runtime) (args : HandlerArgs) (st : State)
         (user : UserRow) (row : LoginTokenRow) (h : string),
    connected st = true ->
    firstn 1 (filter (fun u => column_is (usr_login_name u)
                                         (lookup "username" (h_parms args)))
                     (api_users (tables st))) = [user] ->
    usr_active user = true ->
    firstn 1 (filter (same_client (req_ip (h_request args))
                                  (client_user_agent (h_request args)))
                     (api_login_tokens (tables st))) = [row] ->
    lookup "password_hash" (h_parms args) = JStr h ->
    toLowerCase (sha256 rt [usr_password_hash user; tok_value row]) = toLowerCase h ->
    next_id_unused (tables st) ->
    exists s st',
      login_handler rt args st
      = (Ret (Some (successSession (JObj [("session", session_to_js s)]) (Some s))),
         st') /\
      user_id s = usr_id user /\
      session_id s = next_session_id (tables st) /\
      token s = Some (uuid_v4 rt (draws st)) /\
      start_date s = now st /\
      expiration_date s = (now st + renewal_window)%Z.
Proof.
  intros rt args st user row h Hc Huser Hactive Hrow Hparm Hhash Hwf.
  change (toLowerCase (sha256_hex rt (usr_password_hash user ++ tok_value row))
          = toLowerCase h) in Hhash.
  eexists. eexists. split.
  - unfold login_handler. cbv zeta.
    erewrite bind_ret_eq by (apply reading_select_connected; exact Hc).
    rewrite Huser, Hactive. cbn [negb].
    erewrite bind_ret_eq by (apply reading_select_connected; exact Hc).
    rewrite Hrow, Hparm.
    erewrite bind_ret_eq by reflexivity.
    rewrite Hhash, String.eqb_refl. cbn [negb].
    erewrite bind_ret_eq by (apply query_connected; exact Hc).
    erewrite bind_ret_eq by reflexivity.
    erewrite bind_ret_eq by (apply query_connected; exact Hc).
    erewrite bind_ret_eq by reflexivity.
    erewrite bind_ret_eq by (apply query_connected; exact Hc).
    erewrite bind_ret_eq
      by (unfold getSession; apply reading_select_connected; exact Hc).
    cbn [tables with_tables fst snd insert_session set_login_tokens set_sessions
         api_sessions next_session_id now draws clock].
    unfold session_projection at 1.
    cbn [tables with_tables fst snd insert_session set_login_tokens set_sessions
         api_sessions api_users next_session_id].
    rewrite (@only_row_with_id
               (next_session_id (tables st)) (uuid_v4 rt (draws st))
               (api_sessions (tables st))
               (new_session (next_session_id (tables st)) (usr_id user) (now st)
                            (req_ip (h_request args))
                            (client_user_agent (h_request args)))
               Hwf eq_refl).
    erewrite bind_ret_eq by (apply query_connected; exact Hc).
    reflexivity.
  - cbn. unfold store_token. cbn. rewrite Z.eqb_refl. cbn. auto.
Qed.

Lemma right_response_logs_in_witness :
  exists s st',
    login_handler rt0
      {| h_parms := login_parms; h_session := None; h_request := curl |} st0
    = (Ret (Some (successSession (JObj [("session", session_to_js s)]) (Some s))),
       st') /\
    user_id s = usr_id alice /\
    session_id s = next_session_id (tables st0) /\
    token s = Some (uuid_v4 rt0 (draws st0)) /\
    start_date s = now st0 /\
    expiration_date s = (now st0 + renewal_window)%Z.
Proof.
  refine (@right_response_logs_in
            rt0 {| h_parms := login_parms; h_session := None; h_request := curl |}
            st0 alice
            {| tok_ip := "10.0.0.1"; tok_user_agent := "curl";
               tok_value := "22222222-2222-4222-8222-222222222222";
               tok_expiration := 4600 |}
            (digest ("5f4dcc3b" ++ "22222222-2222-4222-8222-222222222222"))
            eq_refl eq_refl eq_refl eq_refl eq_refl eq_refl _).
  intros r [<- | []]. discriminate.
Defined.

(* ------------------------------------------------------------------ *)
(** * Batches *)
(* ------------------------------------------------------------------ *)

Section Batches.
Variable dispatch :
  APIMethod -> list (string * jsval) -> option Session -> Request ->
  M (APIResponse * list (string * jsval)).
Variable methods : list APIMethod.
Variable request : Request.

(** An entry that returns a turn has recorded exactly one response. *)
Lemma multicall_entry_records_one :
  forall method call session responses st t st1,
    multicall_entry dispatch request method call session responses st = (Ret t, st1) ->
    exists x, match t with
              | Continue responses' _ => responses' = (responses ++ [x])%list
              | Break responses' => responses' = (responses ++ [x])%list
              end.
Proof.
  intros method call session responses st t st1 H.
  unfold multicall_entry, try_catch, bind in H.
  destruct (dispatch method (props_of call) session request st)
    as [[[r call'] | e | |] st2];
    try rewrite multicall_on_error_throws in H; try discriminate.
  exists (makeClientResponse r).
  destruct (lookup "breaking" call') as [| |[|]| | | |];
    try destruct (negb (success r));
    unfold ret in H; inversion H; subst; reflexivity.
Qed.

Lemma get_prop_of_a_value :
  forall c k, is_nullish c = false -> exists v, get_prop c k = Ret v.
Proof. intros [] k H; try discriminate; cbn; eauto. Qed.

(** X23.  Entries that name no registered route leave no trace.  A batch whose
    entries are all values (neither [null] nor [undefined]) runs exactly
    as the batch without the entries that name no registered method: they
    get no response slot, not even an error, and have no effect. *)
Theorem unregistered_entries_leave_no_trace :
  forall (calls : list jsval) (session : option Session)
         (responses : list APIResponse) (st : State),
    (forall c, In c calls -> is_nullish c = false) ->
    multicall_loop dispatch methods request calls session responses st
    = multicall_loop dispatch methods request
                     (filter (names_registered methods) calls)
                     session responses st.
Proof.
  induction calls as [|c rest IH]; intros session responses st Hv; [reflexivity|].
  assert (Hrest : forall c0, In c0 rest -> is_nullish c0 = false)
    by (intros; apply Hv; now right).
  destruct (@get_prop_of_a_value c "method" (Hv c (or_introl eq_refl))) as [name Hname].
  cbn [filter]. unfold names_registered at 1. rewrite Hname.
  destruct (find_method methods name) as [m|] eqn:Hm.
  - cbn [multicall_loop]. unfold bind at 1 3, reading. rewrite Hname, Hm.
    unfold bind.
    destruct (multicall_entry dispatch request m c session responses st)
      as [[[rs s'|rs] | e | |] st1]; try reflexivity.
    apply IH. exact Hrest.
  - cbn [multicall_loop]. unfold bind at 1, reading. rewrite Hname, Hm.
    apply IH. exact Hrest.
Qed.

(** A batch that returns has appended its responses to those it started
    with, at most one for each entry that names a registered route. *)
Lemma multicall_loop_appends :
  forall (calls : list jsval) (session : option Session)
         (responses out : list APIResponse) (st st' : State),
    multicall_loop dispatch methods request calls session responses st
    = (Ret out, st') ->
    exists more,
      out = (responses ++ more)%list /\
      (length more <= length (filter (names_registered methods) calls))%nat.
Proof.
  induction calls as [|c rest IH]; intros session responses out st st' H.
  - cbn in H. inversion H; subst. exists []. split; [now rewrite app_nil_r | cbn; lia].
  - cbn [multicall_loop] in H. unfold bind at 1, reading in H.
    cbn [filter]. unfold names_registered at 1.
    destruct (get_prop c "method") as [name| | |]; try discriminate.
    destruct (find_method methods name) as [m|].
    + unfold bind in H.
      destruct (multicall_entry dispatch request m c session responses st)
        as [[t | e | |] st1] eqn:He; try discriminate.
      destruct (multicall_entry_records_one _ _ _ _ _ He) as [x Hx].
      destruct t as [rs s'|rs]; subst rs.
      * destruct (IH _ _ _ _ _ H) as (more & -> & Hlen).
        exists (x :: more). split; [now rewrite <- app_assoc | cbn; lia].
      * unfold ret in H. inversion H; subst.
        exists [x]. split; [reflexivity | cbn; lia].
    + destruct (IH _ _ _ _ _ H) as (more & -> & Hlen). exists more. auto.
Qed.

(** X24.  The batch as a whole reports success whatever its entries returned.
    When the [/multicall] handler returns and the request carried an array
    of calls, the response reports success and holds at most one response
    for each entry that names a registered route; without such an array
    the response is a failure without a code and nothing was executed. *)
Theorem batch_reports_success_whatever_its_entries_did :
  forall (args : HandlerArgs) (st st' : State) (o : option APIResponse),
    multicall_handler dispatch methods request args st = (Ret o, st') ->
    match get_prop (lookup "content" (h_parms args)) "calls" with
    | Ret (JArr cs) =>
        exists rs,
          o = Some (success_ (JObj [("responses", JArr (map response_to_js rs))])) /\
          (length rs <= length (filter (names_registered methods) cs))%nat
    | _ =>
        o = Some (error (Some "No calls transmitted for the multicall.") None None) /\
        st' = st
    end.
Proof.
  intros args st st' o H. unfold multicall_handler in H.
  unfold bind at 1, reading in H.
  destruct (get_prop (lookup "content" (h_parms args)) "calls")
    as [calls| | |]; try discriminate.
  destruct calls as [| |b|q|s0|cs|props];
    try (unfold ret in H; inversion H; subst; split; reflexivity).
  unfold bind in H.
  destruct (multicall_loop dispatch methods request cs (h_session args) [] st)
    as [[rs | e | |] st1] eqn:Hloop; try discriminate.
  unfold ret in H. inversion H; subst.
  destruct (multicall_loop_appends _ _ _ _ Hloop) as (more & -> & Hlen).
  exists more. split; [reflexivity | exact Hlen].
Qed.

End Batches.

Lemma unregistered_entries_leave_no_trace_witness :
  multicall_loop (tryExecuteMethod rt0 1 (default_methods rt0))
                 (default_methods rt0) curl
                 [entry "/session/nowhere"; entry "/session/logout"; JNum 3%Q]
                 (Some alice_session) [] st0
  = multicall_loop (tryExecuteMethod rt0 1 (default_methods rt0))
                   (default_methods rt0) curl
                   [entry "/session/logout"]
                   (Some alice_session) [] st0.
Proof.
  refine (@unregistered_entries_leave_no_trace
            (tryExecuteMethod rt0 1 (default_methods rt0))
            (default_methods rt0) curl
            [entry "/session/nowhere"; entry "/session/logout"; JNum 3%Q]
            (Some alice_session) [] st0 _).
  intros c [<- | [<- | [<- | []]]]; reflexivity.
Defined.

Lemma batch_reports_success_whatever_its_entries_did_witness :
  exists rs,
    Some (success_
            (JObj [("responses",
                    JArr [response_to_js
                            (error (Some "This method is only available to authenticated users")
                                   (Some ERROR_CODES.PERMISSION_NO_SESSION) None)])]))
    = Some (success_ (JObj [("responses", JArr (map response_to_js rs))])) /\
    (length rs <= 1)%nat.
Proof.
  exact (@batch_reports_success_whatever_its_entries_did
           (tryExecuteMethod rt0 1 (default_methods rt0))
           (default_methods rt0) curl
           {| h_parms := [("content", batch [entry "/session/logout"; entry "/nowhere"])];
              h_session := None; h_request := curl |}
           st0 st0 _ eq_refl).
Defined.

Lemma checkParameters_other_keys :
  forall rt specs parms v parms',
    checkParameters rt specs parms = Ret (v, parms') ->
    forall k, ~ In k (map p_key specs) -> lookup k parms' = lookup k parms.
Proof.
  intros rt specs. induction specs as [|parm rest IH];
    intros parms v parms' H k Hk; cbn [checkParameters] in H.
  - now inversion H.
  - destruct (checkParameter rt parm parms) as [r|]; [|discriminate].
    destruct (negb (passed r)); [now inversion H|].
    cbn [map In] in Hk.
    destruct (newValue r) as [nv|].
    + rewrite (IH _ _ _ H k) by tauto.
      apply lookup_assign_other. intros E. apply Hk. now left.
    + apply (IH _ _ _ H k). tauto.
Qed.

Lemma canBeExecuted_parms :
  forall rt fuel method parms session st v parms',
    canBeExecuted rt fuel method parms session st = Ret (v, parms') ->
    exists pv, checkParameters rt (parameters method) parms = Ret (pv, parms').
Proof.
  intros rt fuel method parms session st v parms' H. unfold canBeExecuted in H.
  destruct (checkParameters rt (parameters method) parms) as [[pv p1] | | |];
    cbn [obind] in H; try discriminate.
  destruct (negb (passed pv)); [inversion H; subst; eauto|].
  destruct (allowedToExecuteMethod fuel st session method) as [av | | |];
    cbn [obind] in H; try discriminate.
  destruct (negb (passed av)); inversion H; subst; eauto.
Qed.

(** X25.  A refused entry and the breaking flag.  When an entry of a batch
    names a registered method and is refused by the checks (a parameter or
    the authorization), its slot holds the refusal, the store and the
    working session are unchanged, and, [breaking] not being a parameter
    of the method, the batch stops there exactly when the entry's
    [breaking] property is the boolean [true]: otherwise the remaining
    entries run. *)
Theorem refused_entry_breaks_only_on_true :
  forall (rt : Runtime) (fuel : nat) (methods : list APIMethod)
         (request : Request) (call : jsval) (rest : list jsval)
         (session : option Session) (responses : list APIResponse)
         (st : State) (name : jsval) (method : APIMethod)
         (v : VerificationResult) (parms' : list (string * jsval)),
    get_prop call "method" = Ret name ->
    find_method methods name = Some method ->
    canBeExecuted rt (S fuel) method (props_of call) session st = Ret (v, parms') ->
    passed v = false ->
    ~ In "breaking" (map p_key (parameters method)) ->
    multicall_loop (tryExecuteMethod rt (S fuel) methods) methods request
                   (call :: rest) session responses st
    = match lookup "breaking" (props_of call) with
      | JBool true =>
          (Ret (responses ++
                [makeClientResponse (error (reason v) (errorCode v) None)])%list, st)
      | _ =>
          multicall_loop (tryExecuteMethod rt (S fuel) methods) methods request
            rest session
            (responses ++
             [makeClientResponse (error (reason v) (errorCode v) None)])%list st
      end.
Proof.
  intros rt fuel methods request call rest session responses st name method
         v parms' Hname Hfind Hcan Hfail Hkey.
  assert (Htry : tryExecuteMethod rt (S fuel) methods method (props_of call)
                                  session request st
                 = (Ret (error (reason v) (errorCode v) None, parms'), st)).
  { rewrite tryExecuteMethod_S. unfold tryExecuteMethod_body, bind, reading.
    rewrite Hcan, Hfail. reflexivity. }
  destruct (canBeExecuted_parms _ _ _ _ _ _ Hcan) as [pv Hpv].
  pose proof (checkParameters_other_keys _ _ _ Hpv "breaking" Hkey) as Hbreaking.
  cbn [multicall_loop]. unfold bind at 1, reading. rewrite Hname, Hfind.
  unfold bind, multicall_entry, try_catch, bind. rewrite Htry, Hbreaking.
  cbn [r_session error success negb].
  destruct (lookup "breaking" (props_of call)) as [| |[|]| | | |]; reflexivity.
Qed.

Lemma refused_entry_breaks_only_on_true_witness :
  multicall_loop (tryExecuteMethod rt0 1 (default_methods rt0))
                 (default_methods rt0) curl
                 [JObj [("method", JStr "/session/logout"); ("breaking", JBool true)];
                  entry "/session/request_login_token"]
                 None [] st0
  = (Ret [makeClientResponse
            (error (Some "This method is only available to authenticated users")
                   (Some ERROR_CODES.PERMISSION_NO_SESSION) None)], st0).
Proof.
  refine (@refused_entry_breaks_only_on_true
            rt0 0%nat (default_methods rt0) curl
            (JObj [("method", JStr "/session/logout"); ("breaking", JBool true)])
            [entry "/session/request_login_token"]
            None [] st0 (JStr "/session/logout") logout_method
            (verdict_fail "This method is only available to authenticated users"
                          ERROR_CODES.PERMISSION_NO_SESSION)
            [("method", JStr "/session/logout"); ("breaking", JBool true)]
            eq_refl eq_refl eq_refl eq_refl _).
  cbn. tauto.
Defined.

(* ------------------------------------------------------------------ *)
(** * The registry *)
(* ------------------------------------------------------------------ *)

Lemma fold_addMethod :
  forall methods r,
    reg_methods (fold_left addMethod methods r) = (reg_methods r ++ methods)%list /\
    reg_modules (fold_left addMethod methods r) = reg_modules r.
Proof.
  induction methods as [|m rest IH]; intros r; cbn [fold_left].
  - now rewrite app_nil_r.
  - destruct (IH (addMethod r m)) as [-> ->]. cbn [addMethod reg_methods reg_modules].
    now rewrite <- app_assoc.
Qed.

Lemma find_method_app :
  forall l1 l2 name,
    find_method (l1 ++ l2)%list name
    = match find_method l1 name with
      | Some m => Some m
      | None => find_method l2 name
      end.
Proof.
  intros l1 l2 name. unfold find_method.
  induction l1 as [|m rest IH]; [reflexivity|]. cbn [app find].
  destruct (match name with JStr s => String.eqb (path m) s | _ => false end);
    [reflexivity | exact IH].
Qed.

(** X26.  Registration keeps the order and never replaces a route.  After
    [addModules], the server's methods are the ones it had, followed by
    the methods of the added modules in the order of the modules and of
    their methods; its modules are the ones it had followed by the added
    ones; and the lookup by path that the batch handler uses still finds
    every method it found before: a route that is already registered is
    not overridden by a module added later. *)
Theorem addModules_registers_in_order :
  forall (ms : list APIModule) (r : Registry),
    reg_methods (addModules r ms)
    = (reg_methods r ++ flat_map module_methods ms)%list /\
    reg_modules (addModules r ms) = (reg_modules r ++ ms)%list /\
    (forall name,
        find_method (reg_methods (addModules r ms)) name
        = match find_method (reg_methods r) name with
          | Some m => Some m
          | None => find_method (flat_map module_methods ms) name
          end) /\
    (forall (m : APIModule) (methods : list APIMethod),
        module_methods (module_addMethods m methods)
        = (module_methods m ++ methods)%list).
Proof.
  assert (Hreg : forall ms r,
             reg_methods (addModules r ms)
             = (reg_methods r ++ flat_map module_methods ms)%list /\
             reg_modules (addModules r ms) = (reg_modules r ++ ms)%list).
  { unfold addModules. induction ms as [|m rest IH]; intros r; cbn [fold_left flat_map].
    - now rewrite !app_nil_r.
    - destruct (IH (addModule r m)) as [-> ->]. unfold addModule, addMethods.
      destruct (fold_addMethod (module_methods m)
                  {| reg_methods := reg_methods r;
                     reg_modules := (reg_modules r ++ [m])%list |}) as [-> ->].
      cbn [reg_methods reg_modules]. now rewrite <- !app_assoc. }
  intros ms r. destruct (Hreg ms r) as [Hm Hmod].
  split; [exact Hm|]. split; [exact Hmod|]. split.
  - intros name. rewrite Hm. apply find_method_app.
  - intros m methods. unfold module_addMethods. revert m.
    induction methods as [|x rest IH]; intros m; cbn [fold_left].
    + now rewrite app_nil_r.
    + rewrite IH. cbn [module_addMethod module_methods]. now rewrite <- app_assoc.
Qed.
